(** * PyTierra: a shallow embedding of the evolutionary runtime

    The Python sources under [pytierra/] are embedded as Rocq functions:
    Python integers are [Z], Python floats are exact rationals [Q] (the
    rounding of IEEE doubles is not represented), [int(x)] on a float is
    truncation toward zero, [%] and [//] are [Z.modulo] and [Z.div] (both
    floor toward minus infinity, like Python's), lists and deques are
    [list], dictionaries are [gmap].  Objects that Python shares by
    reference (cells, genotypes) live in an arena and are referred to by
    their index, so that [is] becomes equality of indices. *)

From Stdlib Require Import ZArith QArith Qabs Lia Ascii String.
From stdpp Require Import base numbers list strings pretty gmap.

Local Open Scope Z_scope.

(** ** Python arithmetic on floats, read as rationals *)

(** [int(x)]: truncation toward zero. *)
Definition int_of_float (x : Q) : Z := Z.quot (Qnum x) (Z.pos (Qden x)).

(** [math.floor(x)], used only on the specification side. *)
Definition floor_of_float (x : Q) : Z := Z.div (Qnum x) (Z.pos (Qden x)).

Definition float_of_int (n : Z) : Q := inject_Z n.

Definition float_lt (x y : Q) : bool := negb (Qle_bool y x).
Definition float_ge (x y : Q) : bool := Qle_bool y x.

(** [0 <= a < b] slices [l[a:b]] of a Python sequence. *)
Definition slice {A} (l : list A) (a b : Z) : list A :=
  take (Z.to_nat b - Z.to_nat a)%nat (drop (Z.to_nat a) l).

(** [l.insert(i, x)] for [0 <= i]. *)
Definition list_insert_at {A} (i : nat) (x : A) (l : list A) : list A :=
  take i l ++ x :: drop i l.

(** [bisect.bisect_left(keys, x)].
    Modelled from the spec: the standard library's bisection is not part of
    the repository; on a sorted list it returns the number of keys that are
    strictly smaller than [x], which is what this counts. *)
Fixpoint bisect_left (keys : list Z) (x : Z) : nat :=
  match keys with
  | [] => O
  | k :: rest => if k <? x then S (bisect_left rest x) else O
  end.

(** ** The pseudo-random generator

    Modelled from the spec: CPython's [random] module is not part of the
    repository.  The generator is a tape of raw draws with a cursor; every
    call of [random()], [randint] or [choice] consumes one raw draw and
    reduces it into its range.  [seed] stands for [random.seed(n)]: it
    replaces the generator by one that depends on [n] only. *)
Module Random.

Record t := mk { tape : nat -> N; cursor : nat }.

Definition next (g : t) : N * t :=
  (tape g (cursor g), mk (tape g) (S (cursor g))).

Definition two53 : N := 9007199254740992.

(** [random.random()]: a float in [0, 1). *)
Definition random (g : t) : Q * t :=
  let '(r, g') := next g in
  (Qmake (Z.of_N (r mod two53)) 9007199254740992, g').

(** [random.randint(a, b)]: [None] stands for the [ValueError] raised on an
    empty range, which consumes no draw. *)
Definition randint (a b : Z) (g : t) : option Z * t :=
  if b <? a then (None, g)
  else let '(r, g') := next g in (Some (a + Z.of_N r mod (b - a + 1)), g').

(** [random.choice(seq)]: [None] stands for the [IndexError] on an empty
    sequence. *)
Definition choice {A} (l : list A) (g : t) : option A * t :=
  match l with
  | [] => (None, g)
  | _ => let '(r, g') := next g in (l !! (N.to_nat r mod length l)%nat, g')
  end.

(** A linear congruential tape, one per seed. *)
Fixpoint lcg (s : N) (n : nat) : N :=
  match n with
  | O => (s * 6364136223846793005 + 1442695040888963407) mod 18446744073709551616
  | S k => (lcg s k * 6364136223846793005 + 1442695040888963407) mod 18446744073709551616
  end%N.

Definition seed (s : Z) : t := mk (lcg (Z.to_N (Z.abs s))) O.

(** A generator that replays the given draws and then yields zeros. *)
Definition of_list (draws : list N) : t := mk (fun n => nth n draws 0%N) O.

End Random.

(** ** cpu.py *)
Module CPU.

Definition STACK_SIZE : Z := 10.

Record t := mk {
  ax : Z; bx : Z; cx : Z; dx : Z;
  ip : Z; sp : Z;
  stack : list Z;
  flag_e : bool; flag_s : bool; flag_z : bool;
  ip_modified : bool
}.

Definition init : t :=
  mk 0 0 0 0 0 0 (replicate (Z.to_nat STACK_SIZE) 0) false false false false.

Definition set_ax (v : Z) (c : t) : t :=
  mk v (bx c) (cx c) (dx c) (ip c) (sp c) (stack c) (flag_e c) (flag_s c) (flag_z c) (ip_modified c).
Definition set_bx (v : Z) (c : t) : t :=
  mk (ax c) v (cx c) (dx c) (ip c) (sp c) (stack c) (flag_e c) (flag_s c) (flag_z c) (ip_modified c).
Definition set_cx (v : Z) (c : t) : t :=
  mk (ax c) (bx c) v (dx c) (ip c) (sp c) (stack c) (flag_e c) (flag_s c) (flag_z c) (ip_modified c).
Definition set_dx (v : Z) (c : t) : t :=
  mk (ax c) (bx c) (cx c) v (ip c) (sp c) (stack c) (flag_e c) (flag_s c) (flag_z c) (ip_modified c).
Definition set_ip (v : Z) (c : t) : t :=
  mk (ax c) (bx c) (cx c) (dx c) v (sp c) (stack c) (flag_e c) (flag_s c) (flag_z c) (ip_modified c).
Definition set_sp (v : Z) (c : t) : t :=
  mk (ax c) (bx c) (cx c) (dx c) (ip c) v (stack c) (flag_e c) (flag_s c) (flag_z c) (ip_modified c).
Definition set_stack (v : list Z) (c : t) : t :=
  mk (ax c) (bx c) (cx c) (dx c) (ip c) (sp c) v (flag_e c) (flag_s c) (flag_z c) (ip_modified c).
Definition set_flag_e (v : bool) (c : t) : t :=
  mk (ax c) (bx c) (cx c) (dx c) (ip c) (sp c) (stack c) v (flag_s c) (flag_z c) (ip_modified c).
Definition set_flag_s (v : bool) (c : t) : t :=
  mk (ax c) (bx c) (cx c) (dx c) (ip c) (sp c) (stack c) (flag_e c) v (flag_z c) (ip_modified c).
Definition set_flag_z (v : bool) (c : t) : t :=
  mk (ax c) (bx c) (cx c) (dx c) (ip c) (sp c) (stack c) (flag_e c) (flag_s c) v (ip_modified c).
Definition set_ip_modified (v : bool) (c : t) : t :=
  mk (ax c) (bx c) (cx c) (dx c) (ip c) (sp c) (stack c) (flag_e c) (flag_s c) (flag_z c) v.

Definition push (value : Z) (c : t) : t :=
  let sp' := (sp c + 1) mod STACK_SIZE in
  set_stack (<[Z.to_nat sp' := value]> (stack c)) (set_sp sp' c).

Definition pop (c : t) : Z * t :=
  let value := default 0 (stack c !! Z.to_nat (sp c)) in
  (value, set_sp ((sp c - 1) mod STACK_SIZE) c).

Definition set_flags (value : Z) (c : t) : t :=
  set_flag_e false (set_flag_s (value <? 0) (set_flag_z (value =? 0) c)).

End CPU.

(** ** cell.py *)

(** A cell object is referred to by its index in the arena of all cells
    ever created by the simulation.  The serial number [_id], drawn from the
    class counter [Cell._next_id], is read only by the controller and by
    persistence, and is left out. *)
Abbreviation CellId := nat (only parsing).

Module MemRegion.
Record t := mk { pos : Z; size : Z }.
End MemRegion.

Module Demographics.

Record t := mk {
  genotype : string;
  parent_genotype : string;
  fecundity : Z;
  inst_executed : Z;
  rep_inst : Z;
  mutations : Z;
  mov_daught : Z;
  mov_off_min : Z;
  mov_off_max : Z;
  birth_time : Z
}.

Definition init : t := mk "" "" 0 0 0 0 0 0 0 0.

Definition set_genotype (v : string) (d : t) : t :=
  mk v (parent_genotype d) (fecundity d) (inst_executed d) (rep_inst d)
    (mutations d) (mov_daught d) (mov_off_min d) (mov_off_max d) (birth_time d).
Definition set_parent_genotype (v : string) (d : t) : t :=
  mk (genotype d) v (fecundity d) (inst_executed d) (rep_inst d)
    (mutations d) (mov_daught d) (mov_off_min d) (mov_off_max d) (birth_time d).
Definition set_fecundity (v : Z) (d : t) : t :=
  mk (genotype d) (parent_genotype d) v (inst_executed d) (rep_inst d)
    (mutations d) (mov_daught d) (mov_off_min d) (mov_off_max d) (birth_time d).
Definition set_inst_executed (v : Z) (d : t) : t :=
  mk (genotype d) (parent_genotype d) (fecundity d) v (rep_inst d)
    (mutations d) (mov_daught d) (mov_off_min d) (mov_off_max d) (birth_time d).
Definition set_rep_inst (v : Z) (d : t) : t :=
  mk (genotype d) (parent_genotype d) (fecundity d) (inst_executed d) v
    (mutations d) (mov_daught d) (mov_off_min d) (mov_off_max d) (birth_time d).
Definition set_mutations (v : Z) (d : t) : t :=
  mk (genotype d) (parent_genotype d) (fecundity d) (inst_executed d) (rep_inst d)
    v (mov_daught d) (mov_off_min d) (mov_off_max d) (birth_time d).
Definition set_mov_daught (v : Z) (d : t) : t :=
  mk (genotype d) (parent_genotype d) (fecundity d) (inst_executed d) (rep_inst d)
    (mutations d) v (mov_off_min d) (mov_off_max d) (birth_time d).
Definition set_mov_off_min (v : Z) (d : t) : t :=
  mk (genotype d) (parent_genotype d) (fecundity d) (inst_executed d) (rep_inst d)
    (mutations d) (mov_daught d) v (mov_off_max d) (birth_time d).
Definition set_mov_off_max (v : Z) (d : t) : t :=
  mk (genotype d) (parent_genotype d) (fecundity d) (inst_executed d) (rep_inst d)
    (mutations d) (mov_daught d) (mov_off_min d) v (birth_time d).
Definition set_birth_time (v : Z) (d : t) : t :=
  mk (genotype d) (parent_genotype d) (fecundity d) (inst_executed d) (rep_inst d)
    (mutations d) (mov_daught d) (mov_off_min d) (mov_off_max d) v.

End Demographics.

Module Cell.

Record t := mk {
  cpu : CPU.t;
  mm : MemRegion.t;
  md : option MemRegion.t;
  d : Demographics.t;
  alive : bool;
  ib : Z
}.

(** [Cell(pos, size)] *)
Definition init (p sz : Z) : t :=
  mk CPU.init (MemRegion.mk p sz) None Demographics.init true 0.

Definition set_cpu (v : CPU.t) (c : t) : t := mk v (mm c) (md c) (d c) (alive c) (ib c).
Definition set_md (v : option MemRegion.t) (c : t) : t := mk (cpu c) (mm c) v (d c) (alive c) (ib c).
Definition set_d (v : Demographics.t) (c : t) : t := mk (cpu c) (mm c) (md c) v (alive c) (ib c).
Definition set_alive (v : bool) (c : t) : t := mk (cpu c) (mm c) (md c) (d c) v (ib c).

Definition in_region (r : MemRegion.t) (addr soup_size : Z) : bool :=
  let addr := addr mod soup_size in
  let start := MemRegion.pos r mod soup_size in
  let end_ := (MemRegion.pos r + MemRegion.size r) mod soup_size in
  if start <? end_ then (start <=? addr) && (addr <? end_)
  else (addr >=? start) || (addr <? end_).

Definition owns_mother (c : t) (addr soup_size : Z) : bool :=
  in_region (mm c) addr soup_size.

Definition owns_daughter (c : t) (addr soup_size : Z) : bool :=
  match md c with
  | None => false
  | Some r => in_region r addr soup_size
  end.

End Cell.

(** ** config.py

    The fields the runtime reads.  [rate_mut], [rate_flaw] and
    [rate_mov_mut] are rewritten by [Mutations.update_rates]. *)
Module Config.

Record t := mk {
  soup_size : Z;
  slice_size : Z;
  siz_dep_slice : Z;
  slice_pow : Q;
  slice_style : Z;
  slic_fix_frac : Q;
  slic_ran_frac : Q;
  gen_per_bkg_mut : Z;
  gen_per_flaw : Z;
  gen_per_mov_mut : Z;
  gen_per_div_mut : Z;
  gen_per_cro_ins_sam_siz : Z;
  gen_per_ins_ins : Z;
  gen_per_del_ins : Z;
  gen_per_cro_ins : Z;
  gen_per_del_seg : Z;
  gen_per_ins_seg : Z;
  gen_per_cro_seg : Z;
  mut_bit_prop : Q;
  mal_mode : Z;
  mal_reap_tol : Z;
  mal_tol : Z;
  min_cell_size : Z;
  mov_prop_thr_div : Q;
  search_limit : Z;
  reap_rnd_prop : Q;
  lazy_tol : Z;
  drop_dead : Z;
  div_same_siz : Z;
  dist_freq : Q;
  dist_prop : Q;
  mem_mode_free : Z;
  mem_mode_mine : Z;
  mem_mode_prot : Z;
  disk_bank : Z;
  save_freq : Z;
  seed : Z;
  rate_mut : Q;
  rate_flaw : Q;
  rate_mov_mut : Q
}.

(** The defaults of the dataclass. *)
Definition default : t := {|
  soup_size := 60000;
  slice_size := 25; siz_dep_slice := 0; slice_pow := 1; slice_style := 2;
  slic_fix_frac := 0; slic_ran_frac := 2;
  gen_per_bkg_mut := 32; gen_per_flaw := 32; gen_per_mov_mut := 0;
  gen_per_div_mut := 32; gen_per_cro_ins_sam_siz := 32; gen_per_ins_ins := 32;
  gen_per_del_ins := 32; gen_per_cro_ins := 32; gen_per_del_seg := 32;
  gen_per_ins_seg := 32; gen_per_cro_seg := 32;
  mut_bit_prop := 2 # 10;
  mal_mode := 1; mal_reap_tol := 1; mal_tol := 20;
  min_cell_size := 12; mov_prop_thr_div := 7 # 10;
  search_limit := 5;
  reap_rnd_prop := 3 # 10; lazy_tol := 10; drop_dead := 5;
  div_same_siz := 0;
  dist_freq := - (3 # 10); dist_prop := 2 # 10;
  mem_mode_free := 0; mem_mode_mine := 0; mem_mode_prot := 2;
  disk_bank := 1; save_freq := 100;
  seed := 0;
  rate_mut := 0; rate_flaw := 0; rate_mov_mut := 0
|}.

Definition set_rates (rm rf rmm : Q) (c : t) : t := {|
  soup_size := soup_size c;
  slice_size := slice_size c; siz_dep_slice := siz_dep_slice c;
  slice_pow := slice_pow c; slice_style := slice_style c;
  slic_fix_frac := slic_fix_frac c; slic_ran_frac := slic_ran_frac c;
  gen_per_bkg_mut := gen_per_bkg_mut c; gen_per_flaw := gen_per_flaw c;
  gen_per_mov_mut := gen_per_mov_mut c; gen_per_div_mut := gen_per_div_mut c;
  gen_per_cro_ins_sam_siz := gen_per_cro_ins_sam_siz c;
  gen_per_ins_ins := gen_per_ins_ins c; gen_per_del_ins := gen_per_del_ins c;
  gen_per_cro_ins := gen_per_cro_ins c; gen_per_del_seg := gen_per_del_seg c;
  gen_per_ins_seg := gen_per_ins_seg c; gen_per_cro_seg := gen_per_cro_seg c;
  mut_bit_prop := mut_bit_prop c;
  mal_mode := mal_mode c; mal_reap_tol := mal_reap_tol c; mal_tol := mal_tol c;
  min_cell_size := min_cell_size c; mov_prop_thr_div := mov_prop_thr_div c;
  search_limit := search_limit c;
  reap_rnd_prop := reap_rnd_prop c; lazy_tol := lazy_tol c; drop_dead := drop_dead c;
  div_same_siz := div_same_siz c;
  dist_freq := dist_freq c; dist_prop := dist_prop c;
  mem_mode_free := mem_mode_free c; mem_mode_mine := mem_mode_mine c;
  mem_mode_prot := mem_mode_prot c;
  disk_bank := disk_bank c; save_freq := save_freq c;
  seed := seed c;
  rate_mut := rm; rate_flaw := rf; rate_mov_mut := rmm
|}.

End Config.

(** ** soup.py *)
Module Soup.

Definition PROT_EXECUTE : Z := 1.
Definition PROT_WRITE : Z := 2.
Definition PROT_READ : Z := 4.

(** [data] is the numpy array of bytes, [free_blocks] the list of
    [[pos, size]] pairs, [_owners] the list of [(pos, size, cell)]. *)
Record t := mk {
  size : Z;
  data : list Z;
  free_blocks : list (Z * Z);
  owners : list (Z * Z * CellId)
}.

Definition init (size : Z) : t :=
  mk size (replicate (Z.to_nat size) 0) [(0, size)] [].

Definition set_data (v : list Z) (s : t) : t := mk (size s) v (free_blocks s) (owners s).
Definition set_free_blocks (v : list (Z * Z)) (s : t) : t := mk (size s) (data s) v (owners s).
Definition set_owners (v : list (Z * Z * CellId)) (s : t) : t := mk (size s) (data s) (free_blocks s) v.

Definition read (s : t) (addr : Z) : Z :=
  default 0 (data s !! Z.to_nat (addr mod size s)).

Definition write (s : t) (addr value : Z) : t :=
  set_data (<[Z.to_nat (addr mod size s) := Z.land value 255]> (data s)) s.

(** The binary search of [owner_at]; the fuel is the number of entries plus
    one, which the halving of [hi - lo] never exhausts. *)
Fixpoint owner_at_loop (fuel : nat) (os : list (Z * Z * CellId)) (addr : Z)
    (lo hi : nat) : option CellId :=
  match fuel with
  | O => None
  | S fuel' =>
    if (lo <? hi)%nat then
      let mid := ((lo + hi) / 2)%nat in
      match os !! mid with
      | Some (pos, sz, cell) =>
        if addr <? pos then owner_at_loop fuel' os addr lo mid
        else if addr >=? pos + sz then owner_at_loop fuel' os addr (mid + 1)%nat hi
        else Some cell
      | None => None
      end
    else None
  end.

Definition owner_at (s : t) (addr : Z) : option CellId :=
  let addr := addr mod size s in
  owner_at_loop (S (length (owners s))) (owners s) addr O (length (owners s)).

Definition _check_access (s : t) (addr : Z) (cell : CellId) (config : Config.t)
    (access_bit : Z) : bool :=
  let addr := addr mod size s in
  match owner_at s addr with
  | None => Z.land (Config.mem_mode_free config) access_bit =? 0
  | Some owner =>
    if Nat.eqb owner cell
    then Z.land (Config.mem_mode_mine config) access_bit =? 0
    else Z.land (Config.mem_mode_prot config) access_bit =? 0
  end.

Definition no_protection (config : Config.t) : bool :=
  (Config.mem_mode_free config =? 0) && (Config.mem_mode_mine config =? 0)
  && (Config.mem_mode_prot config =? 0).

Definition check_read (s : t) (addr : Z) (reader : CellId) (config : Config.t) : bool :=
  if no_protection config then true else _check_access s addr reader config PROT_READ.

Definition check_write (s : t) (addr : Z) (writer : CellId) (config : Config.t) : bool :=
  if no_protection config then true else _check_access s addr writer config PROT_WRITE.

Definition check_execute (s : t) (addr : Z) (executor : CellId) (config : Config.t) : bool :=
  if no_protection config then true else _check_access s addr executor config PROT_EXECUTE.

Definition read_block (s : t) (addr sz : Z) : list Z :=
  let addr := addr mod size s in
  if addr + sz <=? size s then slice (data s) addr (addr + sz)
  else slice (data s) addr (size s) ++ slice (data s) 0 (sz - (size s - addr)).

(** [write_block]: numpy refuses a slice assignment whose two sides differ
    in length; [None] stands for that [ValueError]. *)
Definition write_block (s : t) (addr : Z) (bytes : list Z) : option t :=
  let addr := addr mod size s in
  let len := Z.of_nat (length bytes) in
  if addr + len <=? size s then
    Some (set_data (take (Z.to_nat addr) (data s) ++ bytes
                    ++ drop (Z.to_nat (addr + len)) (data s)) s)
  else
    let split := size s - addr in
    if len - split <=? size s then
      let d1 := take (Z.to_nat addr) (data s) ++ take (Z.to_nat split) bytes in
      Some (set_data (drop (Z.to_nat split) bytes
                      ++ drop (Z.to_nat (len - split)) d1) s)
    else None.

(** mode 0: the first block that is large enough. *)
Fixpoint first_fit (blocks : list (Z * Z)) (i : nat) (size : Z) : option nat :=
  match blocks with
  | [] => None
  | (pos, sz) :: rest => if sz >=? size then Some i else first_fit rest (S i) size
  end.

(** mode 1: [best_size] starts at [float("inf")], here [None]. *)
Fixpoint better_fit (blocks : list (Z * Z)) (i : nat) (size : Z)
    (best_idx : option nat) (best_size : option Z) : option nat :=
  match blocks with
  | [] => best_idx
  | (pos, sz) :: rest =>
    if (sz >=? size) && (match best_size with None => true | Some b => sz <? b end)
    then better_fit rest (S i) size (Some i) (Some sz)
    else better_fit rest (S i) size best_idx best_size
  end.

(** mode 2: the indices of the adequate blocks. *)
Fixpoint adequate (blocks : list (Z * Z)) (i : nat) (size : Z) : list nat :=
  match blocks with
  | [] => []
  | (pos, sz) :: rest =>
    if sz >=? size then i :: adequate rest (S i) size else adequate rest (S i) size
  end.

(** modes 3 to 6: the adequate block nearest to the hint. *)
Fixpoint nearest (blocks : list (Z * Z)) (i : nat) (size soup_size hint_addr : Z)
    (best_idx : option nat) (best_dist : option Z) : option nat * option Z :=
  match blocks with
  | [] => (best_idx, best_dist)
  | (pos, sz) :: rest =>
    if sz >=? size then
      let dist := Z.min (Z.abs (pos - hint_addr)) (soup_size - Z.abs (pos - hint_addr)) in
      if match best_dist with None => true | Some b => dist <? b end
      then nearest rest (S i) size soup_size hint_addr (Some i) (Some dist)
      else nearest rest (S i) size soup_size hint_addr best_idx best_dist
    else nearest rest (S i) size soup_size hint_addr best_idx best_dist
  end.

(** The tail of [allocate], from [if idx is None] on. *)
Definition take_block (s : t) (idx : option nat) (size : Z) : option (Z * Z) * t :=
  match idx with
  | None => (None, s)
  | Some i =>
    match free_blocks s !! i with
    | Some (pos, block_size) =>
      if block_size =? size
      then (Some (pos, size), set_free_blocks (delete i (free_blocks s)) s)
      else (Some (pos, size),
            set_free_blocks (<[i := (pos + size, block_size - size)]> (free_blocks s)) s)
    | None => (None, s)
    end
  end.

Definition allocate (s : t) (size mode hint_addr tolerance : Z) (g : Random.t)
    : option (Z * Z) * t * Random.t :=
  match free_blocks s with
  | [] => (None, s, g)
  | _ =>
    if mode =? 0 then (take_block s (first_fit (free_blocks s) O size) size, g)
    else if mode =? 1 then
      (take_block s (better_fit (free_blocks s) O size None None) size, g)
    else if mode =? 2 then
      match adequate (free_blocks s) O size with
      | [] => (take_block s None size, g)
      | adq => let '(idx, g') := Random.choice adq g in (take_block s idx size, g')
      end
    else if ((mode =? 3) || (mode =? 4) || (mode =? 5) || (mode =? 6))
            && (hint_addr >=? 0) then
      match nearest (free_blocks s) O size (Soup.size s) hint_addr None None with
      | (Some best_idx, Some best_dist) =>
        if (tolerance >=? 0) && (best_dist >? tolerance)
        then (take_block s None size, g)
        else (take_block s (Some best_idx) size, g)
      | _ => (take_block s None size, g)
      end
    else
      (* return self.allocate(size, mode=1) *)
      (take_block s (better_fit (free_blocks s) O size None None) size, g)
  end.

Fixpoint allocate_at_blocks (blocks : list (Z * Z)) (addr size : Z)
    : option (list (Z * Z)) :=
  match blocks with
  | [] => None
  | (pos, block_size) :: rest =>
    if (pos <=? addr) && (pos + block_size >=? addr + size) then
      let remainder_start := addr + size in
      let remainder_size := (pos + block_size) - remainder_start in
      Some ((if pos <? addr then [(pos, addr - pos)] else [])
            ++ (if remainder_size >? 0 then [(remainder_start, remainder_size)] else [])
            ++ rest)
    else
      match allocate_at_blocks rest addr size with
      | Some rest' => Some ((pos, block_size) :: rest')
      | None => None
      end
  end.

Definition allocate_at (s : t) (addr size : Z) : bool * t :=
  let addr := addr mod Soup.size s in
  match allocate_at_blocks (free_blocks s) addr size with
  | Some blocks => (true, set_free_blocks blocks s)
  | None => (false, s)
  end.

(** The two merging steps of [deallocate], on the list of blocks. *)
Definition merge_next (blocks : list (Z * Z)) (insert_idx : nat) : list (Z * Z) :=
  if (insert_idx + 1 <? length blocks)%nat then
    match blocks !! insert_idx, blocks !! (insert_idx + 1)%nat with
    | Some curr, Some nxt =>
      if curr.1 + curr.2 =? nxt.1
      then delete (insert_idx + 1)%nat (<[insert_idx := (curr.1, curr.2 + nxt.2)]> blocks)
      else blocks
    | _, _ => blocks
    end
  else blocks.

Definition merge_prev (blocks : list (Z * Z)) (insert_idx : nat) : list (Z * Z) :=
  if (0 <? insert_idx)%nat then
    match blocks !! (insert_idx - 1)%nat, blocks !! insert_idx with
    | Some prev, Some curr =>
      if prev.1 + prev.2 =? curr.1
      then delete insert_idx (<[(insert_idx - 1)%nat := (prev.1, prev.2 + curr.2)]> blocks)
      else blocks
    | _, _ => blocks
    end
  else blocks.

Definition deallocate_blocks (blocks : list (Z * Z)) (addr size : Z) : list (Z * Z) :=
  let positions := blocks.*1 in
  let insert_idx := bisect_left positions addr in
  let blocks := list_insert_at insert_idx (addr, size) blocks in
  merge_prev (merge_next blocks insert_idx) insert_idx.

Definition deallocate (s : t) (addr size : Z) : t :=
  let addr := addr mod Soup.size s in
  set_free_blocks (deallocate_blocks (free_blocks s) addr size) s.

Fixpoint randomize_block_loop (n : nat) (s : t) (addr i : Z) (g : Random.t) : t * Random.t :=
  match n with
  | O => (s, g)
  | S n' =>
    let '(r, g') := Random.randint 0 31 g in
    let s' := set_data (<[Z.to_nat ((addr + i) mod size s) := default 0 r]> (data s)) s in
    randomize_block_loop n' s' addr (i + 1) g'
  end.

Definition randomize_block (s : t) (addr size : Z) (g : Random.t) : t * Random.t :=
  randomize_block_loop (Z.to_nat size) s addr 0 g.

Definition is_free (s : t) (addr : Z) : bool :=
  let addr := addr mod size s in
  existsb (fun b => (b.1 <=? addr) && (addr <? b.1 + b.2)) (free_blocks s).

Definition total_free (s : t) : Z :=
  foldr (fun b acc => b.2 + acc) 0 (free_blocks s).

(** [add_owner(cell)], given the cell's mother region. *)
Definition add_owner (s : t) (cell : CellId) (mm : MemRegion.t) : t :=
  let positions := (owners s).*1.*1 in
  let idx := bisect_left positions (MemRegion.pos mm) in
  set_owners (list_insert_at idx (MemRegion.pos mm, MemRegion.size mm, cell) (owners s)) s.

Fixpoint remove_first_owner (os : list (Z * Z * CellId)) (cell : CellId)
    : list (Z * Z * CellId) :=
  match os with
  | [] => []
  | (pos, sz, c) :: rest =>
    if Nat.eqb c cell then rest else (pos, sz, c) :: remove_first_owner rest cell
  end.

Definition remove_owner (s : t) (cell : CellId) : t :=
  set_owners (remove_first_owner (owners s) cell) s.

End Soup.

(** ** scheduler.py *)

(** [int(math.pow(x, y))] for an integer base.
    Modelled from the spec: the C library's [pow] is not part of the
    repository; this is the truncated real power, [None] where
    [math.pow] raises [ValueError]. *)
Fixpoint iroot_search (fuel : nat) (q : positive) (n lo hi : Z) : Z :=
  match fuel with
  | O => lo
  | S fuel' =>
    if hi - lo <=? 1 then lo
    else let mid := (lo + hi) / 2 in
         if mid ^ Z.pos q <=? n then iroot_search fuel' q n mid hi
         else iroot_search fuel' q n lo mid
  end.

Definition iroot (q : positive) (n : Z) : Z :=
  iroot_search (S (Z.to_nat (Z.log2 (n + 1)) + 1)) q n 0 (n + 1).

Definition pow_int (x : Z) (y : Q) : option Z :=
  let p := Qnum y in
  let q := Qden y in
  if p mod Z.pos q =? 0 then
    let n := p / Z.pos q in
    if n >=? 0 then Some (x ^ n)
    else if x =? 0 then None
    else if x =? 1 then Some 1
    else if x =? -1 then Some (if Z.even n then 1 else -1)
    else Some 0
  else if x <? 0 then None
  else if x =? 0 then (if p >? 0 then Some 0 else None)
  else if p >? 0 then Some (iroot q (x ^ p))
  else Some (if x =? 1 then 1 else 0).

Module Scheduler.

(** [_current_idx] starts at 0 and is only ever reset to 0, replaced by a
    remainder, or decremented below a smaller index: it is a natural
    number.  The scheduler's [_config] is the simulation's [config]. *)
Record t := mk { queue : list CellId; current_idx : nat }.

Definition init : t := mk [] O.

Definition compute_slice_size (config : Config.t) (cell : Cell.t) (g : Random.t)
    : option Z * Random.t :=
  let base :=
    if Config.siz_dep_slice config =? 0 then Some (Config.slice_size config)
    else pow_int (MemRegion.size (Cell.mm cell)) (Config.slice_pow config) in
  match base with
  | None => (None, g)
  | Some base =>
    if Config.slice_style config =? 2 then
      let fixed := (Config.slic_fix_frac config * float_of_int base)%Q in
      let '(r, g') := Random.random g in
      let rand_part := (r * Config.slic_ran_frac config * float_of_int base)%Q in
      (Some (Z.max 1 (int_of_float (fixed + rand_part)%Q)), g')
    else (Some (Z.max 1 base), g)
  end.

Definition add (s : t) (cell : CellId) : t := mk (queue s ++ [cell]) (current_idx s).

Fixpoint index_of (l : list CellId) (cell : CellId) (i : nat) : option nat :=
  match l with
  | [] => None
  | c :: rest => if Nat.eqb c cell then Some i else index_of rest cell (S i)
  end.

Definition remove (s : t) (cell : CellId) : t :=
  match index_of (queue s) cell O with
  | None => s
  | Some idx =>
    let queue' := delete idx (queue s) in
    if (idx <? current_idx s)%nat then mk queue' (current_idx s - 1)%nat
    else if Nat.eqb idx (current_idx s) && (length queue' <=? current_idx s)%nat
    then mk queue' O
    else mk queue' (current_idx s)
  end.

Definition current (s : t) : option CellId * t :=
  match queue s with
  | [] => (None, s)
  | _ =>
    let s' := if (length (queue s) <=? current_idx s)%nat then mk (queue s) O else s in
    (queue s' !! current_idx s', s')
  end.

Definition advance (s : t) : t :=
  match queue s with
  | [] => s
  | _ => mk (queue s) ((current_idx s + 1) mod length (queue s))%nat
  end.

Definition num_cells (s : t) : Z := Z.of_nat (length (queue s)).

End Scheduler.

(** ** events.py

    The trace records the calls of [EventBus.emit] in order; what the
    subscribed callbacks do with them is outside the runtime. *)
Abbreviation GtId := nat (only parsing).

Inductive Event :=
| CELL_BORN (cell parent : CellId)
| CELL_DIED (cell : CellId) (cause : string)
| NEW_GENOTYPE (genotype : GtId)
| MUTATION (addr : Z) (kind : string).

(** ** genebank.py *)
Module Genotype.

Record t := mk {
  name : string;
  genome : list Z;
  population : Z;
  origin_time : Z;
  max_pop : Z;
  parent : string
}.

Definition set_population (p m : Z) (g : t) : t :=
  mk (name g) (genome g) p (origin_time g) m (parent g).

End Genotype.

Module SizeClass.

(** [genotypes] maps a genome hash to the genotype object. *)
Record t := mk { genotypes : gmap Z GtId; next_label : Z }.

Definition init : t := mk ∅ 0.

Definition letter (n : Z) : string :=
  String (ascii_of_nat (97 + Z.to_nat (n mod 26))) EmptyString.

Definition _int_to_label (n : Z) : string :=
  let c3 := letter n in
  let n := n / 26 in
  let c2 := letter n in
  let n := n / 26 in
  let c1 := letter n in
  c1 +:+ c2 +:+ c3.

Fixpoint zero_pad (width : nat) (digits : string) : string :=
  match width with
  | O => digits
  | S w => if (String.length digits <? S w)%nat then "0" +:+ zero_pad w digits
           else digits
  end.

(** The format [{size:04d}]. *)
Definition fmt_04d (n : Z) : string :=
  if n <? 0 then "-" +:+ zero_pad 3 (pretty (- n)) else zero_pad 4 (pretty n).

Definition next_name (sc : t) (size : Z) : string * t :=
  let label := _int_to_label (next_label sc) in
  (fmt_04d size +:+ label, mk (genotypes sc) (next_label sc + 1)).

End SizeClass.

Module GeneBank.

(** Both dictionaries hold references to the same [Genotype] objects:
    the objects live in [arena], the dictionaries hold indices. *)
Record t := mk {
  size_classes : gmap Z SizeClass.t;
  genotypes : gmap string GtId;
  arena : list Genotype.t
}.

Definition init : t := mk ∅ ∅ [].

Fixpoint _genome_hash_loop (data : list Z) (i : Z) (h : Z) : Z :=
  match data with
  | [] => h
  | b :: rest => _genome_hash_loop rest (i + 1) (Z.land (h + b * (i + 1)) 4294967295)
  end.

Definition _genome_hash (data : list Z) : Z :=
  Z.lxor (_genome_hash_loop data 0 0) (Z.of_nat (length data)).

Definition bump (g : Genotype.t) : Genotype.t :=
  let p := Genotype.population g + 1 in
  Genotype.set_population p (Z.max (Genotype.max_pop g) p) g.

(** [register(cell, soup)]: returns the genotype, the updated bank and the
    cell with its [d.genotype] set. *)
Definition register (gb : t) (cell : Cell.t) (soup : Soup.t) : GtId * t * Cell.t :=
  let genome := Soup.read_block soup (MemRegion.pos (Cell.mm cell))
                  (MemRegion.size (Cell.mm cell)) in
  let size := MemRegion.size (Cell.mm cell) in
  let ghash := _genome_hash genome in
  let sc := default SizeClass.init (size_classes gb !! size) in
  let '(gt, sc', genotypes', arena') :=
    match SizeClass.genotypes sc !! ghash with
    | Some gt => (gt, sc, genotypes gb, arena gb)
    | None =>
      let '(name, sc1) := SizeClass.next_name sc size in
      let gt := length (arena gb) in
      let g := Genotype.mk name genome 0 0 0
                 (Demographics.parent_genotype (Cell.d cell)) in
      (gt, SizeClass.mk (<[ghash := gt]> (SizeClass.genotypes sc1)) (SizeClass.next_label sc1),
       <[name := gt]> (genotypes gb), arena gb ++ [g])
    end in
  let arena'' := alter bump gt arena' in
  let name := match arena'' !! gt with Some g => Genotype.name g | None => "" end in
  (gt, mk (<[size := sc']> (size_classes gb)) genotypes' arena'',
   Cell.set_d (Demographics.set_genotype name (Cell.d cell)) cell).

Definition unregister (gb : t) (cell : Cell.t) : t :=
  let name := Demographics.genotype (Cell.d cell) in
  match genotypes gb !! name with
  | Some gt =>
    mk (size_classes gb) (genotypes gb)
       (alter (fun g => Genotype.set_population
                          (Z.max 0 (Genotype.population g - 1)) (Genotype.max_pop g) g)
              gt (arena gb))
  | None => gb
  end.

Definition living (gb : t) : list Genotype.t :=
  filter (fun g => 0 < Genotype.population g)
    (omap (fun kv => arena gb !! kv.2) (map_to_list (genotypes gb))).

Definition num_genotypes (gb : t) : Z := Z.of_nat (length (living gb)).

Definition summary (gb : t) : gmap string Z :=
  list_to_map ((fun g => (Genotype.name g, Genotype.population g)) <$> living gb).

End GeneBank.

(** ** The state of a [Simulation] object *)
Module ReaperState.
Record t := mk { queue : list CellId }.
End ReaperState.

Module CollectorState.

(** The time series are lists of [(time, value)]; the series of
    instructions per second, which reads the wall clock, is left out. *)
Record t := mk {
  sample_interval : Z;
  last_sample_inst : Z;
  population_size : list (Z * Q);
  mean_creature_size : list (Z * Q);
  max_fitness : list (Z * Q);
  num_genotypes : list (Z * Q);
  soup_fullness : list (Z * Q);
  size_histogram : gmap Z Z;
  genotype_frequency : gmap string Z
}.

Definition init : t := mk 25000 0 [] [] [] [] [] ∅ ∅.

End CollectorState.

Module Sim.

(** [reaper], [genebank] and [mutations] are [Optional] attributes; the
    [Reaper], [Mutations] and [Scheduler] objects all hold a reference to
    the one [config] object.  [cells] is the arena of cell objects. *)
Record t := mk {
  config : Config.t;
  soup : Soup.t;
  scheduler : Scheduler.t;
  reaper : option ReaperState.t;
  genebank : option GeneBank.t;
  mutations : bool;
  events : list Event;
  data_collector : CollectorState.t;
  inst_executed : Z;
  last_repro_inst : Z;
  slicer_cycles : Z;
  next_disturbance_inst : Z;
  last_save_inst : Z;
  last_report_inst : Z;
  cells : list Cell.t;
  rng : Random.t
}.

Definition set_config (v : Config.t) (s : t) : t :=
  mk v (soup s) (scheduler s) (reaper s) (genebank s) (mutations s) (events s)
     (data_collector s) (inst_executed s) (last_repro_inst s) (slicer_cycles s)
     (next_disturbance_inst s) (last_save_inst s) (last_report_inst s) (cells s) (rng s).
Definition set_soup (v : Soup.t) (s : t) : t :=
  mk (config s) v (scheduler s) (reaper s) (genebank s) (mutations s) (events s)
     (data_collector s) (inst_executed s) (last_repro_inst s) (slicer_cycles s)
     (next_disturbance_inst s) (last_save_inst s) (last_report_inst s) (cells s) (rng s).
Definition set_scheduler (v : Scheduler.t) (s : t) : t :=
  mk (config s) (soup s) v (reaper s) (genebank s) (mutations s) (events s)
     (data_collector s) (inst_executed s) (last_repro_inst s) (slicer_cycles s)
     (next_disturbance_inst s) (last_save_inst s) (last_report_inst s) (cells s) (rng s).
Definition set_reaper (v : option ReaperState.t) (s : t) : t :=
  mk (config s) (soup s) (scheduler s) v (genebank s) (mutations s) (events s)
     (data_collector s) (inst_executed s) (last_repro_inst s) (slicer_cycles s)
     (next_disturbance_inst s) (last_save_inst s) (last_report_inst s) (cells s) (rng s).
Definition set_genebank (v : option GeneBank.t) (s : t) : t :=
  mk (config s) (soup s) (scheduler s) (reaper s) v (mutations s) (events s)
     (data_collector s) (inst_executed s) (last_repro_inst s) (slicer_cycles s)
     (next_disturbance_inst s) (last_save_inst s) (last_report_inst s) (cells s) (rng s).
Definition set_mutations (v : bool) (s : t) : t :=
  mk (config s) (soup s) (scheduler s) (reaper s) (genebank s) v (events s)
     (data_collector s) (inst_executed s) (last_repro_inst s) (slicer_cycles s)
     (next_disturbance_inst s) (last_save_inst s) (last_report_inst s) (cells s) (rng s).
Definition set_events (v : list Event) (s : t) : t :=
  mk (config s) (soup s) (scheduler s) (reaper s) (genebank s) (mutations s) v
     (data_collector s) (inst_executed s) (last_repro_inst s) (slicer_cycles s)
     (next_disturbance_inst s) (last_save_inst s) (last_report_inst s) (cells s) (rng s).
Definition set_data_collector (v : CollectorState.t) (s : t) : t :=
  mk (config s) (soup s) (scheduler s) (reaper s) (genebank s) (mutations s) (events s)
     v (inst_executed s) (last_repro_inst s) (slicer_cycles s)
     (next_disturbance_inst s) (last_save_inst s) (last_report_inst s) (cells s) (rng s).
Definition set_inst_executed (v : Z) (s : t) : t :=
  mk (config s) (soup s) (scheduler s) (reaper s) (genebank s) (mutations s) (events s)
     (data_collector s) v (last_repro_inst s) (slicer_cycles s)
     (next_disturbance_inst s) (last_save_inst s) (last_report_inst s) (cells s) (rng s).
Definition set_last_repro_inst (v : Z) (s : t) : t :=
  mk (config s) (soup s) (scheduler s) (reaper s) (genebank s) (mutations s) (events s)
     (data_collector s) (inst_executed s) v (slicer_cycles s)
     (next_disturbance_inst s) (last_save_inst s) (last_report_inst s) (cells s) (rng s).
Definition set_slicer_cycles (v : Z) (s : t) : t :=
  mk (config s) (soup s) (scheduler s) (reaper s) (genebank s) (mutations s) (events s)
     (data_collector s) (inst_executed s) (last_repro_inst s) v
     (next_disturbance_inst s) (last_save_inst s) (last_report_inst s) (cells s) (rng s).
Definition set_next_disturbance_inst (v : Z) (s : t) : t :=
  mk (config s) (soup s) (scheduler s) (reaper s) (genebank s) (mutations s) (events s)
     (data_collector s) (inst_executed s) (last_repro_inst s) (slicer_cycles s)
     v (last_save_inst s) (last_report_inst s) (cells s) (rng s).
Definition set_last_save_inst (v : Z) (s : t) : t :=
  mk (config s) (soup s) (scheduler s) (reaper s) (genebank s) (mutations s) (events s)
     (data_collector s) (inst_executed s) (last_repro_inst s) (slicer_cycles s)
     (next_disturbance_inst s) v (last_report_inst s) (cells s) (rng s).
Definition set_last_report_inst (v : Z) (s : t) : t :=
  mk (config s) (soup s) (scheduler s) (reaper s) (genebank s) (mutations s) (events s)
     (data_collector s) (inst_executed s) (last_repro_inst s) (slicer_cycles s)
     (next_disturbance_inst s) (last_save_inst s) v (cells s) (rng s).
Definition set_cells (v : list Cell.t) (s : t) : t :=
  mk (config s) (soup s) (scheduler s) (reaper s) (genebank s) (mutations s) (events s)
     (data_collector s) (inst_executed s) (last_repro_inst s) (slicer_cycles s)
     (next_disturbance_inst s) (last_save_inst s) (last_report_inst s) v (rng s).
Definition set_rng (v : Random.t) (s : t) : t :=
  mk (config s) (soup s) (scheduler s) (reaper s) (genebank s) (mutations s) (events s)
     (data_collector s) (inst_executed s) (last_repro_inst s) (slicer_cycles s)
     (next_disturbance_inst s) (last_save_inst s) (last_report_inst s) (cells s) v.

(** Reading and updating a cell object through its reference. *)
Definition cell (s : t) (c : CellId) : Cell.t :=
  default (Cell.init 0 0) (cells s !! c).

Definition upd_cell (c : CellId) (f : Cell.t -> Cell.t) (s : t) : t :=
  set_cells (alter f c (cells s)) s.

Definition upd_cpu (c : CellId) (f : CPU.t -> CPU.t) (s : t) : t :=
  upd_cell c (fun x => Cell.set_cpu (f (Cell.cpu x)) x) s.

Definition upd_d (c : CellId) (f : Demographics.t -> Demographics.t) (s : t) : t :=
  upd_cell c (fun x => Cell.set_d (f (Cell.d x)) x) s.

Definition cpu (s : t) (c : CellId) : CPU.t := Cell.cpu (cell s c).
Definition mm (s : t) (c : CellId) : MemRegion.t := Cell.mm (cell s c).
Definition md (s : t) (c : CellId) : option MemRegion.t := Cell.md (cell s c).
Definition d (s : t) (c : CellId) : Demographics.t := Cell.d (cell s c).

(** [sim.events.emit(...)] *)
Definition emit (e : Event) (s : t) : t := set_events (events s ++ [e]) s.

(** The reaper's queue, read through [sim.reaper]. *)
Definition reaper_queue (s : t) : list CellId :=
  match reaper s with
  | Some r => ReaperState.queue r
  | None => []
  end.

End Sim.

(** ** Exceptions and non-termination

    A computation on the simulation either returns a value and the new
    state, or raises.  [Hang] marks a Python loop that does not end (or a
    run cut off by its fuel); the state reached so far is kept. *)
Inductive Exn := ValueError | IndexError | Hang.

Inductive Res (A : Type) :=
| Ok (a : A) (s : Sim.t)
| Raise (e : Exn) (s : Sim.t).
Arguments Ok {A} a s.
Arguments Raise {A} e s.

Definition M (A : Type) : Type := Sim.t -> Res A.

Definition ret {A} (a : A) : M A := fun s => Ok a s.
Definition bind {A B} (m : M A) (k : A -> M B) : M B :=
  fun s => match m s with
           | Ok a s' => k a s'
           | Raise e s' => Raise e s'
           end.
Definition raise {A} (e : Exn) : M A := fun s => Raise e s.
Definition get : M Sim.t := fun s => Ok s s.
Definition modify (f : Sim.t -> Sim.t) : M unit := fun s => Ok tt (f s).

Notation "x <- c1 ;; c2" := (bind c1 (fun x => c2))
  (at level 20, c1 at level 99, c2 at level 200, only parsing).
Notation "c1 ;; c2" := (bind c1 (fun _ => c2))
  (at level 100, c2 at level 200, only parsing, right associativity).

(** Draws from the generator held by the simulation. *)
Definition m_random : M Q :=
  fun s => let '(r, g) := Random.random (Sim.rng s) in Ok r (Sim.set_rng g s).

Definition m_randint (a b : Z) : M Z :=
  fun s => match Random.randint a b (Sim.rng s) with
           | (Some r, g) => Ok r (Sim.set_rng g s)
           | (None, g) => Raise ValueError (Sim.set_rng g s)
           end.

Definition m_choice {A} (l : list A) : M A :=
  fun s => match Random.choice l (Sim.rng s) with
           | (Some r, g) => Ok r (Sim.set_rng g s)
           | (None, g) => Raise IndexError (Sim.set_rng g s)
           end.

(** [for i in range(n)] over a state transformer. *)
Fixpoint for_range (n : nat) (i : Z) (body : Z -> Sim.t -> Sim.t) (s : Sim.t) : Sim.t :=
  match n with
  | O => s
  | S n' => for_range n' (i + 1) body (body i s)
  end.

(** [sum(c.mm.size for c in sim.scheduler.queue)] *)
Definition total_size (s : Sim.t) : Z :=
  foldr (fun c acc => MemRegion.size (Sim.mm s c) + acc) 0 (Scheduler.queue (Sim.scheduler s)).

(** ** reaper.py

    The methods are called as [sim.reaper.method(sim)]: [self] is the object
    held in [sim.reaper], and [self.config] is [sim.config]. *)
Module Reaper.

Definition add (s : Sim.t) (cell : CellId) : Sim.t :=
  match Sim.reaper s with
  | Some r => Sim.set_reaper (Some (ReaperState.mk (ReaperState.queue r ++ [cell]))) s
  | None => s
  end.

(** [deque.remove(cell)]: the first occurrence; a missing cell is ignored. *)
Fixpoint remove_first (l : list CellId) (cell : CellId) : list CellId :=
  match l with
  | [] => []
  | c :: rest => if Nat.eqb c cell then rest else c :: remove_first rest cell
  end.

Definition remove (s : Sim.t) (cell : CellId) : Sim.t :=
  match Sim.reaper s with
  | Some r => Sim.set_reaper (Some (ReaperState.mk (remove_first (ReaperState.queue r) cell))) s
  | None => s
  end.

Definition is_cell (c : CellId) (o : option CellId) : bool :=
  match o with
  | Some c' => Nat.eqb c c'
  | None => false
  end.

Definition _reap_cell (cell : CellId) (s : Sim.t) : Sim.t :=
  let s := Sim.upd_cell cell (Cell.set_alive false) s in
  (* Emit event before cleanup *)
  let s := Sim.emit (CELL_DIED cell "reaper") s in
  (* Deallocate mother memory *)
  let mm := Sim.mm s cell in
  let s := Sim.set_soup (Soup.deallocate (Sim.soup s) (MemRegion.pos mm) (MemRegion.size mm)) s in
  let '(soup', g) :=
    Soup.randomize_block (Sim.soup s) (MemRegion.pos mm) (MemRegion.size mm) (Sim.rng s) in
  let s := Sim.set_rng g (Sim.set_soup soup' s) in
  let s := Sim.set_soup (Soup.remove_owner (Sim.soup s) cell) s in
  (* Deallocate daughter if present *)
  let s :=
    match Sim.md s cell with
    | Some md =>
      Sim.upd_cell cell (Cell.set_md None)
        (Sim.set_soup (Soup.deallocate (Sim.soup s) (MemRegion.pos md) (MemRegion.size md)) s)
    | None => s
    end in
  (* Unregister from genebank *)
  let s :=
    match Sim.genebank s with
    | Some gb => Sim.set_genebank (Some (GeneBank.unregister gb (Sim.cell s cell))) s
    | None => s
    end in
  (* Remove from queues *)
  let s := remove s cell in
  Sim.set_scheduler (Scheduler.remove (Sim.scheduler s) cell) s.

Definition wrap_dist (soup_size p addr : Z) : Z :=
  Z.min (Z.abs (p - addr)) (soup_size - Z.abs (p - addr)).

Fixpoint _reap_near_loop (q : list CellId) (addr max_dist : Z)
    (current_cell : option CellId) (s : Sim.t) : option CellId * Sim.t :=
  match q with
  | [] => (None, s)
  | cell :: rest =>
    if is_cell cell current_cell then _reap_near_loop rest addr max_dist current_cell s
    else
      let dist := wrap_dist (Config.soup_size (Sim.config s))
                    (MemRegion.pos (Sim.mm s cell)) addr in
      if dist <=? max_dist then (Some cell, _reap_cell cell s)
      else _reap_near_loop rest addr max_dist current_cell s
  end.

Definition _reap_near_address (s : Sim.t) (addr : Z) (current_cell : option CellId)
    : option CellId * Sim.t :=
  let avg_size :=
    if Scheduler.num_cells (Sim.scheduler s) >? 0
    then total_size s / Scheduler.num_cells (Sim.scheduler s)
    else 80 in
  let max_dist := Config.mal_tol (Sim.config s) * avg_size in
  _reap_near_loop (Sim.reaper_queue s) addr max_dist current_cell s.

Definition reap (suggested_addr : Z) : M (option CellId) := fun s =>
  match Sim.reaper_queue s with
  | [] => Ok None s
  | _ =>
    let '(current_cell, sched) := Scheduler.current (Sim.scheduler s) in
    let s := Sim.set_scheduler sched s in
    let near :=
      if negb (Config.mal_reap_tol (Sim.config s) =? 0) && (suggested_addr >=? 0)
      then _reap_near_address s suggested_addr current_cell
      else (None, s) in
    match near with
    | (Some victim, s') => Ok (Some victim) s'
    | (None, s) =>
      let q := Sim.reaper_queue s in
      let len := Z.of_nat (length q) in
      let reap_range :=
        Z.max 1 (int_of_float (float_of_int len * Config.reap_rnd_prop (Sim.config s))%Q) in
      let '(idx, s) :=
        if reap_range <? 2 then (0, s)
        else let '(r, g) := Random.randint 0 (reap_range - 1) (Sim.rng s) in
             (default 0 r, Sim.set_rng g s) in
      match q !! Z.to_nat idx with
      | None => Raise IndexError s
      | Some victim =>
        (* Never reap currently executing cell *)
        if is_cell victim current_cell && (1 <? len) then
          let idx := (idx + 1) mod Z.min reap_range len in
          match q !! Z.to_nat idx with
          | None => Raise IndexError s
          | Some victim =>
            if is_cell victim current_cell then Ok None s
            else Ok (Some victim) (_reap_cell victim s)
          end
        else Ok (Some victim) (_reap_cell victim s)
      end
    end
  end.

Definition check_lazy (cell : CellId) (s : Sim.t) : bool * Sim.t :=
  if Config.lazy_tol (Sim.config s) <=? 0 then (false, s)
  else if Demographics.fecundity (Sim.d s cell) >? 0 then
    let threshold := MemRegion.size (Sim.mm s cell) * Config.lazy_tol (Sim.config s) in
    if Demographics.rep_inst (Sim.d s cell) >? threshold
    then (true, _reap_cell cell s)
    else (false, s)
  else (false, s).

(** The body of [for _ in range(num_to_kill)]. *)
Fixpoint disturbance_loop (n : nat) (current_cell : option CellId) (killed : Z)
    (s : Sim.t) : Z * Sim.t :=
  match n with
  | O => (killed, s)
  | S n' =>
    let q := Sim.reaper_queue s in
    if (length q <=? 1)%nat then (killed, s)
    else
      let '(r, g) := Random.randint 0 (Z.of_nat (length q) - 1) (Sim.rng s) in
      let s := Sim.set_rng g s in
      match q !! Z.to_nat (default 0 r) with
      | Some victim =>
        if is_cell victim current_cell
        then disturbance_loop n' current_cell killed s
        else disturbance_loop n' current_cell (killed + 1) (_reap_cell victim s)
      | None => (killed, s)
      end
  end.

Definition num_to_kill (s : Sim.t) : Z :=
  Z.max 1 (int_of_float (float_of_int (Z.of_nat (length (Sim.reaper_queue s)))
                         * Config.dist_prop (Sim.config s))%Q).

Definition disturbance (s : Sim.t) : Z * Sim.t :=
  match Sim.reaper_queue s with
  | [] => (0, s)
  | _ =>
    let n := num_to_kill s in
    let '(current_cell, sched) := Scheduler.current (Sim.scheduler s) in
    let s := Sim.set_scheduler sched s in
    disturbance_loop (Z.to_nat n) current_cell 0 s
  end.

End Reaper.

(** ** datalog.py *)
Module DataCollector.

Definition capacity : nat := Z.to_nat 10000.

(** [TimeSeriesLog.record] on a [deque(maxlen=capacity)]. *)
Definition record (log : list (Z * Q)) (time : Z) (value : Q) : list (Z * Q) :=
  let l := log ++ [(time, value)] in
  drop (length l - capacity)%nat l.

Definition should_sample (dc : CollectorState.t) (inst_executed : Z) : bool :=
  inst_executed - CollectorState.last_sample_inst dc >=? CollectorState.sample_interval dc.

Definition sample (s : Sim.t) : Sim.t :=
  let dc := Sim.data_collector s in
  let t := Sim.inst_executed s in
  let queue := Scheduler.queue (Sim.scheduler s) in
  let num_cells := Scheduler.num_cells (Sim.scheduler s) in
  let mean :=
    if num_cells >? 0 then (float_of_int (total_size s) / float_of_int num_cells)%Q
    else 0%Q in
  let max_fec :=
    if num_cells >? 0
    then foldr (fun c acc => match acc with
                             | None => Some (Demographics.fecundity (Sim.d s c))
                             | Some m => Some (Z.max (Demographics.fecundity (Sim.d s c)) m)
                             end) None queue
    else Some 0 in
  let ngen := match Sim.genebank s with
              | Some gb => GeneBank.num_genotypes gb
              | None => 0
              end in
  let fullness :=
    (100 * (1 - float_of_int (Soup.total_free (Sim.soup s))
                / float_of_int (Soup.size (Sim.soup s))))%Q in
  let histogram :=
    foldl (fun h c => let sz := MemRegion.size (Sim.mm s c) in
                      <[sz := default 0 (h !! sz) + 1]> h) ∅ queue in
  let frequency := match Sim.genebank s with
                   | Some gb => GeneBank.summary gb
                   | None => ∅
                   end in
  Sim.set_data_collector
    (CollectorState.mk (CollectorState.sample_interval dc) t
       (record (CollectorState.population_size dc) t (float_of_int num_cells))
       (record (CollectorState.mean_creature_size dc) t mean)
       (record (CollectorState.max_fitness dc) t (float_of_int (default 0 max_fec)))
       (record (CollectorState.num_genotypes dc) t (float_of_int ngen))
       (record (CollectorState.soup_fullness dc) t fullness)
       histogram frequency) s.

End DataCollector.

(** ** mutations.py *)
Definition NOP0 : Z := 0.
Definition NOP1 : Z := 1.

(** [value in (NOP0, NOP1)] *)
Definition is_nop (value : Z) : bool := (value =? NOP0) || (value =? NOP1).

Definition sim_read (s : Sim.t) (addr : Z) : Z := Soup.read (Sim.soup s) addr.

Definition sim_write (addr value : Z) (s : Sim.t) : Sim.t :=
  Sim.set_soup (Soup.write (Sim.soup s) addr value) s.

(** [soup.write(dst, soup.read(src))] *)
Definition sim_copy (dst src : Z) (s : Sim.t) : Sim.t :=
  sim_write dst (sim_read s src) s.

(** [for i in range(start, stop, -1)] with [n] iterations. *)
Fixpoint for_range_down (n : nat) (i : Z) (body : Z -> Sim.t -> Sim.t) (s : Sim.t) : Sim.t :=
  match n with
  | O => s
  | S n' => for_range_down n' (i - 1) body (body i s)
  end.

Module Mutations.

Definition rate_of (gen_per avg_size : Z) : Q :=
  if gen_per >? 0 then (1 / float_of_int (gen_per * avg_size))%Q else 0%Q.

Definition update_rates (avg_size num_cells : Z) (s : Sim.t) : Sim.t :=
  let avg_size := if avg_size <=? 0 then 80 else avg_size in
  let c := Sim.config s in
  Sim.set_config
    (Config.set_rates (rate_of (Config.gen_per_bkg_mut c) avg_size)
                      (rate_of (Config.gen_per_flaw c) avg_size)
                      (rate_of (Config.gen_per_mov_mut c) avg_size) c) s.

Definition _mutate_value (value : Z) : M Z :=
  r <- m_random ;;
  c <- get ;;
  if float_lt r (Config.mut_bit_prop (Sim.config c))
  then (b <- m_randint 0 4 ;; ret (Z.lxor value (Z.shiftl 1 b)))
  else m_randint 0 31.

Definition background_mutation : M unit :=
  s <- get ;;
  addr <- m_randint 0 (Config.soup_size (Sim.config s) - 1) ;;
  s <- get ;;
  value <- _mutate_value (sim_read s addr) ;;
  modify (sim_write addr value) ;;
  modify (Sim.emit (MUTATION addr "background")).

(** The common head of the eight operators: the switch and the draw. *)
Definition gated (gen_per : Z) (body : M unit) : M unit :=
  if gen_per <=? 0 then ret tt
  else
    let rate := (1 / float_of_int gen_per)%Q in
    r <- m_random ;;
    if float_ge r rate then ret tt else body.

(** [md = cell.md], which [genetic_ops] has checked. *)
Definition with_md (cell : CellId) (k : MemRegion.t -> Sim.t -> M unit) : M unit :=
  s <- get ;;
  match Sim.md s cell with
  | Some md => k md s
  | None => ret tt
  end.

Definition count_mutation (cell : CellId) : M unit :=
  modify (Sim.upd_d cell (fun d => Demographics.set_mutations (Demographics.mutations d + 1) d)).

Definition others (s : Sim.t) (cell : CellId) : list CellId :=
  filter (fun c => c ≠ cell) (Scheduler.queue (Sim.scheduler s)).

Definition _mutation_ops (cell : CellId) : M unit :=
  c <- get ;;
  gated (Config.gen_per_div_mut (Sim.config c))
    (with_md cell (fun md s =>
       let ss := Config.soup_size (Sim.config s) in
       offset <- m_randint 0 (MemRegion.size md - 1) ;;
       let addr := (MemRegion.pos md + offset) mod ss in
       s <- get ;;
       value <- _mutate_value (sim_read s addr) ;;
       modify (sim_write addr value) ;;
       count_mutation cell)).

Definition _find_same_size_mate (cell : CellId) : M (option CellId) :=
  s <- get ;;
  match Sim.md s cell with
  | None => ret None
  | Some md =>
    let candidates :=
      filter (fun c => MemRegion.size (Sim.mm s c) = MemRegion.size md) (others s cell) in
    match candidates with
    | [] => ret None
    | _ => (m <- m_choice candidates ;; ret (Some m))
    end
  end.

Definition _crossover_inst_same_size (cell : CellId) : M unit :=
  c <- get ;;
  gated (Config.gen_per_cro_ins_sam_siz (Sim.config c))
    (with_md cell (fun md s =>
       let ss := Config.soup_size (Sim.config s) in
       mate <- _find_same_size_mate cell ;;
       match mate with
       | None => ret tt
       | Some mate =>
         cross_point <- m_randint 1 (MemRegion.size md - 1) ;;
         s <- get ;;
         let mpos := MemRegion.pos (Sim.mm s mate) in
         modify (for_range (Z.to_nat (MemRegion.size md - cross_point)) cross_point
                   (fun i => sim_copy ((MemRegion.pos md + i) mod ss) ((mpos + i) mod ss))) ;;
         count_mutation cell
       end)).

Definition _crossover_inst (cell : CellId) : M unit :=
  c <- get ;;
  gated (Config.gen_per_cro_ins (Sim.config c))
    (with_md cell (fun md s =>
       let ss := Config.soup_size (Sim.config s) in
       if Scheduler.num_cells (Sim.scheduler s) <? 2 then ret tt
       else
         match others s cell with
         | [] => ret tt
         | candidates =>
           mate <- m_choice candidates ;;
           cross_d <- m_randint 1 (MemRegion.size md - 1) ;;
           s <- get ;;
           let mm := Sim.mm s mate in
           cross_m <- m_randint 1 (MemRegion.size mm - 1) ;;
           let tail_len := MemRegion.size mm - cross_m in
           let new_size := cross_d + tail_len in
           if (new_size <? Config.min_cell_size (Sim.config s))
              || (new_size >? MemRegion.size md)
           then ret tt
           else
             let write_len := Z.min tail_len (MemRegion.size md - cross_d) in
             modify (for_range (Z.to_nat write_len) 0
                       (fun i => sim_copy ((MemRegion.pos md + cross_d + i) mod ss)
                                          ((MemRegion.pos mm + cross_m + i) mod ss))) ;;
             count_mutation cell
         end)).

Definition _insertion_inst (cell : CellId) : M unit :=
  c <- get ;;
  gated (Config.gen_per_ins_ins (Sim.config c))
    (with_md cell (fun md s =>
       let ss := Config.soup_size (Sim.config s) in
       if MemRegion.size md <? 2 then ret tt
       else
         p <- m_randint 0 (MemRegion.size md - 1) ;;
         let addr := (MemRegion.pos md + p) mod ss in
         modify (for_range_down (Z.to_nat (MemRegion.size md - 1 - p)) (MemRegion.size md - 1)
                   (fun i => sim_copy ((MemRegion.pos md + i) mod ss)
                                      ((MemRegion.pos md + i - 1) mod ss))) ;;
         v <- m_randint 0 31 ;;
         modify (sim_write addr v) ;;
         count_mutation cell)).

Definition _deletion_inst (cell : CellId) : M unit :=
  c <- get ;;
  gated (Config.gen_per_del_ins (Sim.config c))
    (with_md cell (fun md s =>
       let ss := Config.soup_size (Sim.config s) in
       if MemRegion.size md <? Config.min_cell_size (Sim.config s) + 1 then ret tt
       else
         p <- m_randint 0 (MemRegion.size md - 1) ;;
         modify (for_range (Z.to_nat (MemRegion.size md - 1 - p)) p
                   (fun i => sim_copy ((MemRegion.pos md + i) mod ss)
                                      ((MemRegion.pos md + i + 1) mod ss))) ;;
         modify (sim_write ((MemRegion.pos md + MemRegion.size md - 1) mod ss) 0) ;;
         count_mutation cell)).

(** [_find_segments]: one pass over the offsets; [cur] is the segment being
    read by the inner [while], [acc] the segments already appended. *)
Fixpoint _find_segments_loop (n : nat) (i pos : Z) (s : Sim.t)
    (cur : option (Z * Z)) (acc : list (Z * Z)) : list (Z * Z) :=
  match n with
  | O => acc ++ option_list cur
  | S n' =>
    let addr := (pos + i) mod Config.soup_size (Sim.config s) in
    if is_nop (sim_read s addr)
    then _find_segments_loop n' (i + 1) pos s None (acc ++ option_list cur)
    else
      let cur' := match cur with
                  | None => (addr, 1)
                  | Some (seg_start, seg_len) => (seg_start, seg_len + 1)
                  end in
      _find_segments_loop n' (i + 1) pos s (Some cur') acc
  end.

Definition _find_segments (pos size : Z) (s : Sim.t) : list (Z * Z) :=
  _find_segments_loop (Z.to_nat size) 0 pos s None [].

Definition _crossover_seg (cell : CellId) : M unit :=
  c <- get ;;
  gated (Config.gen_per_cro_seg (Sim.config c))
    (with_md cell (fun md s =>
       let ss := Config.soup_size (Sim.config s) in
       match others s cell with
       | [] => ret tt
       | candidates =>
         mate <- m_choice candidates ;;
         s <- get ;;
         let mm := Sim.mm s mate in
         let d_segs := _find_segments (MemRegion.pos md) (MemRegion.size md) s in
         let m_segs := _find_segments (MemRegion.pos mm) (MemRegion.size mm) s in
         match d_segs, m_segs with
         | [], _ | _, [] => ret tt
         | _, _ =>
           d_seg <- m_choice d_segs ;;
           m_seg <- m_choice m_segs ;;
           let copy_len := Z.min d_seg.2 m_seg.2 in
           modify (for_range (Z.to_nat copy_len) 0
                     (fun i => sim_copy ((d_seg.1 + i) mod ss) ((m_seg.1 + i) mod ss))) ;;
           count_mutation cell
         end
       end)).

Definition _insertion_seg (cell : CellId) : M unit :=
  c <- get ;;
  gated (Config.gen_per_ins_seg (Sim.config c))
    (with_md cell (fun md s =>
       let ss := Config.soup_size (Sim.config s) in
       match _find_segments (MemRegion.pos md) (MemRegion.size md) s with
       | [] => ret tt
       | segs =>
         seg <- m_choice segs ;;
         let seg_len := seg.2 in
         insert_at <- m_randint 0 (MemRegion.size md - 1) ;;
         let shift_len := Z.min seg_len (MemRegion.size md - insert_at - 1) in
         if shift_len <=? 0 then ret tt
         else
           modify (for_range_down
                     (Z.to_nat (MemRegion.size md - 1 - (insert_at + shift_len - 1)))
                     (MemRegion.size md - 1)
                     (fun i => sim_copy ((MemRegion.pos md + i) mod ss)
                                        ((MemRegion.pos md + i - shift_len) mod ss))) ;;
           modify (for_range (Z.to_nat shift_len) 0
                     (fun i => sim_copy ((MemRegion.pos md + insert_at + i) mod ss)
                                        ((seg.1 + i) mod ss))) ;;
           count_mutation cell
       end)).

Definition _deletion_seg (cell : CellId) : M unit :=
  c <- get ;;
  gated (Config.gen_per_del_seg (Sim.config c))
    (with_md cell (fun md s =>
       let ss := Config.soup_size (Sim.config s) in
       match _find_segments (MemRegion.pos md) (MemRegion.size md) s with
       | [] => ret tt
       | segs =>
         seg <- m_choice segs ;;
         let seg_start_offset := (seg.1 - MemRegion.pos md) mod ss in
         let seg_len := seg.2 in
         let remaining := MemRegion.size md - seg_start_offset - seg_len in
         if (remaining <=? 0)
            || (MemRegion.size md - seg_len <? Config.min_cell_size (Sim.config s))
         then ret tt
         else
           modify (for_range (Z.to_nat remaining) 0
                     (fun i => sim_copy ((MemRegion.pos md + seg_start_offset + i) mod ss)
                                        ((MemRegion.pos md + seg_start_offset + seg_len + i) mod ss))) ;;
           modify (for_range (Z.to_nat seg_len) 0
                     (fun i => sim_write ((MemRegion.pos md + MemRegion.size md - seg_len + i) mod ss) 0)) ;;
           count_mutation cell
       end)).

Definition genetic_ops (cell : CellId) : M unit :=
  s <- get ;;
  match Sim.md s cell with
  | None => ret tt
  | Some _ =>
    _mutation_ops cell ;;
    _crossover_inst_same_size cell ;;
    _crossover_inst cell ;;
    _insertion_inst cell ;;
    _deletion_inst cell ;;
    _crossover_seg cell ;;
    _insertion_seg cell ;;
    _deletion_seg cell
  end.

End Mutations.

(** ** instructions.py *)
Module Instructions.

Definition _flaw : M Z :=
  s <- get ;;
  if Qle_bool (Config.rate_flaw (Sim.config s)) 0 then ret 0
  else
    r <- m_random ;;
    if float_lt r (Config.rate_flaw (Sim.config s)) then m_choice [-1; 1] else ret 0.

Definition _avg_cell_size (s : Sim.t) : Z :=
  match Scheduler.queue (Sim.scheduler s) with
  | [] => 80
  | q => total_size s / Z.of_nat (length q)
  end.

(** The first [while] of [_find_template]: the run of nops from [pos] on,
    cut at [soup_size] entries. *)
Fixpoint read_template (fuel : nat) (s : Sim.t) (pos : Z) (template : list Z) : list Z :=
  match fuel with
  | O => template
  | S fuel' =>
    if is_nop (sim_read s pos) then
      let template := template ++ [sim_read s pos] in
      let pos := (pos + 1) mod Config.soup_size (Sim.config s) in
      if Z.of_nat (length template) >=? Config.soup_size (Sim.config s) then template
      else read_template fuel' s pos template
    else template
  end.

Definition template_after (s : Sim.t) (ip : Z) : list Z :=
  let soup_size := Config.soup_size (Sim.config s) in
  read_template (Z.to_nat (Z.max 1 soup_size)) s ((ip + 1) mod soup_size) [].

Fixpoint _match_at_loop (s : Sim.t) (complement : list Z) (start j : Z) : bool :=
  match complement with
  | [] => true
  | c :: rest =>
    if sim_read s ((start + j) mod Config.soup_size (Sim.config s)) =? c
    then _match_at_loop s rest start (j + 1)
    else false
  end.

Definition _match_at (s : Sim.t) (complement : list Z) (start : Z) : bool :=
  _match_at_loop s complement start 0.

(** [int(search_limit * avg_size)] on two integers is their product. *)
Definition max_dist (s : Sim.t) : Z :=
  let avg_size := _avg_cell_size s in
  if avg_size >? 0 then Config.search_limit (Sim.config s) * avg_size
  else Config.soup_size (Sim.config s).

Inductive Direction := Outward | Forward | Backward.

(** The addresses [check] visited by the search loops, in order. *)
Definition checks (s : Sim.t) (ip tlen : Z) (direction : Direction) : list Z :=
  let soup_size := Config.soup_size (Sim.config s) in
  let search_start := (ip + 1 + tlen) mod soup_size in
  let dists := seqZ 1 (max_dist s) in
  match direction with
  | Forward => (fun dist => (search_start + dist) mod soup_size) <$> dists
  | Backward => (fun dist => (ip - dist) mod soup_size) <$> dists
  | Outward =>
    dists ≫= (fun dist => [(search_start + dist) mod soup_size; (ip - dist) mod soup_size])
  end.

Definition _find_template (s : Sim.t) (ip : Z) (direction : Direction) : Z * Z :=
  let soup_size := Config.soup_size (Sim.config s) in
  let template := template_after s ip in
  match template with
  | [] => (-1, 0)
  | _ =>
    let tlen := Z.of_nat (length template) in
    let complement := (fun bit => 1 - bit) <$> template in
    match List.find (_match_at s complement) (checks s ip tlen direction) with
    | Some check => ((check + tlen) mod soup_size, tlen)
    | None => (-1, tlen)
    end
  end.

(** The [while] of [_skip_template] has no bound: in a soup that holds
    nothing but nops it does not end, which [None] reports. *)
Fixpoint _skip_template_loop (fuel : nat) (s : Sim.t) (pos : Z) : option Z :=
  if is_nop (sim_read s pos) then
    match fuel with
    | O => None
    | S fuel' => _skip_template_loop fuel' s ((pos + 1) mod Config.soup_size (Sim.config s))
    end
  else Some pos.

Definition _skip_template (cell : CellId) : M unit := fun s =>
  let soup_size := Config.soup_size (Sim.config s) in
  let pos := (CPU.ip (Sim.cpu s cell) + 1) mod soup_size in
  match _skip_template_loop (Z.to_nat soup_size) s pos with
  | Some pos => Ok tt (Sim.upd_cpu cell (CPU.set_ip ((pos - 1) mod soup_size)) s)
  | None => Raise Hang s
  end.

Definition set_e (cell : CellId) (v : bool) : M unit :=
  modify (Sim.upd_cpu cell (CPU.set_flag_e v)).

(** [nop0], [nop1] *)
Definition nop (cell : CellId) : M unit := ret tt.

Definition not0 (cell : CellId) : M unit :=
  s <- get ;;
  f <- _flaw ;;
  let v := Z.lxor (CPU.cx (Sim.cpu s cell)) (1 + f) in
  modify (Sim.upd_cpu cell (fun c => CPU.set_flags v (CPU.set_cx v c))).

Definition shl (cell : CellId) : M unit :=
  s <- get ;;
  f <- _flaw ;;
  let v := Z.shiftl (CPU.cx (Sim.cpu s cell)) (1 + f) in
  modify (Sim.upd_cpu cell (fun c => CPU.set_flags v (CPU.set_cx v c))).

Definition zero (cell : CellId) : M unit :=
  f <- _flaw ;;
  let v := 0 + f in
  modify (Sim.upd_cpu cell (fun c => CPU.set_flags v (CPU.set_cx v c))).

Definition ifz (cell : CellId) : M unit :=
  s <- get ;;
  if negb (CPU.cx (Sim.cpu s cell) =? 0)
  then modify (Sim.upd_cpu cell
                 (CPU.set_ip ((CPU.ip (Sim.cpu s cell) + 1) mod Config.soup_size (Sim.config s))))
  else ret tt.

Definition sub_cab (cell : CellId) : M unit :=
  s <- get ;;
  f <- _flaw ;;
  let v := CPU.ax (Sim.cpu s cell) - CPU.bx (Sim.cpu s cell) + f in
  modify (Sim.upd_cpu cell (fun c => CPU.set_flags v (CPU.set_cx v c))).

Definition sub_aac (cell : CellId) : M unit :=
  s <- get ;;
  f <- _flaw ;;
  let v := CPU.ax (Sim.cpu s cell) - CPU.cx (Sim.cpu s cell) + f in
  modify (Sim.upd_cpu cell (fun c => CPU.set_flags v (CPU.set_ax v c))).

Definition inc_a (cell : CellId) : M unit :=
  s <- get ;;
  f <- _flaw ;;
  let v := CPU.ax (Sim.cpu s cell) + (1 + f) in
  modify (Sim.upd_cpu cell (fun c => CPU.set_flags v (CPU.set_ax v c))).

Definition inc_b (cell : CellId) : M unit :=
  s <- get ;;
  f <- _flaw ;;
  let v := CPU.bx (Sim.cpu s cell) + (1 + f) in
  modify (Sim.upd_cpu cell (fun c => CPU.set_flags v (CPU.set_bx v c))).

Definition dec_c (cell : CellId) : M unit :=
  s <- get ;;
  f <- _flaw ;;
  let v := CPU.cx (Sim.cpu s cell) - (1 + f) in
  modify (Sim.upd_cpu cell (fun c => CPU.set_flags v (CPU.set_cx v c))).

Definition inc_c (cell : CellId) : M unit :=
  s <- get ;;
  f <- _flaw ;;
  let v := CPU.cx (Sim.cpu s cell) + (1 + f) in
  modify (Sim.upd_cpu cell (fun c => CPU.set_flags v (CPU.set_cx v c))).

Definition push_reg (reg : CPU.t -> Z) (cell : CellId) : M unit :=
  s <- get ;;
  f <- _flaw ;;
  modify (Sim.upd_cpu cell (CPU.push (reg (Sim.cpu s cell) + f))).

Definition push_a := push_reg CPU.ax.
Definition push_b := push_reg CPU.bx.
Definition push_c := push_reg CPU.cx.
Definition push_d := push_reg CPU.dx.

Definition pop_reg (set : Z -> CPU.t -> CPU.t) (cell : CellId) : M unit :=
  s <- get ;;
  let '(value, cpu') := CPU.pop (Sim.cpu s cell) in
  modify (Sim.upd_cpu cell (fun _ => cpu')) ;;
  f <- _flaw ;;
  modify (Sim.upd_cpu cell (set (value + f))).

Definition pop_a := pop_reg CPU.set_ax.
Definition pop_b := pop_reg CPU.set_bx.
Definition pop_c := pop_reg CPU.set_cx.
Definition pop_d := pop_reg CPU.set_dx.

(** The shared shape of [jmpo] and [jmpb]. *)
Definition jump (direction : Direction) (cell : CellId) : M unit :=
  s <- get ;;
  let soup_size := Config.soup_size (Sim.config s) in
  let '(addr, tlen) := _find_template s (CPU.ip (Sim.cpu s cell)) direction in
  if addr >=? 0 then
    modify (Sim.upd_cpu cell (fun c =>
      CPU.set_flag_e false (CPU.set_ip_modified true (CPU.set_ip (addr mod soup_size) c))))
  else
    set_e cell true ;;
    if tlen >? 0 then _skip_template cell else ret tt.

Definition jmpo := jump Outward.
Definition jmpb := jump Backward.

Definition call (cell : CellId) : M unit :=
  s <- get ;;
  let soup_size := Config.soup_size (Sim.config s) in
  let '(addr, tlen) := _find_template s (CPU.ip (Sim.cpu s cell)) Outward in
  if addr >=? 0 then
    let ret_addr := (CPU.ip (Sim.cpu s cell) + 1 + tlen) mod soup_size in
    modify (Sim.upd_cpu cell (fun c =>
      CPU.set_flag_e false (CPU.set_ip_modified true
        (CPU.set_ip (addr mod soup_size) (CPU.push ret_addr c)))))
  else
    set_e cell true ;;
    if tlen >? 0 then _skip_template cell else ret tt.

Definition ret_ (cell : CellId) : M unit :=
  s <- get ;;
  let '(value, cpu') := CPU.pop (Sim.cpu s cell) in
  modify (Sim.upd_cpu cell (fun _ => cpu')) ;;
  f <- _flaw ;;
  let addr := value + f in
  modify (Sim.upd_cpu cell (fun c =>
    CPU.set_ip_modified true (CPU.set_ip (addr mod Config.soup_size (Sim.config s)) c))).

Definition mov_dc (cell : CellId) : M unit :=
  s <- get ;;
  f <- _flaw ;;
  let v := CPU.cx (Sim.cpu s cell) + f in
  modify (Sim.upd_cpu cell (fun c => CPU.set_flags v (CPU.set_dx v c))).

Definition mov_ba (cell : CellId) : M unit :=
  s <- get ;;
  f <- _flaw ;;
  let v := CPU.ax (Sim.cpu s cell) + f in
  modify (Sim.upd_cpu cell (fun c => CPU.set_flags v (CPU.set_bx v c))).

Definition movii (cell : CellId) : M unit :=
  s <- get ;;
  let config := Sim.config s in
  let src_addr := CPU.bx (Sim.cpu s cell) in
  let dst_addr := CPU.ax (Sim.cpu s cell) in
  if negb (Cell.owns_daughter (Sim.cell s cell) dst_addr (Config.soup_size config))
  then set_e cell true
  else if negb (Soup.check_write (Sim.soup s) dst_addr cell config)
  then set_e cell true
  else
    let value := sim_read s src_addr in
    value <-
      (if negb (Qle_bool (Config.rate_mov_mut config) 0) then
         r <- m_random ;;
         if float_lt r (Config.rate_mov_mut config) then
           r2 <- m_random ;;
           v <- (if float_lt r2 (Config.mut_bit_prop config)
                 then (b <- m_randint 0 4 ;; ret (Z.lxor value (Z.shiftl 1 b)))
                 else m_randint 0 31) ;;
           Mutations.count_mutation cell ;;
           ret v
         else ret value
       else ret value) ;;
    modify (sim_write dst_addr value) ;;
    modify (Sim.upd_d cell (fun d =>
      Demographics.set_mov_daught (Demographics.mov_daught d + 1) d)) ;;
    let md_pos := match Sim.md s cell with Some md => MemRegion.pos md | None => 0 end in
    let offset := (dst_addr - md_pos) mod Config.soup_size config in
    modify (Sim.upd_d cell (fun d =>
      Demographics.set_mov_off_max (Z.max (Demographics.mov_off_max d) offset)
        (Demographics.set_mov_off_min (Z.min (Demographics.mov_off_min d) offset) d))) ;;
    set_e cell false.

(** The shared shape of [adro], [adrb] and [adrf]. *)
Definition adr (direction : Direction) (cell : CellId) : M unit :=
  s <- get ;;
  let soup_size := Config.soup_size (Sim.config s) in
  let '(addr, tlen) := _find_template s (CPU.ip (Sim.cpu s cell)) direction in
  (if addr >=? 0 then
     modify (Sim.upd_cpu cell (fun c =>
       CPU.set_flag_e false (CPU.set_cx tlen (CPU.set_ax (addr mod soup_size) c))))
   else set_e cell true) ;;
  if tlen >? 0 then _skip_template cell else ret tt.

Definition adro := adr Outward.
Definition adrb := adr Backward.
Definition adrf := adr Forward.

(** [sim.soup.allocate(size, sim.config.mal_mode)] *)
Definition m_allocate (size : Z) : M (option (Z * Z)) := fun s =>
  let '(result, soup', g) :=
    Soup.allocate (Sim.soup s) size (Config.mal_mode (Sim.config s)) (-1) (-1) (Sim.rng s) in
  Ok result (Sim.set_rng g (Sim.set_soup soup' s)).

Definition mal (cell : CellId) : M unit :=
  s <- get ;;
  let size := CPU.cx (Sim.cpu s cell) in
  if (size <? Config.min_cell_size (Sim.config s))
     || (size >? MemRegion.size (Sim.mm s cell) * 2)
  then set_e cell true
  else
    (* Deallocate existing daughter if present *)
    match Sim.md s cell with
    | Some md =>
      modify (fun s => Sim.upd_cell cell (Cell.set_md None)
        (Sim.set_soup (Soup.deallocate (Sim.soup s) (MemRegion.pos md) (MemRegion.size md)) s))
    | None => ret tt
    end ;;
    (* Try to allocate *)
    result <- m_allocate size ;;
    result <-
      match result with
      | None =>
        (* Soup full: reap a cell and retry *)
        s <- get ;;
        match Sim.reaper s with
        | Some _ => Reaper.reap (-1) ;; m_allocate size
        | None => ret None
        end
      | Some r => ret (Some r)
      end ;;
    match result with
    | None => set_e cell true
    | Some (addr, actual_size) =>
      modify (Sim.upd_cell cell (Cell.set_md (Some (MemRegion.mk addr actual_size)))) ;;
      modify (Sim.upd_cpu cell (CPU.set_ax addr)) ;;
      modify (Sim.upd_d cell (fun d =>
        Demographics.set_mov_daught 0
          (Demographics.set_mov_off_max 0 (Demographics.set_mov_off_min actual_size d)))) ;;
      set_e cell false
    end.

Definition divide (cell : CellId) : M unit :=
  s <- get ;;
  match Sim.md s cell with
  | None => set_e cell true
  | Some md =>
    (* Validate daughter size *)
    if MemRegion.size md <? Config.min_cell_size (Sim.config s) then set_e cell true
    else
      (* Validate copy threshold *)
      let thresh := int_of_float (float_of_int (MemRegion.size md)
                                  * Config.mov_prop_thr_div (Sim.config s))%Q in
      if Demographics.mov_daught (Sim.d s cell) <? thresh then set_e cell true
      (* Validate same size if required *)
      else if negb (Config.div_same_siz (Sim.config s) =? 0)
              && negb (MemRegion.size md =? MemRegion.size (Sim.mm s cell))
      then set_e cell true
      else
        (* Apply genetic operators to daughter *)
        (if Sim.mutations s then Mutations.genetic_ops cell else ret tt) ;;
        (* Create new cell *)
        s <- get ;;
        let daughter : CellId := length (Sim.cells s) in
        let dcell :=
          Cell.set_d (Demographics.set_birth_time (Sim.inst_executed s)
                        (Demographics.set_parent_genotype
                           (Demographics.genotype (Sim.d s cell)) Demographics.init))
            (Cell.set_cpu (CPU.set_ip (MemRegion.pos md) CPU.init)
               (Cell.init (MemRegion.pos md) (MemRegion.size md))) in
        modify (Sim.set_cells (Sim.cells s ++ [dcell])) ;;
        (* Register in genebank *)
        match Sim.genebank s with
        | Some gb =>
          let '(gt, gb', dcell') := GeneBank.register gb dcell (Sim.soup s) in
          modify (fun s => Sim.upd_cell daughter (fun _ => dcell')
                             (Sim.set_genebank (Some gb') s)) ;;
          if match GeneBank.arena gb' !! gt with
             | Some g => Genotype.population g =? 1
             | None => false
             end
          then modify (Sim.emit (NEW_GENOTYPE gt))
          else ret tt
        | None => ret tt
        end ;;
        (* Add to scheduler and reaper *)
        modify (fun s => Sim.set_scheduler (Scheduler.add (Sim.scheduler s) daughter) s) ;;
        modify (fun s => Sim.set_soup (Soup.add_owner (Sim.soup s) daughter (Sim.mm s daughter)) s) ;;
        modify (fun s => Reaper.add s daughter) ;;
        (* Emit birth event *)
        modify (Sim.emit (CELL_BORN daughter cell)) ;;
        modify (fun s => Sim.set_last_repro_inst (Sim.inst_executed s) s) ;;
        (* Reset mother state *)
        modify (Sim.upd_cell cell (Cell.set_md None)) ;;
        modify (Sim.upd_d cell (fun d =>
          Demographics.set_rep_inst 0
            (Demographics.set_mov_off_max 0
               (Demographics.set_mov_off_min 0
                  (Demographics.set_mov_daught 0
                     (Demographics.set_fecundity (Demographics.fecundity d + 1) d)))))) ;;
        set_e cell false
  end.

(** The dispatch table [INSTRUCTIONS], indexed by [opcode]. *)
Definition INSTRUCTIONS (opcode : Z) : CellId -> M unit :=
  match opcode with
  | 0 => nop | 1 => nop | 2 => not0 | 3 => shl | 4 => zero | 5 => ifz
  | 6 => sub_cab | 7 => sub_aac | 8 => inc_a | 9 => inc_b | 10 => dec_c
  | 11 => inc_c | 12 => push_a | 13 => push_b | 14 => push_c | 15 => push_d
  | 16 => pop_a | 17 => pop_b | 18 => pop_c | 19 => pop_d
  | 20 => jmpo | 21 => jmpb | 22 => call | 23 => ret_
  | 24 => mov_dc | 25 => mov_ba | 26 => movii
  | 27 => adro | 28 => adrb | 29 => adrf | 30 => mal | 31 => divide
  | _ => nop
  end.

End Instructions.

(** ** simulation.py *)
Module Simulation.

(** [Simulation(config)].  [ambient] is the state of the process-wide
    generator of the [random] module when the constructor runs: it is
    replaced by [random.seed(config.seed)] only for a nonzero seed. *)
Definition init (ambient : Random.t) (config : Config.t) : Sim.t :=
  let rng := if negb (Config.seed config =? 0) then Random.seed (Config.seed config)
             else ambient in
  Sim.mk config (Soup.init (Config.soup_size config)) Scheduler.init
    (Some (ReaperState.mk [])) (Some GeneBank.init) true []
    CollectorState.init 0 0 0 0 0 0 [] rng.

Definition _schedule_next_disturbance (avg_size : Z) (s : Sim.t) : Sim.t :=
  let freq := Config.dist_freq (Sim.config s) in
  if Qeq_bool freq 0 || (avg_size <=? 0) then Sim.set_next_disturbance_inst 0 s
  else
    let interval :=
      if float_lt freq 0
      then int_of_float (Qabs freq * float_of_int (Config.soup_size (Sim.config s)))%Q
      else int_of_float (freq * float_of_int avg_size)%Q in
    if interval <=? 0 then Sim.set_next_disturbance_inst 0 s
    else Sim.set_next_disturbance_inst (Sim.inst_executed s + interval) s.

(** [boot]: the genome is the list of opcodes that [load_genome] returns. *)
Definition boot (genome : list Z) : M unit := fun s =>
  let len := Z.of_nat (length genome) in
  let pos := Config.soup_size (Sim.config s) / 2 - len / 2 in
  match Soup.write_block (Sim.soup s) pos genome with
  | None => Raise ValueError s
  | Some soup1 =>
    let soup2 := (Soup.allocate_at soup1 pos len).2 in
    let s := Sim.set_soup soup2 s in
    let cell : CellId := length (Sim.cells s) in
    let c := Cell.set_d (Demographics.set_birth_time 0
                           (Demographics.set_parent_genotype "0666god" Demographics.init))
               (Cell.set_cpu (CPU.set_ip pos CPU.init) (Cell.init pos len)) in
    let s := Sim.set_cells (Sim.cells s ++ [c]) s in
    let s := Sim.set_scheduler (Scheduler.add (Sim.scheduler s) cell) s in
    let s := Sim.set_soup (Soup.add_owner (Sim.soup s) cell (Sim.mm s cell)) s in
    let s := Reaper.add s cell in
    let s :=
      match Sim.genebank s with
      | Some gb =>
        let '(_, gb', c') := GeneBank.register gb (Sim.cell s cell) (Sim.soup s) in
        Sim.upd_cell cell (fun _ => c') (Sim.set_genebank (Some gb') s)
      | None => s
      end in
    (* Initial mutation rate calculation *)
    let s := if Sim.mutations s then Mutations.update_rates len 1 s else s in
    (* Schedule first disturbance *)
    Ok tt (_schedule_next_disturbance len s)
  end.

Definition avg_size_or_80 (s : Sim.t) : Z :=
  if Scheduler.num_cells (Sim.scheduler s) >? 0
  then total_size s / Scheduler.num_cells (Sim.scheduler s)
  else 80.

Definition _do_disturbance (s : Sim.t) : Sim.t :=
  match Sim.reaper s with
  | Some _ =>
    if negb (Qeq_bool (Config.dist_freq (Sim.config s)) 0) then
      let '(killed, s) := Reaper.disturbance s in
      _schedule_next_disturbance (avg_size_or_80 s) s
    else s
  | None => s
  end.

(** The writing of genome files is outside the runtime; what remains of
    [_save_genotypes_to_disk] is the update of [_last_save_inst]. *)
Definition _save_genotypes_to_disk (s : Sim.t) : Sim.t :=
  match Sim.genebank s with
  | None => s
  | Some _ =>
    if Config.disk_bank (Sim.config s) =? 0 then s
    else if Config.save_freq (Sim.config s) <=? 0 then s
    else
      let save_threshold_inst := Config.save_freq (Sim.config s) * 1000000 in
      if Sim.inst_executed s - Sim.last_save_inst s <? save_threshold_inst then s
      else Sim.set_last_save_inst (Sim.inst_executed s) s
  end.

Definition _periodic_bookkeeping (s : Sim.t) : Sim.t :=
  let s :=
    if Sim.mutations s && (Scheduler.num_cells (Sim.scheduler s) >? 0)
    then Mutations.update_rates (total_size s / Scheduler.num_cells (Sim.scheduler s))
           (Scheduler.num_cells (Sim.scheduler s)) s
    else s in
  _save_genotypes_to_disk s.

Definition tally (cell : CellId) (s : Sim.t) : Sim.t :=
  let s := Sim.upd_d cell (fun d =>
             Demographics.set_rep_inst (Demographics.rep_inst d + 1)
               (Demographics.set_inst_executed (Demographics.inst_executed d + 1) d)) s in
  Sim.set_inst_executed (Sim.inst_executed s + 1) s.

(** One iteration of the [for] of [run_slice], after the [alive] test. *)
Definition step (cell : CellId) : M unit :=
  s <- get ;;
  let soup_size := Config.soup_size (Sim.config s) in
  (* Memory protection: execute check *)
  if negb (Soup.check_execute (Sim.soup s) (CPU.ip (Sim.cpu s cell)) cell (Sim.config s)) then
    modify (Sim.upd_cpu cell (fun c =>
      CPU.set_ip ((CPU.ip c + 1) mod soup_size) (CPU.set_flag_e true c))) ;;
    modify (tally cell)
  else
    let opcode := sim_read s (CPU.ip (Sim.cpu s cell)) mod 32 in
    modify (Sim.upd_cpu cell (CPU.set_ip_modified false)) ;;
    Instructions.INSTRUCTIONS opcode cell ;;
    modify (Sim.upd_cpu cell (fun c =>
      if negb (CPU.ip_modified c) then CPU.set_ip ((CPU.ip c + 1) mod soup_size) c else c)) ;;
    modify (tally cell) ;;
    (* Background mutation check *)
    s <- get ;;
    (if negb (Qle_bool (Config.rate_mut (Sim.config s)) 0) then
       r <- m_random ;;
       if float_lt r (Config.rate_mut (Sim.config s)) then
         if Sim.mutations s then Mutations.background_mutation else ret tt
       else ret tt
     else ret tt) ;;
    (* Disturbance check *)
    s <- get ;;
    if (Sim.next_disturbance_inst s >? 0)
       && (Sim.inst_executed s >=? Sim.next_disturbance_inst s)
    then modify _do_disturbance
    else ret tt.

Fixpoint run_slice_loop (n : nat) (cell : CellId) : M unit :=
  match n with
  | O => ret tt
  | S n' =>
    s <- get ;;
    if negb (Cell.alive (Sim.cell s cell)) then ret tt
    else step cell ;; run_slice_loop n' cell
  end.

Definition run_slice (cell : CellId) : M unit :=
  s <- get ;;
  let '(slice_size, g) :=
    Scheduler.compute_slice_size (Sim.config s) (Sim.cell s cell) (Sim.rng s) in
  match slice_size with
  | None => raise ValueError
  | Some slice_size =>
    modify (Sim.set_rng g) ;;
    run_slice_loop (Z.to_nat slice_size) cell ;;
    (* Lazy check: only at end of slice, not per-instruction *)
    s <- get ;;
    match Sim.reaper s with
    | Some _ => modify (fun s => (Reaper.check_lazy cell s).2)
    | None => ret tt
    end
  end.

(** The [while] of [run]; [fuel] bounds the number of slices, and a run
    that is cut off by it is reported as [Hang]. *)
Fixpoint run_loop (fuel : nat) (max_instructions report_interval : Z) : M unit :=
  s <- get ;;
  if (max_instructions =? 0) || (Sim.inst_executed s <? max_instructions) then
    match fuel with
    | O => raise Hang
    | S fuel' =>
      let '(cell, sched) := Scheduler.current (Sim.scheduler s) in
      modify (Sim.set_scheduler sched) ;;
      match cell with
      | None => ret tt
      | Some cell =>
        run_slice cell ;;
        modify (fun s => Sim.set_scheduler (Scheduler.advance (Sim.scheduler s)) s) ;;
        modify (fun s => Sim.set_slicer_cycles (Sim.slicer_cycles s + 1) s) ;;
        (* Data collection *)
        modify (fun s => if DataCollector.should_sample (Sim.data_collector s) (Sim.inst_executed s)
                         then DataCollector.sample s else s) ;;
        (* Periodic bookkeeping *)
        s <- get ;;
        if Sim.inst_executed s - Sim.last_report_inst s >=? report_interval then
          modify _periodic_bookkeeping ;;
          modify (fun s => Sim.set_last_report_inst (Sim.inst_executed s) s) ;;
          s <- get ;;
          (* Check drop_dead *)
          if (Config.drop_dead (Sim.config s) >? 0)
             && (Sim.inst_executed s - Sim.last_repro_inst s
                 >? Config.drop_dead (Sim.config s) * 1000000)
          then ret tt
          else run_loop fuel' max_instructions report_interval
        else run_loop fuel' max_instructions report_interval
      end
    end
  else ret tt.

Definition run (fuel : nat) (max_instructions report_interval : Z) : M unit :=
  modify (Sim.set_last_report_inst 0) ;;
  run_loop fuel max_instructions report_interval.


End Simulation.

(** * Properties: the vocabulary of the statements *)

(** ** Outcomes of a run *)
Definition state_of {A} (r : Res A) : Sim.t :=
  match r with
  | Ok _ s => s
  | Raise _ s => s
  end.

Definition returned {A} (r : Res A) : bool :=
  match r with
  | Ok _ _ => true
  | Raise _ _ => false
  end.

(** ** Allocator *)

(** A well-formed free list: sorted by position, pairwise disjoint, no two
    blocks contiguous, every block non-empty and inside the soup.
    [prev_end] is the end of the block before. *)
Fixpoint gapped (prev_end : Z) (blocks : list (Z * Z)) (limit : Z) : Prop :=
  match blocks with
  | [] => True
  | (p, sz) :: rest => prev_end < p /\ 0 < sz /\ p + sz <= limit /\ gapped (p + sz) rest limit
  end.

Definition free_list_wf (s : Soup.t) : Prop :=
  gapped (-1) (Soup.free_blocks s) (Soup.size s).

(** The address [a] lies in the interval [r], taken modulo the soup size. *)
Definition covers (soup_size : Z) (r : Z * Z) (a : Z) : bool :=
  (a - r.1) mod soup_size <? r.2.

Definition region_pair (r : MemRegion.t) : Z * Z := (MemRegion.pos r, MemRegion.size r).

(** How many intervals of [l] hold the address [a]. *)
Definition covering (soup_size : Z) (l : list (Z * Z)) (a : Z) : nat :=
  length (List.filter (fun r => covers soup_size r a) l).

(** The mother interval and the daughter interval of a creature that is
    alive. *)
Definition cell_intervals (c : Cell.t) : list (Z * Z) :=
  if Cell.alive c
  then region_pair (Cell.mm c) :: option_list (region_pair <$> Cell.md c)
  else [].

Definition alive_cells (s : Sim.t) : list Cell.t := List.filter Cell.alive (Sim.cells s).

(** The free intervals, the mother intervals and the daughter intervals of
    the creatures that are alive. *)
Definition intervals (s : Sim.t) : list (Z * Z) :=
  Soup.free_blocks (Sim.soup s) ++ (Sim.cells s ≫= cell_intervals).

Definition cover_count (s : Sim.t) (a : Z) : nat :=
  covering (Soup.size (Sim.soup s)) (intervals s) a.

(** The intervals partition the address space: every address lies in
    exactly one of them, so that no two of them overlap and none is
    missing. *)
Definition partition_ok (s : Sim.t) : bool :=
  forallb (fun a => Nat.eqb (cover_count s a) 1) (seqZ 0 (Soup.size (Sim.soup s))).

(** A block of the soup: non-empty and inside [0, soup_size). *)
Definition block_ok (soup_size : Z) (r : Z * Z) : Prop :=
  0 <= r.1 /\ 0 < r.2 /\ r.1 + r.2 <= soup_size.

(** The [k]-th block of [blocks], counted from [i0], has room for [size]
    bytes. *)
Definition fits (blocks : list (Z * Z)) (i0 : nat) (size : Z) (i : nat) : Prop :=
  exists k b, i = (i0 + k)%nat /\ blocks !! k = Some b /\ size <= b.2.

(** The creature [w] exists and is alive. *)
Definition is_alive (s : Sim.t) (w : CellId) : Prop :=
  exists c, Sim.cells s !! w = Some c /\ Cell.alive c = true.

(** The invariant behind the partition: the blocks of the free list and the
    regions of the creatures that are alive are blocks of the soup, every
    address lies in exactly one of them, and the reaper's queue lists
    creatures that are alive, each once. *)
Record partition_inv (s : Sim.t) : Prop := {
  inv_size : 0 < Soup.size (Sim.soup s);
  inv_min_cell_size : 0 < Config.min_cell_size (Sim.config s);
  inv_blocks : Forall (block_ok (Soup.size (Sim.soup s))) (intervals s);
  inv_cover : forall a, 0 <= a < Soup.size (Sim.soup s) -> cover_count s a = 1%nat;
  inv_queue_alive : forall v, v ∈ Sim.reaper_queue s -> is_alive s v;
  inv_queue_nodup : NoDup (Sim.reaper_queue s)
}.

(** What the invariant reads of a creature, and of the state. *)
Definition regions (c : Cell.t) : MemRegion.t * option MemRegion.t * bool :=
  (Cell.mm c, Cell.md c, Cell.alive c).

Definition shape (s : Sim.t) :=
  (Soup.size (Sim.soup s), Soup.free_blocks (Sim.soup s), regions <$> Sim.cells s,
   Sim.reaper_queue s, Config.min_cell_size (Sim.config s)).

(** The creatures alive in [s'] were alive in [s], with the same regions. *)
Definition survivors (s s' : Sim.t) : Prop :=
  forall w c', Sim.cells s' !! w = Some c' -> Cell.alive c' = true ->
    exists c, Sim.cells s !! w = Some c /\ regions c = regions c'.

(** [s'] is a later state than [s]: no creature has left the arena, and no
    creature of [s] has come back to life. *)
Definition later (s s' : Sim.t) : Prop :=
  (length (Sim.cells s) <= length (Sim.cells s'))%nat
  /\ forall w, (w < length (Sim.cells s))%nat -> is_alive s' w -> is_alive s w.

(** What the reaper does to a state: the arena keeps its length, the
    creatures still alive are untouched, and the invariant is kept. *)
Definition reaps (s s' : Sim.t) : Prop :=
  length (Sim.cells s') = length (Sim.cells s)
  /\ survivors s s'
  /\ (partition_inv s -> partition_inv s').

(** A computation that leaves the shape alone, however it ends. *)
Definition frames {A} (m : M A) : Prop :=
  forall s, shape (state_of (m s)) = shape s.

(** A computation that keeps the invariant, however it ends. *)
Definition keeps {A} (m : M A) : Prop :=
  forall s, later s (state_of (m s))
            /\ (partition_inv s -> partition_inv (state_of (m s))).

(** A computation run for the creature [cell] that keeps the invariant
    whenever [cell] is alive before it and still alive after it. *)
Definition keeps_for (cell : CellId) {A} (m : M A) : Prop :=
  forall s, later s (state_of (m s))
            /\ (partition_inv s -> is_alive s cell -> is_alive (state_of (m s)) cell ->
                partition_inv (state_of (m s))).

(** The states reached from [boot] by the operations of the run loop: an
    instruction executed by a creature that is alive and lives through it,
    the lazy check on a creature that is alive, a call of the reaper, a
    disturbance, and whatever leaves the shape alone (the bookkeeping of
    the loop). *)
Inductive reached : Sim.t -> Prop :=
| reached_boot ambient config genome s :
    0 < Config.min_cell_size config ->
    0 < Z.of_nat (length genome) <= Config.soup_size config ->
    Simulation.boot genome (Simulation.init ambient config) = Ok tt s ->
    reached s
| reached_step cell s :
    reached s -> is_alive s cell ->
    is_alive (state_of (Simulation.step cell s)) cell ->
    reached (state_of (Simulation.step cell s))
| reached_check_lazy cell s :
    reached s -> is_alive s cell -> reached (Reaper.check_lazy cell s).2
| reached_reap addr s :
    reached s -> reached (state_of (Reaper.reap addr s))
| reached_disturbance s :
    reached s -> reached (Reaper.disturbance s).2
| reached_frame s s' :
    reached s -> shape s' = shape s -> reached s'.

(** ** Scheduler *)
Inductive SchedOp :=
| OpAdd (cell : CellId)
| OpRemove (cell : CellId)
| OpAdvance
| OpCurrent.

Definition sched_apply (s : Scheduler.t) (op : SchedOp) : Scheduler.t :=
  match op with
  | OpAdd c => Scheduler.add s c
  | OpRemove c => Scheduler.remove s c
  | OpAdvance => Scheduler.advance s
  | OpCurrent => (Scheduler.current s).2
  end.

(** The scheduler after a sequence of operations on a fresh one. *)
Definition sched_after (ops : list SchedOp) : Scheduler.t :=
  foldl sched_apply Scheduler.init ops.

(** ** Division *)


(** ** Template search *)

(** The complement of [template] stands at address [a]. *)
Definition complement_at (s : Sim.t) (template : list Z) (a : Z) : Prop :=
  forall (j : nat) (bit : Z), template !! j = Some bit ->
    sim_read s ((a + Z.of_nat j) mod Config.soup_size (Sim.config s)) = 1 - bit.

(** ** Genebank *)



Definition mother_bytes (cell : Cell.t) (soup : Soup.t) : list Z :=
  Soup.read_block soup (MemRegion.pos (Cell.mm cell)) (MemRegion.size (Cell.mm cell)).

Definition size_class_of (gb : GeneBank.t) (cell : Cell.t) : SizeClass.t :=
  default SizeClass.init (GeneBank.size_classes gb !! MemRegion.size (Cell.mm cell)).

(** The genotype that [register] mints for a new hash. *)
Definition minted (gb : GeneBank.t) (cell : Cell.t) (soup : Soup.t) : Genotype.t :=
  Genotype.mk
    (SizeClass.fmt_04d (MemRegion.size (Cell.mm cell))
     +:+ SizeClass._int_to_label (SizeClass.next_label (size_class_of gb cell)))
    (mother_bytes cell soup) 0 0 0 (Demographics.parent_genotype (Cell.d cell)).




(** * Fixtures *)

(** A configuration without mutation and without slice variation; the
    other fields are the defaults. *)
Definition test_config (soup_size slice_size lazy_tol gen_per_bkg_mut seed : Z) : Config.t := {|
  Config.soup_size := soup_size;
  Config.slice_size := slice_size; Config.siz_dep_slice := 0; Config.slice_pow := 1;
  Config.slice_style := 1;
  Config.slic_fix_frac := 0; Config.slic_ran_frac := 2;
  Config.gen_per_bkg_mut := gen_per_bkg_mut; Config.gen_per_flaw := 0;
  Config.gen_per_mov_mut := 0; Config.gen_per_div_mut := 0;
  Config.gen_per_cro_ins_sam_siz := 0; Config.gen_per_ins_ins := 0;
  Config.gen_per_del_ins := 0; Config.gen_per_cro_ins := 0; Config.gen_per_del_seg := 0;
  Config.gen_per_ins_seg := 0; Config.gen_per_cro_seg := 0;
  Config.mut_bit_prop := 2 # 10;
  Config.mal_mode := 1; Config.mal_reap_tol := 1; Config.mal_tol := 20;
  Config.min_cell_size := 12; Config.mov_prop_thr_div := 7 # 10;
  Config.search_limit := 5;
  Config.reap_rnd_prop := 3 # 10; Config.lazy_tol := lazy_tol; Config.drop_dead := 5;
  Config.div_same_siz := 0;
  Config.dist_freq := - (3 # 10); Config.dist_prop := 2 # 10;
  Config.mem_mode_free := 0; Config.mem_mode_mine := 0; Config.mem_mode_prot := 2;
  Config.disk_bank := 1; Config.save_freq := 100;
  Config.seed := seed;
  Config.rate_mut := 0; Config.rate_flaw := 0; Config.rate_mov_mut := 0
|}.

(** The test-suite's [make_cell], which also enters the cell in the
    reaper's queue as [boot] does. *)
Definition make_cell (p sz : Z) (s : Sim.t) : Sim.t :=
  let cell : CellId := length (Sim.cells s) in
  let c := Cell.set_cpu (CPU.set_ip p CPU.init) (Cell.init p sz) in
  let s := Sim.set_cells (Sim.cells s ++ [c]) s in
  let s := Sim.set_soup (Soup.allocate_at (Sim.soup s) p sz).2 s in
  let s := Sim.set_scheduler (Scheduler.add (Sim.scheduler s) cell) s in
  let s := Sim.set_soup (Soup.add_owner (Sim.soup s) cell (Sim.mm s cell)) s in
  Reaper.add s cell.

(** Ten creatures of 80 bytes in a soup of 1000, the generator replaying
    [draws]. *)
Definition population10 (lazy_tol : Z) (draws : list N) : Sim.t :=
  foldl (fun s p => make_cell p 80 s)
    (Simulation.init (Random.of_list draws) (test_config 1000 25 lazy_tol 0 0))
    [0; 100; 200; 300; 400; 500; 600; 700; 800; 900].

(** One creature of 80 bytes at 100 that has divided once and has run
    [rep_inst] instructions since. *)
Definition parent_after (lazy_tol rep_inst : Z) : Sim.t :=
  Sim.upd_d O (fun d => Demographics.set_rep_inst rep_inst (Demographics.set_fecundity 1 d))
    (make_cell 100 80 (Simulation.init (Random.of_list []) (test_config 1000 25 lazy_tol 0 0))).

(** One creature of 80 bytes at 100 with a daughter block of 80 bytes at
    500 into which [copied] bytes were moved. *)
Definition mother_with_daughter (copied : Z) : Sim.t :=
  let s := make_cell 100 80
             (Simulation.init (Random.of_list []) (test_config 1000 25 10 0 0)) in
  let s := Sim.set_soup (Soup.allocate_at (Sim.soup s) 500 80).2 s in
  Sim.upd_d O (Demographics.set_mov_daught copied)
    (Sim.upd_cell O (Cell.set_md (Some (MemRegion.mk 500 80))) s).

(** A soup of 20 bytes: [adrf] at 0, the template [nop0] at 1, an [ifz] at
    2, and [nop1], the complement, at 3. *)
Definition template_soup : Sim.t :=
  let s := Simulation.init (Random.of_list []) (test_config 20 25 10 0 0) in
  Sim.set_soup (Soup.set_data ([29; 0; 5; 1] ++ replicate 16 7) (Sim.soup s)) s.

(** A soup of 1000 bytes whose free blocks are [0,100), [180,200) and
    [900,1000). *)
Definition three_gaps : Soup.t :=
  Soup.mk 1000 (replicate 1000 0) [(0, 100); (180, 20); (900, 100)] [].


(** An ancestor of 80 bytes that sets [cx] to 16 and calls [mal]:
    [not0; shl; shl; shl; shl; mal] and 74 times [nop0]. *)
Definition greedy_ancestor : list Z := [2; 3; 3; 3; 3; 30] ++ replicate 74 0.

(** An ancestor of 12 [nop0]. *)
Definition idle_ancestor : list Z := replicate 12 0.

(** * Further vocabulary *)

(** ** Allocator *)

(** The address [a] lies in the block [b], as [is_free] tests it. *)
Definition in_block (b : Z * Z) (a : Z) : bool := (b.1 <=? a) && (a <? b.1 + b.2).

(** ** Genetic operators *)


(** ** Owners *)

(** The owner table is sorted by position and its regions do not overlap:
    every region starts at or after [prev_end], where the one before it
    ends. *)
Fixpoint owners_sorted (prev_end : Z) (os : list (Z * Z * CellId)) : Prop :=
  match os with
  | [] => True
  | (p, sz, _) :: rest => prev_end <= p /\ 0 <= sz /\ owners_sorted (p + sz) rest
  end.

(** The entry [e] of the owner table holds the address [a]. *)
Definition holds (e : Z * Z * CellId) (a : Z) : Prop :=
  e.1.1 <= a < e.1.1 + e.1.2.

(** * Proofs *)

(** ** The allocator: allocation undone by deallocation *)

Lemma gapped_weaken lo lo' bs lim : lo' <= lo -> gapped lo bs lim -> gapped lo' bs lim.
Proof. destruct bs as [|[p sz] r]; simpl; [done|]. intros ? (?&?&?&?). repeat split; auto; lia. Qed.

Lemma gapped_app lo l1 l2 lim :
  gapped lo (l1 ++ l2) lim ->
  gapped lo l1 lim /\ exists e, lo <= e /\ gapped e l2 lim /\ Forall (fun b => b.1 + b.2 <= e) l1.
Proof.
  revert lo. induction l1 as [|[p sz] l1 IH]; simpl; intros lo H.
  - split; [done|]. exists lo. repeat split; [lia|done|constructor].
  - destruct H as (H1 & H2 & H3 & H4). destruct (IH _ H4) as (G & e & He & Ge & F).
    split; [done|]. exists e. repeat split; [lia|done|].
    constructor; [simpl; lia|done].
Qed.

Lemma gapped_lower lo bs lim : gapped lo bs lim -> Forall (fun b => lo < b.1) bs.
Proof.
  revert lo. induction bs as [|[p sz] r IH]; simpl; intros lo H; [constructor|].
  destruct H as (H1 & H2 & H3 & H4). constructor; [done|].
  eapply Forall_impl; [apply (IH _ H4)|]. simpl. intros; lia.
Qed.

Lemma bisect_left_app l1 x rest p :
  Forall (fun b : Z * Z => b.1 < p) l1 -> p <= x.1 ->
  bisect_left ((l1 ++ x :: rest).*1) p = length l1.
Proof.
  induction 1 as [|b l Hb _ IH]; csimpl; intros Hx.
  - destruct (Z.ltb_spec x.1 p); [lia|done].
  - destruct (Z.ltb_spec b.1 p); [|lia]. by rewrite IH.
Qed.

Lemma bisect_left_end l1 p :
  Forall (fun b : Z * Z => b.1 < p) l1 -> bisect_left (l1.*1) p = length l1.
Proof.
  induction 1 as [|b l Hb _ IH]; csimpl; [done|].
  destruct (Z.ltb_spec b.1 p); [|lia]. by rewrite IH.
Qed.

Lemma list_insert_at_length {A} (l1 l2 : list A) y :
  list_insert_at (length l1) y (l1 ++ l2) = l1 ++ y :: l2.
Proof. unfold list_insert_at. by rewrite take_app_length, drop_app_length. Qed.

Lemma insert_middle {A} (l1 : list A) x y l2 :
  <[length l1 := y]> (l1 ++ x :: l2) = l1 ++ y :: l2.
Proof. rewrite <- (Nat.add_0_r (length l1)). by rewrite insert_app_r. Qed.

Lemma delete_middle_next {A} (l1 : list A) a b l2 :
  delete (length l1 + 1)%nat (l1 ++ a :: b :: l2) = l1 ++ a :: l2.
Proof. induction l1 as [|x l1 IH]; simpl; [done|]. by rewrite IH. Qed.

Lemma lookup_middle_next {A} (l1 : list A) a b l2 :
  (l1 ++ a :: b :: l2) !! (length l1 + 1)%nat = Some b.
Proof.
  rewrite lookup_app_r by lia.
  by replace (length l1 + 1 - length l1)%nat with 1%nat by lia.
Qed.

Lemma lookup_snoc_prev {A} (l1 : list A) c a l2 :
  ((l1 ++ [c]) ++ a :: l2) !! (length (l1 ++ [c]) - 1)%nat = Some c.
Proof.
  rewrite length_app. simpl. replace (length l1 + 1 - 1)%nat with (length l1) by lia.
  rewrite <- app_assoc. simpl. by apply list_lookup_middle.
Qed.

Lemma merge_next_no l1 a l2 :
  match l2 with [] => True | b :: _ => a.1 + a.2 <> b.1 end ->
  Soup.merge_next (l1 ++ a :: l2) (length l1) = l1 ++ a :: l2.
Proof.
  intros H. unfold Soup.merge_next.
  destruct l2 as [|b l2].
  - destruct (Nat.ltb_spec (length l1 + 1) (length (l1 ++ [a]))) as [Hl|_]; [|done].
    rewrite length_app in Hl; simpl in Hl; lia.
  - destruct (Nat.ltb_spec (length l1 + 1) (length (l1 ++ a :: b :: l2))); [|done].
    rewrite list_lookup_middle by done. rewrite lookup_middle_next.
    by destruct (Z.eqb_spec (a.1 + a.2) b.1).
Qed.

Lemma merge_next_yes l1 a b l2 :
  a.1 + a.2 = b.1 ->
  Soup.merge_next (l1 ++ a :: b :: l2) (length l1) = l1 ++ (a.1, a.2 + b.2) :: l2.
Proof.
  intros H. unfold Soup.merge_next.
  destruct (Nat.ltb_spec (length l1 + 1) (length (l1 ++ a :: b :: l2))) as [_|Hl];
    [|rewrite length_app in Hl; simpl in Hl; lia].
  rewrite list_lookup_middle by done. rewrite lookup_middle_next.
  rewrite H, Z.eqb_refl.
  by rewrite insert_middle, delete_middle_next.
Qed.

Lemma merge_prev_no l1 a l2 :
  match reverse l1 with [] => True | c :: _ => c.1 + c.2 <> a.1 end ->
  Soup.merge_prev (l1 ++ a :: l2) (length l1) = l1 ++ a :: l2.
Proof.
  intros H. unfold Soup.merge_prev.
  destruct (Nat.ltb_spec 0 (length l1)) as [Hl|_]; [|done].
  destruct l1 as [|c l1 _] using rev_ind; [simpl in Hl; lia|].
  rewrite reverse_snoc in H.
  rewrite lookup_snoc_prev, list_lookup_middle by done.
  by destruct (Z.eqb_spec (c.1 + c.2) a.1).
Qed.

Lemma gapped_snoc_end lo l1 c a l2 lim :
  gapped lo ((l1 ++ [c]) ++ a :: l2) lim -> c.1 + c.2 < a.1.
Proof.
  rewrite <- app_assoc. intros H. apply gapped_app in H as (_ & e & _ & H & _).
  destruct c as [p sz], a as [q sq]. simpl in *. lia.
Qed.

Lemma gapped_before lo l1 a l2 lim :
  gapped lo (l1 ++ a :: l2) lim -> Forall (fun b : Z * Z => b.1 < a.1) l1.
Proof.
  revert lo. induction l1 as [|[p sz] l1 IH]; simpl; intros lo H; [constructor|].
  destruct H as (H1 & H2 & H3 & H4). constructor; [|by eapply IH].
  apply gapped_lower in H4. rewrite Forall_app, Forall_cons in H4.
  simpl in *. destruct H4 as (_ & ? & _). lia.
Qed.

Lemma gapped_middle lo l1 a l2 lim :
  gapped lo (l1 ++ a :: l2) lim ->
  0 < a.2 /\ lo < a.1 /\ a.1 + a.2 <= lim /\
  match l2 with [] => True | b :: _ => a.1 + a.2 < b.1 end.
Proof.
  intros H. apply gapped_app in H as (_ & e & He & H & _).
  destruct a as [p sz]. simpl in H. destruct H as (? & ? & ? & H).
  simpl. repeat split; try lia. destruct l2 as [|[q sq] l2]; [done|]. simpl in H. destruct H as (? & _). simpl. lia.
Qed.

(** The list-level round trip. *)
Lemma take_then_deallocate lo fb i p bs size lim :
  gapped lo fb lim -> fb !! i = Some (p, bs) -> 0 <= size ->
  Soup.deallocate_blocks
    (if bs =? size then delete i fb else <[i := (p + size, bs - size)]> fb) p size = fb.
Proof.
  intros Hwf Hi Hsize.
  pose proof (take_drop_middle _ _ _ Hi) as Hsplit.
  assert (Hlen : length (take i fb) = i)
    by (apply length_take_le; apply lookup_lt_Some in Hi; lia).
  set (l1 := take i fb) in *. set (l2 := drop (S i) fb) in *.
  rewrite <- Hsplit in Hwf |- *. rewrite <- Hlen. clear Hsplit Hi Hlen.
  pose proof (gapped_before _ _ _ _ _ Hwf) as Hbefore. simpl in Hbefore.
  pose proof (gapped_middle _ _ _ _ _ Hwf) as (Hbs & Hlo & Hlim & Hnext). simpl in *.
  assert (Hprev : match reverse l1 with [] => True | c :: _ => c.1 + c.2 <> p end).
  { destruct l1 as [|c l1' _] using rev_ind; [done|]. rewrite reverse_snoc.
    apply gapped_snoc_end in Hwf. simpl in Hwf. lia. }
  unfold Soup.deallocate_blocks.
  destruct (Z.eqb_spec bs size) as [->|Hne].
  - rewrite delete_middle.
    assert (Hb : bisect_left ((l1 ++ l2).*1) p = length l1).
    { destruct l2 as [|b l2']; [rewrite app_nil_r; by apply bisect_left_end|].
      apply bisect_left_app; [done|lia]. }
    rewrite Hb, list_insert_at_length.
    rewrite merge_next_no by (destruct l2; [done|simpl; lia]).
    by rewrite merge_prev_no.
  - rewrite insert_middle.
    rewrite bisect_left_app by (done || simpl; lia).
    rewrite list_insert_at_length.
    rewrite merge_next_yes by done. simpl.
    replace (size + (bs - size)) with bs by lia.
    by rewrite merge_prev_no.
Qed.

Lemma take_block_None s size r s' : Soup.take_block s None size = (Some r, s') -> False.
Proof. by unfold Soup.take_block. Qed.

Lemma allocate_take_block s size mode hint tol g r s' g' :
  Soup.allocate s size mode hint tol g = (Some r, s', g') ->
  exists i, Soup.take_block s (Some i) size = (Some r, s').
Proof.
  unfold Soup.allocate. intros H.
  assert (Hopt : forall (o : option nat) g0,
             (Soup.take_block s o size, g0) = (Some r, s', g') ->
             exists i, Soup.take_block s (Some i) size = (Some r, s')).
  { intros [i|] g0 E; [inversion E; by exists i | by inversion E]. }
  destruct (Soup.free_blocks s) as [|b0 fb0] eqn:Hfb; [done|].
  rewrite <- Hfb in H.
  destruct (mode =? 0); [by eapply Hopt|].
  destruct (mode =? 1); [by eapply Hopt|].
  destruct (mode =? 2).
  { destruct (Soup.adequate (Soup.free_blocks s) 0 size) as [|a adq]; [by eapply Hopt|].
    destruct (Random.choice (a :: adq) g) as [idx g1]. by eapply Hopt. }
  destruct (_ && _); [|by eapply Hopt].
  destruct (Soup.nearest _ _ _ _ _ _ _) as [[bi|] [bd|]]; try by eapply Hopt.
  destruct (_ && _); by eapply Hopt.
Qed.

(** C8: on a well-formed free list (sorted, disjoint, no two blocks
    contiguous), in every allocation mode, when [allocate] of a
    non-negative number of bytes returns a block, deallocating that block
    at once restores the soup, and with it the free list, exactly. *)
Theorem allocate_then_deallocate s size mode hint tol g p sz s' g' :
  free_list_wf s -> 0 <= size ->
  Soup.allocate s size mode hint tol g = (Some (p, sz), s', g') ->
  Soup.deallocate s' p sz = s.
Proof.
  intros Hwf Hsize Halloc.
  apply allocate_take_block in Halloc as [i Htake].
  unfold Soup.take_block in Htake.
  destruct (Soup.free_blocks s !! i) as [[q bs]|] eqn:Hi; [|done].
  pose proof (take_drop_middle _ _ _ Hi) as Hsplit.
  unfold free_list_wf in Hwf.
  assert (Hq : 0 <= q < Soup.size s).
  { rewrite <- Hsplit in Hwf. apply gapped_middle in Hwf. simpl in Hwf. lia. }
  pose proof (take_then_deallocate _ _ _ _ _ _ _ Hwf Hi Hsize) as Hrt.
  destruct s as [ssz dat fb own]. simpl in *.
  destruct (Z.eqb_spec bs size) as [->|Hne]; inversion Htake; subst;
    unfold Soup.deallocate; simpl; rewrite Z.mod_small by lia;
    unfold Soup.set_free_blocks; simpl; by rewrite Hrt.
Qed.

Lemma allocate_then_deallocate_witness :
  free_list_wf three_gaps
  /\ Soup.allocate three_gaps 15 1 (-1) (-1) (Random.of_list [])
     = (Some (180, 15), Soup.set_free_blocks [(0, 100); (195, 5); (900, 100)] three_gaps,
        Random.of_list [])
  /\ Soup.deallocate
       (Soup.set_free_blocks [(0, 100); (195, 5); (900, 100)] three_gaps) 180 15
     = three_gaps.
Proof.
  assert (Hwf : free_list_wf three_gaps) by (unfold free_list_wf; simpl; lia).
  split; [exact Hwf|]. split; [reflexivity|].
  apply (allocate_then_deallocate three_gaps 15 1 (-1) (-1) (Random.of_list []) 180 15 _
           (Random.of_list [])).
  - exact Hwf.
  - lia.
  - reflexivity.
Defined.

(** ** The scheduler's cursor *)

Lemma current_spec (s : Scheduler.t) :
  ((Scheduler.current s).1 = None <-> Scheduler.queue s = []) /\
  (forall c, (Scheduler.current s).1 = Some c -> c ∈ Scheduler.queue s) /\
  Scheduler.queue (Scheduler.current s).2 = Scheduler.queue s /\
  (Scheduler.queue s <> [] ->
   (Scheduler.current_idx (Scheduler.current s).2 < length (Scheduler.queue s))%nat).
Proof.
  destruct s as [q i]. unfold Scheduler.current. simpl.
  destruct q as [|c0 q]; [by repeat split; try done; intros ? [=]|].
  set (l := c0 :: q).
  assert (Hl : (0 < length l)%nat) by (simpl; lia).
  destruct (Nat.leb_spec (length l) i) as [Hi|Hi]; simpl.
  - repeat split; try done; try intros [=]; try lia.
    intros c [= <-]. subst l. apply list_elem_of_here.
  - destruct (lookup_lt_is_Some_2 l i Hi) as [c Hc]. rewrite Hc.
    repeat split; try done. intros c' [= <-]. by eapply list_elem_of_lookup_2.
Qed.

(** C9: after any sequence of [add], [remove], [advance] (and [current])
    on a fresh scheduler, [current()] returns [None] exactly when the queue
    is empty, and otherwise a cell of the queue, leaving the cursor inside
    the queue. *)
Theorem scheduler_current_in_queue (ops : list SchedOp) :
  let s := sched_after ops in
  ((Scheduler.current s).1 = None <-> Scheduler.queue s = []) /\
  (forall c, (Scheduler.current s).1 = Some c -> c ∈ Scheduler.queue s) /\
  (Scheduler.queue s <> [] ->
   (Scheduler.current_idx (Scheduler.current s).2 < length (Scheduler.queue s))%nat).
Proof.
  intros s. destruct (current_spec s) as (H1 & H2 & _ & H3). auto.
Qed.

(** ** Division refused *)




(** ** The reaper *)

(** What [_reap_cell] does to the parts of the state the reaper's
    policies look at. *)
Lemma reap_cell_effect (v : CellId) (s : Sim.t) :
  let s' := Reaper._reap_cell v s in
  Sim.config s' = Sim.config s
  /\ Sim.reaper_queue s' = Reaper.remove_first (Sim.reaper_queue s) v
  /\ (Sim.reaper s' = None <-> Sim.reaper s = None)
  /\ Sim.scheduler s' = Scheduler.remove (Sim.scheduler s) v
  /\ Sim.events s' = Sim.events s ++ [CELL_DIED v "reaper"]
  /\ length (Sim.cells s') = length (Sim.cells s)
  /\ (forall c, c <> v -> Cell.alive (Sim.cell s' c) = Cell.alive (Sim.cell s c))
  /\ (forall c, Sim.cells s !! v = Some c -> Cell.alive (Sim.cell s' v) = false).
Proof.
  unfold Reaper._reap_cell.
  destruct (Soup.randomize_block _ _ _ _) as [soup' g].
  cbn zeta.
  set (s3 := Sim.set_soup _ (Sim.set_rng g _)).
  assert (H3 : Sim.config s3 = Sim.config s /\ Sim.reaper s3 = Sim.reaper s
               /\ Sim.scheduler s3 = Sim.scheduler s
               /\ Sim.events s3 = Sim.events s ++ [CELL_DIED v "reaper"]
               /\ Sim.genebank s3 = Sim.genebank s
               /\ Sim.cells s3 = alter (Cell.set_alive false) v (Sim.cells s)) by done.
  destruct H3 as (C3 & R3 & S3 & E3 & G3 & L3).
  set (s4 := match Sim.md s3 v with Some md => _ | None => s3 end).
  assert (H4 : Sim.config s4 = Sim.config s /\ Sim.reaper s4 = Sim.reaper s
               /\ Sim.scheduler s4 = Sim.scheduler s
               /\ Sim.events s4 = Sim.events s ++ [CELL_DIED v "reaper"]
               /\ Sim.genebank s4 = Sim.genebank s
               /\ (Sim.cells s4 = Sim.cells s3
                   \/ Sim.cells s4 = alter (Cell.set_md None) v (Sim.cells s3))).
  { subst s4. destruct (Sim.md s3 v); simpl; rewrite ?C3, ?R3, ?S3, ?E3, ?G3; auto 10. }
  destruct H4 as (C4 & R4 & S4 & E4 & G4 & L4).
  set (s5 := match Sim.genebank s4 with Some gb => _ | None => s4 end).
  assert (H5 : Sim.config s5 = Sim.config s /\ Sim.reaper s5 = Sim.reaper s
               /\ Sim.scheduler s5 = Sim.scheduler s
               /\ Sim.events s5 = Sim.events s ++ [CELL_DIED v "reaper"]
               /\ Sim.cells s5 = Sim.cells s4).
  { subst s5. destruct (Sim.genebank s4); simpl; rewrite ?C4, ?R4, ?S4, ?E4; auto. }
  destruct H5 as (C5 & R5 & S5 & E5 & L5).
  clearbody s5 s4 s3.
  assert (Hlen : length (Sim.cells s5) = length (Sim.cells s)).
  { rewrite L5. destruct L4 as [-> | ->]; rewrite ?length_alter, L3, length_alter; done. }
  assert (Hs' : forall X, Sim.cells (Sim.set_scheduler X (Reaper.remove s5 v)) = Sim.cells s5)
    by (intros X; unfold Reaper.remove; by destruct (Sim.reaper s5)).
  unfold Reaper.remove, Sim.reaper_queue in *.
  rewrite <- R5.
  repeat split.
  - destruct (Sim.reaper s5); simpl; by rewrite ?C5.
  - destruct (Sim.reaper s5) eqn:E; simpl; by rewrite ?E.
  - destruct (Sim.reaper s5) eqn:E; simpl; by rewrite ?E.
  - destruct (Sim.reaper s5) eqn:E; simpl; by rewrite ?E.
  - destruct (Sim.reaper s5); simpl; by rewrite S5.
  - destruct (Sim.reaper s5); simpl; by rewrite E5.
  - by rewrite Hs'.
  - intros c Hc. unfold Sim.cell. rewrite Hs', L5.
    destruct L4 as [-> | ->]; rewrite L3, ?list_lookup_alter_ne by done; done.
  - intros c Hc. unfold Sim.cell. rewrite Hs', L5.
    destruct L4 as [-> | ->]; rewrite L3, ?list_lookup_alter_eq, Hc; done.
Qed.

Lemma remove_first_length (q : list CellId) v :
  v ∈ q -> S (length (Reaper.remove_first q v)) = length q.
Proof.
  induction q as [|c q IH]; simpl; [by intros ?%elem_of_nil|].
  intros Hin. destruct (Nat.eqb_spec c v) as [->|Hne]; [done|].
  simpl. f_equal. apply IH. apply elem_of_cons in Hin as [->|]; done.
Qed.

Lemma remove_first_other (q : list CellId) v c :
  c <> v -> c ∈ q -> c ∈ Reaper.remove_first q v.
Proof.
  intros Hne. induction q as [|x q IH]; simpl; [done|].
  intros Hin. destruct (Nat.eqb_spec x v) as [->|Hx].
  - apply elem_of_cons in Hin as [->|]; done.
  - apply elem_of_cons in Hin as [->|]; [left|right; auto].
Qed.

Lemma remove_first_subset (q : list CellId) v c :
  c ∈ Reaper.remove_first q v -> c ∈ q.
Proof.
  induction q as [|x q IH]; simpl; [done|].
  destruct (Nat.eqb_spec x v) as [->|Hx]; [by right|].
  intros [->|]%elem_of_cons; [left|right; auto].
Qed.

Lemma randint_range a b g :
  a <= b -> exists r g', Random.randint a b g = (Some r, g') /\ a <= r <= b.
Proof.
  intros Hab. unfold Random.randint.
  destruct (Z.ltb_spec b a); [lia|].
  destruct (Random.next g) as [r g']. eexists _, _. split; [done|].
  pose proof (Z.mod_pos_bound (Z.of_N r) (b - a + 1)). lia.
Qed.

Lemma is_cell_true c cur : Reaper.is_cell c cur = true <-> cur = Some c.
Proof.
  destruct cur as [c'|]; simpl; [|done].
  destruct (Nat.eqb_spec c c') as [->|]; split; try done. by intros [= ->].
Qed.

(** The invariant of the loop of [disturbance]. *)
Lemma disturbance_loop_spec n cur killed s :
  exists victims,
    let r := Reaper.disturbance_loop n cur killed s in
    r.1 = killed + Z.of_nat (length victims)
    /\ (length victims <= n)%nat
    /\ Z.of_nat (length (Sim.reaper_queue r.2))
       = Z.of_nat (length (Sim.reaper_queue s)) - Z.of_nat (length victims)
    /\ (Sim.reaper_queue s <> [] -> Sim.reaper_queue r.2 <> [])
    /\ Sim.events r.2 = Sim.events s ++ ((fun v => CELL_DIED v "reaper") <$> victims)
    /\ Forall (fun v => cur <> Some v /\ v ∈ Sim.reaper_queue s) victims
    /\ (forall c, cur = Some c ->
          (c ∈ Sim.reaper_queue s -> c ∈ Sim.reaper_queue r.2)
          /\ Cell.alive (Sim.cell r.2 c) = Cell.alive (Sim.cell s c))
    /\ Sim.config r.2 = Sim.config s.
Proof.
  revert killed s. induction n as [|n IH]; intros killed s.
  { exists []. simpl. rewrite app_nil_r. repeat split; try done; lia. }
  simpl.
  destruct (Nat.leb_spec (length (Sim.reaper_queue s)) 1) as [Hle|Hgt].
  { exists []. simpl. rewrite app_nil_r. repeat split; try done; lia. }
  destruct (randint_range 0 (Z.of_nat (length (Sim.reaper_queue s)) - 1) (Sim.rng s))
    as (r & g' & Hr & Hrange); [lia|].
  rewrite Hr. simpl.
  destruct (lookup_lt_is_Some_2 (Sim.reaper_queue s) (Z.to_nat r)) as [victim Hv]; [lia|].
  change (Sim.reaper_queue (Sim.set_rng g' s)) with (Sim.reaper_queue s) in *.
  rewrite Hv.
  assert (Hvin : victim ∈ Sim.reaper_queue s) by by eapply list_elem_of_lookup_2.
  destruct (Reaper.is_cell victim cur) eqn:Hcur.
  - destruct (IH killed (Sim.set_rng g' s)) as (vs & H1 & H2 & H3 & H4 & H5 & H6 & H7 & H8).
    change (Sim.reaper_queue (Sim.set_rng g' s)) with (Sim.reaper_queue s) in *.
    change (Sim.events (Sim.set_rng g' s)) with (Sim.events s) in *.
    change (Sim.config (Sim.set_rng g' s)) with (Sim.config s) in *.
    change (Sim.cell (Sim.set_rng g' s)) with (Sim.cell s) in *.
    exists vs. split; [done|]. split; [lia|]. auto 10.
  - destruct (IH (killed + 1) (Reaper._reap_cell victim (Sim.set_rng g' s)))
      as (vs & H1 & H2 & H3 & H4 & H5 & H6 & H7 & H8).
    destruct (reap_cell_effect victim (Sim.set_rng g' s))
      as (E1 & E2 & E3 & E4 & E5 & E6 & E7 & E8).
    change (Sim.reaper_queue (Sim.set_rng g' s)) with (Sim.reaper_queue s) in *.
    change (Sim.events (Sim.set_rng g' s)) with (Sim.events s) in *.
    change (Sim.config (Sim.set_rng g' s)) with (Sim.config s) in *.
    change (Sim.cell (Sim.set_rng g' s)) with (Sim.cell s) in *.
    assert (Hne : cur <> Some victim).
    { intros Hc. apply is_cell_true in Hc. congruence. }
    pose proof (remove_first_length _ _ Hvin) as Hlen.
    exists (victim :: vs). simpl. repeat split.
    + rewrite H1. lia.
    + lia.
    + rewrite H3, E2. lia.
    + intros _. apply H4. rewrite E2. intros Hnil.
      rewrite Hnil in Hlen. simpl in Hlen. lia.
    + rewrite H5, E5, <- app_assoc. done.
    + constructor; [done|]. eapply Forall_impl; [apply H6|].
      simpl. intros v [? Hin]. split; [done|]. rewrite E2 in Hin.
      by eapply remove_first_subset.
    + intros Hin. apply (H7 c H). rewrite E2. apply remove_first_other; [congruence|done].
    + destruct (H7 c H) as [_ ->]. apply E7. congruence.
    + by rewrite H8.
Qed.

Lemma int_of_float_floor (x : Q) :
  Z.max 1 (int_of_float x) = Z.max 1 (floor_of_float x).
Proof.
  unfold int_of_float, floor_of_float. destruct x as [a b]. simpl.
  destruct (Z.le_gt_cases 0 a) as [Ha|Ha].
  - by rewrite Z.quot_div_nonneg by lia.
  - assert (a `quot` Z.pos b <= 0) by (apply Z.quot_le_upper_bound; lia).
    assert (a `div` Z.pos b <= 0) by (apply Z.div_le_upper_bound; lia).
    lia.
Qed.

Lemma disturbance_spec (s : Sim.t) :
  exists victims,
    let n := Z.of_nat (length (Sim.reaper_queue s)) in
    let cur := (Scheduler.current (Sim.scheduler s)).1 in
    let r := Reaper.disturbance s in
    r.1 = Z.of_nat (length victims)
    /\ Z.of_nat (length victims)
       <= Z.max 1 (floor_of_float (float_of_int n * Config.dist_prop (Sim.config s))%Q)
    /\ Z.of_nat (length (Sim.reaper_queue r.2)) = n - Z.of_nat (length victims)
    /\ (Sim.reaper_queue s <> [] -> Sim.reaper_queue r.2 <> [])
    /\ Sim.events r.2 = Sim.events s ++ ((fun v => CELL_DIED v "reaper") <$> victims)
    /\ Forall (fun v => cur <> Some v /\ v ∈ Sim.reaper_queue s) victims
    /\ (forall c, cur = Some c ->
          (c ∈ Sim.reaper_queue s -> c ∈ Sim.reaper_queue r.2)
          /\ Cell.alive (Sim.cell r.2 c) = Cell.alive (Sim.cell s c)).
Proof.
  unfold Reaper.disturbance.
  destruct (Sim.reaper_queue s) as [|c0 q0] eqn:Hq.
  { exists []. simpl. rewrite app_nil_r, Hq. repeat split; try done; lia. }
  rewrite <- Hq.
  destruct (Scheduler.current (Sim.scheduler s)) as [cur sched] eqn:Hcur. simpl.
  destruct (disturbance_loop_spec (Z.to_nat (Reaper.num_to_kill s)) cur 0
              (Sim.set_scheduler sched s))
    as (vs & H1 & H2 & H3 & H4 & H5 & H6 & H7 & H8).
  change (Sim.reaper_queue (Sim.set_scheduler sched s)) with (Sim.reaper_queue s) in *.
  change (Sim.events (Sim.set_scheduler sched s)) with (Sim.events s) in *.
  change (Sim.cell (Sim.set_scheduler sched s)) with (Sim.cell s) in *.
  exists vs. split; [by rewrite H1|]. split; [|auto 10].
  unfold Reaper.num_to_kill in H2. rewrite int_of_float_floor in H2. lia.
Qed.

(** C10: [disturbance] never empties the reaper's queue: when the queue
    is not empty before the call, it is not empty after it, and the
    creature the scheduler is executing is neither removed from the queue
    nor marked dead. *)
Theorem disturbance_spares_last (s : Sim.t) :
  Sim.reaper_queue s <> [] ->
  Sim.reaper_queue (Reaper.disturbance s).2 <> []
  /\ (forall c, (Scheduler.current (Sim.scheduler s)).1 = Some c ->
        (c ∈ Sim.reaper_queue s -> c ∈ Sim.reaper_queue (Reaper.disturbance s).2)
        /\ Cell.alive (Sim.cell (Reaper.disturbance s).2 c) = Cell.alive (Sim.cell s c)).
Proof.
  intros Hne. destruct (disturbance_spec s) as (vs & _ & _ & _ & H4 & _ & _ & H7). auto.
Qed.

Lemma disturbance_spares_last_witness :
  Sim.reaper_queue (population10 10 [0; 3]%N) <> []
  /\ Sim.reaper_queue (Reaper.disturbance (population10 10 [0; 3]%N)).2 <> [].
Proof.
  assert (Hne : Sim.reaper_queue (population10 10 [0; 3]%N) <> [])
    by (vm_compute; discriminate).
  split; [exact Hne|].
  exact (proj1 (disturbance_spares_last (population10 10 [0; 3]%N) Hne)).
Defined.



(** With draws that avoid the executing creature the same call kills
    two. *)
Example disturbance_kills_two :
  let s := population10 10 ([1] ++ replicate 80 5 ++ [3])%N in
  (Reaper.disturbance s).1 = 2
  /\ Sim.events (Reaper.disturbance s).2 = [CELL_DIED 1 "reaper"; CELL_DIED 4 "reaper"].
Proof. vm_compute. split; reflexivity. Qed.

(** C3, as amended: with a positive [lazy_tol], a creature that has
    divided at least once and has executed more than
    [lazy_tol * mother.size] instructions since is reaped by [check_lazy]:
    the call returns [True], the creature is marked dead and taken out of
    both queues, and a [CELL_DIED] event for it is emitted. *)
Theorem check_lazy_reaps (s : Sim.t) (cell : CellId) (c : Cell.t) :
  Sim.cells s !! cell = Some c ->
  0 < Config.lazy_tol (Sim.config s) ->
  1 <= Demographics.fecundity (Cell.d c) ->
  Config.lazy_tol (Sim.config s) * MemRegion.size (Cell.mm c) < Demographics.rep_inst (Cell.d c) ->
  let r := Reaper.check_lazy cell s in
  r.1 = true
  /\ r.2 = Reaper._reap_cell cell s
  /\ Cell.alive (Sim.cell r.2 cell) = false
  /\ (exists cause, Sim.events r.2 = Sim.events s ++ [CELL_DIED cell cause])
  /\ Sim.reaper_queue r.2 = Reaper.remove_first (Sim.reaper_queue s) cell
  /\ Sim.scheduler r.2 = Scheduler.remove (Sim.scheduler s) cell.
Proof.
  intros Hc Htol Hfec Hrep.
  unfold Reaper.check_lazy, Sim.d, Sim.mm, Sim.cell. rewrite Hc. simpl.
  destruct (Z.leb_spec (Config.lazy_tol (Sim.config s)) 0); [lia|].
  destruct (Z.gtb_spec (Demographics.fecundity (Cell.d c)) 0); [|lia].
  destruct (Z.gtb_spec (Demographics.rep_inst (Cell.d c))
              (MemRegion.size (Cell.mm c) * Config.lazy_tol (Sim.config s))); [|lia].
  simpl.
  destruct (reap_cell_effect cell s) as (E1 & E2 & E3 & E4 & E5 & E6 & E7 & E8).
  repeat split; try done.
  - by apply (E8 c).
  - by exists "reaper".
Qed.

Lemma check_lazy_reaps_witness :
  (Reaper.check_lazy O (parent_after 10 801)).1 = true
  /\ Cell.alive (Sim.cell (Reaper.check_lazy O (parent_after 10 801)).2 O) = false.
Proof.
  destruct (check_lazy_reaps (parent_after 10 801) O
              (Sim.cell (parent_after 10 801) O)) as (H1 & _ & H3 & _).
  - reflexivity.
  - vm_compute. reflexivity.
  - vm_compute. discriminate.
  - vm_compute. reflexivity.
  - split; [exact H1|exact H3].
Defined.

(** C3, as stated, fails: with [lazy_tol = 0] a creature that has divided
    once and has executed one instruction since, more than
    [lazy_tol * mother.size = 0], is not reaped. *)
Lemma check_lazy_disabled_spares :
  let s := parent_after 0 1 in
  Demographics.fecundity (Sim.d s O) = 1
  /\ Config.lazy_tol (Sim.config s) * MemRegion.size (Sim.mm s O) = 0
  /\ Demographics.rep_inst (Sim.d s O) = 1
  /\ (Reaper.check_lazy O s).1 = false
  /\ Cell.alive (Sim.cell (Reaper.check_lazy O s).2 O) = true
  /\ Sim.events (Reaper.check_lazy O s).2 = [].
Proof. vm_compute. repeat split; reflexivity. Qed.

(** The event of a lazy kill carries the cause [reaper]. *)
Example check_lazy_cause :
  Sim.events (Reaper.check_lazy O (parent_after 10 801)).2 = [CELL_DIED O "reaper"].
Proof. vm_compute. reflexivity. Qed.

(** ** Template search *)

Lemma match_at_loop_spec s template start j0 :
  Instructions._match_at_loop s ((fun bit => 1 - bit) <$> template) start j0 = true <->
  (forall (j : nat) (bit : Z), template !! j = Some bit ->
     sim_read s ((start + (j0 + Z.of_nat j)) mod Config.soup_size (Sim.config s)) = 1 - bit).
Proof.
  revert j0. induction template as [|b t IH]; intros j0; csimpl.
  - split; [intros _ j bit H; by rewrite lookup_nil in H|done].
  - destruct (Z.eqb_spec (sim_read s ((start + j0) mod Config.soup_size (Sim.config s))) (1 - b))
      as [Heq|Hne].
    + rewrite IH. split.
      * intros H [|j] bit Hj; simpl in Hj.
        -- injection Hj as <-. by rewrite Z.add_0_r.
        -- specialize (H j bit Hj). by replace (j0 + Z.of_nat (S j)) with (j0 + 1 + Z.of_nat j) by lia.
      * intros H j bit Hj. specialize (H (S j) bit Hj).
        by replace (j0 + Z.of_nat (S j)) with (j0 + 1 + Z.of_nat j) in H by lia.
    + split; [done|]. intros H. specialize (H O b eq_refl).
      rewrite Z.add_0_r in H. done.
Qed.

Lemma match_at_spec s template start :
  Instructions._match_at s ((fun bit => 1 - bit) <$> template) start = true <->
  complement_at s template start.
Proof.
  unfold Instructions._match_at, complement_at. rewrite match_at_loop_spec.
  split; intros H j bit Hj; specialize (H j bit Hj); by rewrite ?Z.add_0_l in *.
Qed.

Lemma find_first_match {A} (f : A -> bool) (l1 : list A) x l2 :
  Forall (fun y => f y = false) l1 -> f x = true ->
  List.find f (l1 ++ x :: l2) = Some x.
Proof.
  induction 1 as [|y l Hy _ IH]; simpl; intros Hx; [by rewrite Hx|].
  rewrite Hy. by apply IH.
Qed.

Lemma seqZ_split (d n : Z) :
  1 <= d <= n -> seqZ 1 n = seqZ 1 (d - 1) ++ d :: seqZ (d + 1) (n - d).
Proof.
  intros Hd. replace n with ((d - 1) + (1 + (n - d))) at 1 by lia.
  rewrite seqZ_app by lia. f_equal.
  replace (1 + (d - 1)) with d by lia.
  rewrite seqZ_cons by lia. f_equal. f_equal. lia.
Qed.




Lemma is_nop_bit x : is_nop x = true <-> x = 0 \/ x = 1.
Proof.
  unfold is_nop, NOP0, NOP1.
  destruct (Z.eqb_spec x 0), (Z.eqb_spec x 1); simpl; split; auto; try lia.
Qed.

(** What the first loop of [_find_template] returns: the bytes read from
    [pos] on, all nops, ended by a byte that is not a nop or by the bound
    on the length. *)
Lemma read_template_spec (s : Sim.t) (fuel : nat) (pos : Z) (acc : list Z) :
  let ss := Config.soup_size (Sim.config s) in
  0 < ss -> 0 <= pos < ss ->
  exists run,
    Instructions.read_template fuel s pos acc = acc ++ run
    /\ (length run <= fuel)%nat
    /\ (forall (j : nat) x, run !! j = Some x ->
          x = sim_read s ((pos + Z.of_nat j) mod ss) /\ is_nop x = true)
    /\ (length run = fuel
        \/ ss <= Z.of_nat (length (acc ++ run))
        \/ is_nop (sim_read s ((pos + Z.of_nat (length run)) mod ss)) = false).
Proof.
  intros ss Hss. revert pos acc. induction fuel as [|fuel IH]; intros pos acc Hpos.
  { exists []. rewrite app_nil_r. simpl. split; [done|]. split; [done|]. split; [|by left].
    intros j x Hj. by rewrite lookup_nil in Hj. }
  simpl. fold ss.
  destruct (is_nop (sim_read s pos)) eqn:Hnop.
  - destruct (Z.geb_spec (Z.of_nat (length (acc ++ [sim_read s pos]))) ss) as [Hfull|Hroom].
    + exists [sim_read s pos]. simpl. split; [done|]. split; [lia|]. split; [|right; left; lia].
      intros [|j] x Hj; [|done]. injection Hj as <-.
      rewrite Z.add_0_r, Z.mod_small by lia. done.
    + destruct (IH ((pos + 1) mod ss) (acc ++ [sim_read s pos])) as (run & E & Hlen & Hrun & Hend).
      { by apply Z.mod_pos_bound. }
      exists (sim_read s pos :: run). rewrite E, <- app_assoc. simpl.
      split; [done|]. split; [lia|]. split.
      * intros [|j] x Hj.
        -- injection Hj as <-. rewrite Z.add_0_r, Z.mod_small by lia. done.
        -- simpl in Hj. destruct (Hrun j x Hj) as [-> ?]. split; [|done].
           rewrite Zplus_mod_idemp_l.
           replace (pos + Z.of_nat (S j)) with (pos + 1 + Z.of_nat j) by lia.
           done.
      * destruct Hend as [Hend|[Hend|Hend]].
        -- left. lia.
        -- right; left. by rewrite <- app_assoc in Hend.
        -- right; right. rewrite <- Hend, Zplus_mod_idemp_l.
           replace (pos + Z.of_nat (S (length run))) with (pos + 1 + Z.of_nat (length run)) by lia.
           done.
  - exists []. rewrite app_nil_r. simpl. split; [done|]. split; [lia|]. split.
    + intros j x Hj. by rewrite lookup_nil in Hj.
    + right; right. rewrite Z.add_0_r, Z.mod_small by lia. done.
Qed.

(** No complement ever starts at [IP+1+L]: that byte either ends the
    template, and so is not a nop, or, when the template fills the whole
    soup, is the first byte of the template itself. *)
Lemma no_complement_at_template_end (s : Sim.t) (ip : Z) (template : list Z) :
  let ss := Config.soup_size (Sim.config s) in
  0 < ss ->
  Instructions.template_after s ip = template ->
  template <> [] ->
  ~ complement_at s template ((ip + 1 + Z.of_nat (length template)) mod ss).
Proof.
  intros ss Hss Ht Hne Hc.
  unfold Instructions.template_after in Ht. fold ss in Ht.
  destruct (read_template_spec s (Z.to_nat (Z.max 1 ss)) ((ip + 1) mod ss) [])
    as (run & E & Hlen & Hrun & Hend); [done|by apply Z.mod_pos_bound|].
  fold ss in E, Hrun, Hend. rewrite E in Ht. simpl in Ht, Hend. subst run.
  destruct template as [|b t]; [done|].
  destruct (Hrun O b eq_refl) as [Hb Hnop]. apply is_nop_bit in Hnop.
  pose proof (Hc O b eq_refl) as H0. fold ss in H0.
  rewrite Z.add_0_r, Z.mod_mod in H0 by lia.
  destruct Hend as [Hend|[Hend|Hend]].
  1,2: assert (Hfull : Z.of_nat (length (b :: t)) = ss) by lia.
  1,2: rewrite Hfull in H0;
       replace (ip + 1 + ss) with (ip + 1 + 1 * ss) in H0 by lia;
       rewrite Z.mod_add in H0 by lia;
       rewrite Z.add_0_r, Z.mod_mod in Hb by lia; lia.
  rewrite Zplus_mod_idemp_l in Hend. rewrite H0 in Hend.
  assert (Hn : is_nop (1 - b) = true) by (apply is_nop_bit; lia).
  congruence.
Qed.


(** ** The genebank *)


Lemma register_reuse gb cell soup gt :
  SizeClass.genotypes (size_class_of gb cell) !! GeneBank._genome_hash (mother_bytes cell soup)
  = Some gt ->
  (GeneBank.register gb cell soup).1
  = (gt, GeneBank.mk (<[MemRegion.size (Cell.mm cell) := size_class_of gb cell]>
                        (GeneBank.size_classes gb))
                     (GeneBank.genotypes gb)
                     (alter GeneBank.bump gt (GeneBank.arena gb))).
Proof.
  unfold GeneBank.register, size_class_of, mother_bytes. intros H. by rewrite H.
Qed.

Lemma register_mint gb cell soup :
  SizeClass.genotypes (size_class_of gb cell) !! GeneBank._genome_hash (mother_bytes cell soup)
  = None ->
  (GeneBank.register gb cell soup).1
  = (length (GeneBank.arena gb),
     GeneBank.mk
       (<[MemRegion.size (Cell.mm cell) :=
            SizeClass.mk (<[GeneBank._genome_hash (mother_bytes cell soup)
                            := length (GeneBank.arena gb)]>
                            (SizeClass.genotypes (size_class_of gb cell)))
                         (SizeClass.next_label (size_class_of gb cell) + 1)]>
          (GeneBank.size_classes gb))
       (<[Genotype.name (minted gb cell soup) := length (GeneBank.arena gb)]>
          (GeneBank.genotypes gb))
       (alter GeneBank.bump (length (GeneBank.arena gb))
          (GeneBank.arena gb ++ [minted gb cell soup]))).
Proof.
  unfold GeneBank.register, size_class_of, mother_bytes, minted. intros H. by rewrite H.
Qed.








(** ** The partition of the soup

    The free blocks, the mother blocks and the daughter blocks of the
    creatures that are alive partition the soup after [boot], and the
    partition is kept by the allocator, by the reaper, by the lazy check, by
    disturbances and by every executed instruction of a creature that is
    still alive when the instruction is done.  The invariant
    [partition_inv] counts, for every address, the intervals that hold it;
    a state of the same [shape] has the same count, which disposes of the
    instructions that work on registers and on the bytes of the soup. *)

(** *** Counting the intervals that hold an address *)

Lemma covering_app ss l1 l2 a :
  covering ss (l1 ++ l2) a = (covering ss l1 a + covering ss l2 a)%nat.
Proof. unfold covering. by rewrite List.filter_app, length_app. Qed.

Lemma covering_cons ss r l a :
  covering ss (r :: l) a = ((if covers ss r a then 1 else 0) + covering ss l a)%nat.
Proof. unfold covering. simpl. by destruct (covers ss r a). Qed.

Lemma covering_nil ss a : covering ss [] a = O.
Proof. done. Qed.

Lemma covers_linear ss r a :
  block_ok ss r -> 0 <= a < ss ->
  covers ss r a = (r.1 <=? a) && (a <? r.1 + r.2).
Proof.
  intros (H1 & H2 & H3) Ha. unfold covers.
  destruct (Z.leb_spec r.1 a) as [Hle|Hgt]; simpl.
  - rewrite Z.mod_small by lia.
    destruct (Z.ltb_spec (a - r.1) r.2), (Z.ltb_spec a (r.1 + r.2)); lia || done.
  - replace (a - r.1) with ((a - r.1 + ss) + (-1) * ss) by lia.
    rewrite Z.mod_add, Z.mod_small by lia.
    destruct (Z.ltb_spec (a - r.1 + ss) r.2); lia || done.
Qed.

(** A block and its two halves hold the same addresses. *)
Lemma covering_split ss p s1 s2 a :
  0 <= p -> 0 < s1 -> 0 < s2 -> p + s1 + s2 <= ss -> 0 <= a < ss ->
  covering ss [(p, s1 + s2)] a = covering ss [(p, s1); (p + s1, s2)] a.
Proof.
  intros Hp H1 H2 Hss Ha. rewrite !covering_cons, covering_nil.
  rewrite !covers_linear by (done || unfold block_ok; simpl; lia). simpl.
  destruct (Z.leb_spec p a), (Z.ltb_spec a (p + (s1 + s2))), (Z.ltb_spec a (p + s1)),
    (Z.leb_spec (p + s1) a), (Z.ltb_spec a (p + s1 + s2)); simpl; lia.
Qed.

Lemma Forall_take_drop {A} (P : A -> Prop) (l : list A) i :
  Forall P l -> Forall P (take i l) /\ Forall P (drop i l).
Proof. intros H. split; [by apply Forall_take|by apply Forall_drop]. Qed.

Lemma covering_insert_at ss i b l a :
  covering ss (list_insert_at i b l) a = (covering ss [b] a + covering ss l a)%nat.
Proof.
  unfold list_insert_at. rewrite <- (take_drop i l) at 3.
  rewrite !covering_app, !covering_cons, covering_nil. lia.
Qed.

Lemma Forall_insert_at {A} (P : A -> Prop) i b (l : list A) :
  P b -> Forall P l -> Forall P (list_insert_at i b l).
Proof.
  intros Hb Hl. unfold list_insert_at. apply Forall_app. split; [by apply Forall_take|].
  constructor; [done|by apply Forall_drop].
Qed.

Lemma lookup_two_split {A} (l : list A) i x y :
  l !! i = Some x -> l !! (i + 1)%nat = Some y ->
  l = take i l ++ x :: y :: drop (i + 2) l /\ length (take i l) = i.
Proof.
  intros Hx Hy.
  pose proof (take_drop_middle _ _ _ Hx) as E1.
  assert (Hy' : drop (S i) l !! O = Some y).
  { rewrite lookup_drop. by replace (S i + 0)%nat with (i + 1)%nat by lia. }
  pose proof (take_drop_middle _ _ _ Hy') as E2. simpl in E2.
  rewrite drop_drop in E2. replace (S i + 1)%nat with (i + 2)%nat in E2 by lia.
  split.
  - by rewrite E2.
  - apply length_take_le. apply lookup_lt_Some in Hx. lia.
Qed.

(** Merging two adjacent entries that are contiguous blocks. *)
Lemma merged_pair ss (l1 l2 : list (Z * Z)) x y a :
  Forall (block_ok ss) (l1 ++ x :: y :: l2) -> x.1 + x.2 = y.1 -> 0 <= a < ss ->
  Forall (block_ok ss) (l1 ++ (x.1, x.2 + y.2) :: l2)
  /\ covering ss (l1 ++ (x.1, x.2 + y.2) :: l2) a = covering ss (l1 ++ x :: y :: l2) a.
Proof.
  intros Hok Hxy Ha.
  apply Forall_app in Hok as [Hl1 Hrest].
  apply Forall_cons in Hrest as [Hx Hrest]. apply Forall_cons in Hrest as [Hy Hl2].
  destruct x as [p s1], y as [q s2]. unfold block_ok in *. simpl in *. subst q.
  split.
  - apply Forall_app. split; [done|]. constructor; [simpl; lia|done].
  - rewrite !covering_app.
    change ((p, s1 + s2) :: l2) with ([(p, s1 + s2)] ++ l2).
    change ((p, s1) :: (p + s1, s2) :: l2) with ([(p, s1); (p + s1, s2)] ++ l2).
    rewrite !covering_app, covering_split by lia. done.
Qed.

Lemma merge_next_inv ss l i a :
  Forall (block_ok ss) l -> 0 <= a < ss ->
  Forall (block_ok ss) (Soup.merge_next l i)
  /\ covering ss (Soup.merge_next l i) a = covering ss l a.
Proof.
  intros Hok Ha. unfold Soup.merge_next.
  destruct (_ <? _)%nat; [|done].
  destruct (l !! i) as [x|] eqn:Hx; [|done].
  destruct (l !! (i + 1)%nat) as [y|] eqn:Hy; [|done].
  destruct (Z.eqb_spec (x.1 + x.2) y.1) as [Hxy|]; [|done].
  destruct (lookup_two_split l i x y Hx Hy) as [E Hlen].
  rewrite E in Hok |- *. set (l1 := take i l) in *. set (l2 := drop (i + 2) l) in *.
  clearbody l1 l2. clear Hx Hy E. subst i.
  rewrite insert_middle, delete_middle_next.
  by apply merged_pair.
Qed.

Lemma merge_prev_inv ss l i a :
  Forall (block_ok ss) l -> 0 <= a < ss ->
  Forall (block_ok ss) (Soup.merge_prev l i)
  /\ covering ss (Soup.merge_prev l i) a = covering ss l a.
Proof.
  intros Hok Ha. unfold Soup.merge_prev.
  destruct (Nat.ltb_spec 0 i) as [Hi|]; [|done].
  destruct (l !! (i - 1)%nat) as [x|] eqn:Hx; [|done].
  destruct (l !! i) as [y|] eqn:Hy; [|done].
  destruct (Z.eqb_spec (x.1 + x.2) y.1) as [Hxy|]; [|done].
  replace i with ((i - 1) + 1)%nat in Hy at 1 by lia.
  destruct (lookup_two_split l (i - 1) x y Hx Hy) as [E Hlen].
  rewrite E in Hok |- *. set (l1 := take (i - 1) l) in *. set (l2 := drop (i - 1 + 2) l) in *.
  clearbody l1 l2. clear Hx Hy E.
  replace i with (length l1 + 1)%nat by lia.
  replace (length l1 + 1 - 1)%nat with (length l1) by lia.
  rewrite insert_middle, delete_middle_next.
  by apply merged_pair.
Qed.

(** [deallocate] adds the block to what the free list holds. *)
Lemma deallocate_blocks_inv ss fb p sz a :
  Forall (block_ok ss) fb -> block_ok ss (p, sz) -> 0 <= a < ss ->
  Forall (block_ok ss) (Soup.deallocate_blocks fb p sz)
  /\ covering ss (Soup.deallocate_blocks fb p sz) a
     = (covering ss fb a + covering ss [(p, sz)] a)%nat.
Proof.
  intros Hfb Hb Ha. unfold Soup.deallocate_blocks.
  set (i := bisect_left _ _).
  pose proof (Forall_insert_at _ i (p, sz) fb Hb Hfb) as H1.
  destruct (merge_next_inv ss _ i a H1 Ha) as [H2 C2].
  destruct (merge_prev_inv ss _ i a H2 Ha) as [H3 C3].
  split; [done|]. rewrite C3, C2, covering_insert_at. lia.
Qed.

(** *** What [allocate] selects *)

Lemma fits_tail b blocks i0 size i :
  fits blocks (S i0) size i -> fits (b :: blocks) i0 size i.
Proof. intros (k & x & -> & Hk & Hx). exists (S k), x. split; [lia|done]. Qed.

Lemma first_fit_fits blocks i0 size i :
  Soup.first_fit blocks i0 size = Some i -> fits blocks i0 size i.
Proof.
  revert i0. induction blocks as [|[p sz] rest IH]; simpl; intros i0 H; [done|].
  destruct (Z.geb_spec sz size).
  - injection H as <-. exists O, (p, sz). split; [lia|]. split; [done|simpl; lia].
  - by apply fits_tail, IH.
Qed.

Lemma better_fit_fits blocks i0 size best_idx best_size i :
  Soup.better_fit blocks i0 size best_idx best_size = Some i ->
  best_idx = Some i \/ fits blocks i0 size i.
Proof.
  revert i0 best_idx best_size.
  induction blocks as [|[p sz] rest IH]; simpl; intros i0 best_idx best_size H; [by left|].
  destruct (Z.geb_spec sz size); simpl in H.
  - destruct (match best_size with Some b => sz <? b | None => true end).
    + destruct (IH _ _ _ H) as [[= <-]|Hf].
      * right. exists O, (p, sz). split; [lia|]. split; [done|simpl; lia].
      * right. by apply fits_tail.
    + destruct (IH _ _ _ H) as [?|Hf]; [by left|right; by apply fits_tail].
  - destruct (IH _ _ _ H) as [?|Hf]; [by left|right; by apply fits_tail].
Qed.

Lemma adequate_fits blocks i0 size i :
  i ∈ Soup.adequate blocks i0 size -> fits blocks i0 size i.
Proof.
  revert i0. induction blocks as [|[p sz] rest IH]; simpl; intros i0 H.
  - by apply elem_of_nil in H.
  - destruct (Z.geb_spec sz size).
    + apply elem_of_cons in H as [->|H].
      * exists O, (p, sz). split; [lia|]. split; [done|simpl; lia].
      * by apply fits_tail, IH.
    + by apply fits_tail, IH.
Qed.

Lemma nearest_fits blocks i0 size ss hint best_idx best_dist i d :
  Soup.nearest blocks i0 size ss hint best_idx best_dist = (Some i, d) ->
  best_idx = Some i \/ fits blocks i0 size i.
Proof.
  revert i0 best_idx best_dist.
  induction blocks as [|[p sz] rest IH]; simpl; intros i0 best_idx best_dist H.
  - left. by injection H.
  - destruct (Z.geb_spec sz size).
    + destruct (match best_dist with Some b => _ | None => true end).
      * destruct (IH _ _ _ H) as [[= <-]|Hf].
        -- right. exists O, (p, sz). split; [lia|]. split; [done|simpl; lia].
        -- right. by apply fits_tail.
      * destruct (IH _ _ _ H) as [?|Hf]; [by left|right; by apply fits_tail].
    + destruct (IH _ _ _ H) as [?|Hf]; [by left|right; by apply fits_tail].
Qed.

Lemma choice_elem {A} (l : list A) g x g' :
  Random.choice l g = (Some x, g') -> x ∈ l.
Proof.
  unfold Random.choice. destruct l as [|y l]; [done|].
  destruct (Random.next g) as [r g0]. intros [= H _].
  by eapply list_elem_of_lookup_2.
Qed.

(** In every mode, a successful [allocate] takes its block at an index
    whose free block is large enough. *)
Lemma allocate_fits s size mode hint tol g r s' g' :
  Soup.allocate s size mode hint tol g = (Some r, s', g') ->
  exists i, fits (Soup.free_blocks s) O size i
            /\ Soup.take_block s (Some i) size = (Some r, s').
Proof.
  unfold Soup.allocate. intros H.
  assert (Hopt : forall (o : option nat) g0,
             (forall i, o = Some i -> fits (Soup.free_blocks s) O size i) ->
             (Soup.take_block s o size, g0) = (Some r, s', g') ->
             exists i, fits (Soup.free_blocks s) O size i
                       /\ Soup.take_block s (Some i) size = (Some r, s')).
  { intros [i|] g0 Hf E; [inversion E; exists i; auto | by inversion E]. }
  destruct (Soup.free_blocks s) as [|b0 fb0] eqn:Hfb; [done|].
  rewrite <- Hfb in *.
  destruct (mode =? 0).
  { eapply Hopt; [|exact H]. intros i Hi. by apply first_fit_fits. }
  destruct (mode =? 1).
  { eapply Hopt; [|exact H]. intros i Hi.
    by destruct (better_fit_fits _ _ _ _ _ _ Hi). }
  destruct (mode =? 2).
  { destruct (Soup.adequate (Soup.free_blocks s) 0 size) as [|a adq] eqn:Hadq;
      [by eapply (Hopt None)|].
    destruct (Random.choice (a :: adq) g) as [idx g1] eqn:Hch.
    eapply Hopt; [|exact H]. intros i ->.
    apply adequate_fits. rewrite Hadq. by eapply choice_elem. }
  destruct (_ && _).
  { destruct (Soup.nearest _ _ _ _ _ _ _) as [[bi|] [bd|]] eqn:Hn;
      try by eapply (Hopt None).
    destruct (_ && _); [by eapply (Hopt None)|].
    eapply Hopt; [|exact H]. intros i [= <-].
    by destruct (nearest_fits _ _ _ _ _ _ _ _ _ Hn). }
  eapply Hopt; [|exact H]. intros i Hi.
  by destruct (better_fit_fits _ _ _ _ _ _ Hi).
Qed.

(** [allocate] moves the block it returns out of the free list. *)
Lemma allocate_inv s size mode hint tol g p sz s' g' a :
  let ss := Soup.size s in
  Forall (block_ok ss) (Soup.free_blocks s) -> 0 < size -> 0 <= a < ss ->
  Soup.allocate s size mode hint tol g = (Some (p, sz), s', g') ->
  sz = size
  /\ Soup.size s' = ss
  /\ block_ok ss (p, sz)
  /\ Forall (block_ok ss) (Soup.free_blocks s')
  /\ (covering ss (Soup.free_blocks s') a + covering ss [(p, sz)] a)%nat
     = covering ss (Soup.free_blocks s) a.
Proof.
  intros ss Hok Hsize Ha Halloc.
  apply allocate_fits in Halloc as (i & (k & b & Hi & Hk & Hb) & Htake).
  simpl in Hi. subst k. unfold Soup.take_block in Htake. rewrite Hk in Htake.
  destruct b as [q bs]. simpl in Hb.
  destruct s as [ssz dat fb own]. simpl in *. subst ss.
  pose proof (take_drop_middle _ _ _ Hk) as E.
  assert (Hlen : length (take i fb) = i)
    by (apply length_take_le; apply lookup_lt_Some in Hk; lia).
  set (l1 := take i fb) in *. set (l2 := drop (S i) fb) in *.
  clearbody l1 l2. subst fb i. clear Hk.
  apply Forall_app in Hok as [Hl1 Hrest]. apply Forall_cons in Hrest as [Hq Hl2].
  destruct Hq as (Hq1 & Hq2 & Hq3). simpl in *.
  destruct (Z.eqb_spec bs size) as [->|Hne]; inversion Htake; subst; clear Htake; simpl.
  - rewrite delete_middle.
    repeat split; try done; try (simpl; lia).
    + apply Forall_app; auto.
    + rewrite !covering_app, !covering_cons, covering_nil. lia.
  - rewrite insert_middle.
    repeat split; try done; try (simpl; lia).
    + apply Forall_app. split; [done|]. constructor; [|done].
      unfold block_ok. simpl. lia.
    + rewrite !covering_app.
      change ((p + sz, bs - sz) :: l2) with ([(p + sz, bs - sz)] ++ l2).
      change ((p, bs) :: l2) with ([(p, bs)] ++ l2).
      rewrite !covering_app.
      replace bs with (sz + (bs - sz)) at 2 by lia.
      rewrite (covering_split ssz p sz (bs - sz)) by lia.
      rewrite !covering_cons, covering_nil. lia.
Qed.

(** *** The inventory of a state *)

Lemma deallocate_inv s p sz a :
  Forall (block_ok (Soup.size s)) (Soup.free_blocks s) ->
  block_ok (Soup.size s) (p, sz) -> 0 <= a < Soup.size s ->
  Soup.size (Soup.deallocate s p sz) = Soup.size s
  /\ Forall (block_ok (Soup.size s)) (Soup.free_blocks (Soup.deallocate s p sz))
  /\ covering (Soup.size s) (Soup.free_blocks (Soup.deallocate s p sz)) a
     = (covering (Soup.size s) (Soup.free_blocks s) a + covering (Soup.size s) [(p, sz)] a)%nat.
Proof.
  intros Hfb Hb Ha. unfold Soup.deallocate.
  assert (Hp : p mod Soup.size s = p).
  { destruct Hb as (H1 & H2 & H3). simpl in *. apply Z.mod_small. lia. }
  rewrite Hp. destruct s; simpl in *.
  split; [done|]. by apply deallocate_blocks_inv.
Qed.

Lemma randomize_block_loop_frame n s addr i g :
  Soup.size (Soup.randomize_block_loop n s addr i g).1 = Soup.size s
  /\ Soup.free_blocks (Soup.randomize_block_loop n s addr i g).1 = Soup.free_blocks s.
Proof.
  revert s i g. induction n as [|n IH]; intros s i g; simpl; [done|].
  destruct (Random.randint 0 31 g) as [r g'].
  match goal with
  | |- context [Soup.randomize_block_loop n ?s1 addr ?j ?h] =>
    destruct (IH s1 j h) as [H1 H2]; rewrite H1, H2
  end.
  by destruct s.
Qed.

Lemma cell_intervals_dead c : Cell.alive c = false -> cell_intervals c = [].
Proof. unfold cell_intervals. by intros ->. Qed.

Lemma cells_alter_covering ss (cells : list Cell.t) v c f a :
  cells !! v = Some c ->
  (covering ss (alter f v cells ≫= cell_intervals) a + covering ss (cell_intervals c) a)%nat
  = (covering ss (cells ≫= cell_intervals) a + covering ss (cell_intervals (f c)) a)%nat.
Proof.
  intros Hv. pose proof (take_drop_middle _ _ _ Hv) as E.
  assert (Hlen : length (take v cells) = v)
    by (apply length_take_le; apply lookup_lt_Some in Hv; lia).
  set (l1 := take v cells) in *. set (l2 := drop (S v) cells) in *.
  clearbody l1 l2. subst cells v.
  rewrite alter_app_r_alt by lia. rewrite Nat.sub_diag. simpl.
  rewrite !bind_app, !bind_cons, !covering_app. lia.
Qed.

Lemma cells_alter_blocks (P : Z * Z -> Prop) (cells : list Cell.t) v f :
  Forall P (cells ≫= cell_intervals) ->
  (forall c, cells !! v = Some c -> Forall P (cell_intervals (f c))) ->
  Forall P (alter f v cells ≫= cell_intervals).
Proof.
  rewrite !Forall_bind, !Forall_lookup. intros H Hf i x Hx.
  destruct (decide (i = v)) as [->|Hne].
  - rewrite list_lookup_alter_eq in Hx.
    destruct (cells !! v) as [c|] eqn:Hc; [|done]. injection Hx as <-.
    by apply Hf.
  - rewrite list_lookup_alter_ne in Hx by done. by apply (H i).
Qed.

Lemma cells_lookup_blocks (P : Z * Z -> Prop) (cells : list Cell.t) v c :
  Forall P (cells ≫= cell_intervals) -> cells !! v = Some c -> Forall P (cell_intervals c).
Proof. rewrite Forall_bind, Forall_lookup. intros H Hv. by apply (H v). Qed.

(** *** Reaping a creature *)

Lemma reap_cell_soup v s c :
  Sim.cells s !! v = Some c ->
  let s' := Reaper._reap_cell v s in
  let soup1 := Soup.deallocate (Sim.soup s) (MemRegion.pos (Cell.mm c)) (MemRegion.size (Cell.mm c)) in
  Soup.size (Sim.soup s') = Soup.size (Sim.soup s)
  /\ Soup.free_blocks (Sim.soup s')
     = Soup.free_blocks
         match Cell.md c with
         | Some md => Soup.deallocate soup1 (MemRegion.pos md) (MemRegion.size md)
         | None => soup1
         end
  /\ exists f, Sim.cells s' = alter f v (Sim.cells s) /\ Cell.alive (f c) = false.
Proof.
  intros Hv. unfold Reaper._reap_cell.
  destruct (Soup.randomize_block _ _ _ _) as [soup' g] eqn:Hrand.
  cbn zeta.
  unfold Soup.randomize_block in Hrand.
  match type of Hrand with
  | Soup.randomize_block_loop ?n ?s0 ?ad ?i ?h = _ =>
    destruct (randomize_block_loop_frame n s0 ad i h) as [R1 R2]; rewrite Hrand in R1, R2
  end.
  simpl in R1, R2.
  unfold Sim.md, Sim.mm, Sim.cell in *. simpl in *.
  rewrite list_lookup_alter_eq, Hv in *. simpl in *.
  destruct (Cell.md c) as [md|]; simpl;
    destruct (Sim.genebank s); simpl;
    unfold Reaper.remove; simpl; destruct (Sim.reaper s); simpl;
    rewrite ?R1, ?R2.
  all: split; [done|split; [done|]].
  1-4: exists (Cell.set_md None ∘ Cell.set_alive false);
    by rewrite list_alter_alter_eq.
  all: by exists (Cell.set_alive false).
Qed.

Lemma remove_first_NoDup (q : list CellId) v :
  NoDup q -> NoDup (Reaper.remove_first q v) /\ v ∉ Reaper.remove_first q v.
Proof.
  induction 1 as [|x q Hx Hq IH]; simpl.
  - split; [constructor|]. by intros ?%elem_of_nil.
  - destruct (Nat.eqb_spec x v) as [->|Hne]; [done|].
    destruct IH as [IH1 IH2]. split.
    + constructor; [|done]. by intros ?%remove_first_subset.
    + intros [->|]%elem_of_cons; done.
Qed.

(** Reaping a creature that is alive returns its memory to the free list
    and keeps the invariant. *)
Lemma reap_cell_inv v s c :
  partition_inv s -> Sim.cells s !! v = Some c -> Cell.alive c = true ->
  partition_inv (Reaper._reap_cell v s).
Proof.
  intros [Hsz Hmin Hblocks Hcover Hq Hnd] Hv Halive.
  destruct (reap_cell_effect v s) as (Hcfg & Hqueue & _).
  destruct (reap_cell_soup v s c Hv) as (Hsize & Hfree & f & Hcells & Hdead).
  set (s' := Reaper._reap_cell v s) in *. clearbody s'.
  set (ss := Soup.size (Sim.soup s)) in *.
  unfold intervals in Hblocks. apply Forall_app in Hblocks as [Hfb Hcb].
  pose proof (cells_lookup_blocks _ _ _ _ Hcb Hv) as Hc.
  unfold cell_intervals in Hc. rewrite Halive in Hc.
  apply Forall_cons in Hc as [Hmm Hmd].
  assert (Hstep : Forall (block_ok ss) (Soup.free_blocks (Sim.soup s'))
    /\ forall a, 0 <= a < ss ->
         covering ss (Soup.free_blocks (Sim.soup s')) a
         = (covering ss (Soup.free_blocks (Sim.soup s)) a
            + covering ss (cell_intervals c) a)%nat).
  { rewrite Hfree. unfold cell_intervals. rewrite Halive.
    pose proof (fun a => deallocate_inv (Sim.soup s) _ _ a Hfb Hmm) as D1.
    destruct (Cell.md c) as [md|]; simpl in Hmd;
      cbn [fmap option_fmap option_map option_list].
    - apply Forall_cons in Hmd as [Hmd _].
      set (soup1 := Soup.deallocate (Sim.soup s) _ _) in *.
      assert (S1 : Soup.size soup1 = ss) by done.
      assert (F1 : Forall (block_ok (Soup.size soup1)) (Soup.free_blocks soup1)).
      { rewrite S1. apply (D1 0). fold ss. lia. }
      rewrite <- S1 in Hmd.
      pose proof (fun a => deallocate_inv soup1 _ _ a F1 Hmd) as D2.
      rewrite S1 in D2. split.
      + apply (D2 0). lia.
      + intros a Ha. destruct (D2 a Ha) as (_ & _ & ->).
        destruct (D1 a Ha) as (_ & _ & E1).
        change (Soup.size (Sim.soup s)) with ss in E1. rewrite E1.
        unfold region_pair, option_list. cbn [option_rect]. rewrite !covering_cons, covering_nil. lia.
    - split; [apply (D1 0); fold ss; lia|].
      intros a Ha. destruct (D1 a Ha) as (_ & _ & E1).
      change (Soup.size (Sim.soup s)) with ss in E1. rewrite E1.
      unfold region_pair, option_list. cbn [option_rect]. done. }
  destruct Hstep as [Hfb' Hcov'].
  constructor.
  - by rewrite Hsize.
  - by rewrite Hcfg.
  - rewrite Hsize. unfold intervals. apply Forall_app. split; [done|].
    rewrite Hcells. apply cells_alter_blocks; [done|].
    intros c' Hc'. rewrite Hv in Hc'. injection Hc' as <-.
    by rewrite cell_intervals_dead.
  - rewrite Hsize. intros a Ha. specialize (Hcover a Ha).
    unfold cover_count, intervals in *. rewrite Hsize. fold ss in Hcover |- *.
    rewrite covering_app in *. rewrite Hcov' by done. rewrite Hcells.
    pose proof (cells_alter_covering ss _ _ _ f a Hv) as E.
    rewrite (cell_intervals_dead (f c)), covering_nil in E by done. lia.
  - rewrite Hqueue. intros w Hw.
    destruct (remove_first_NoDup _ v Hnd) as [_ Hnotin].
    assert (w <> v) by (by intros ->).
    apply remove_first_subset in Hw. destruct (Hq w Hw) as (cw & Hcw & Hal).
    exists cw. split; [|done]. rewrite Hcells. by rewrite list_lookup_alter_ne.
  - rewrite Hqueue. by apply remove_first_NoDup.
Qed.

(** *** States of the same shape *)

Lemma regions_intervals (l1 l2 : list Cell.t) :
  regions <$> l1 = regions <$> l2 -> l1 ≫= cell_intervals = l2 ≫= cell_intervals.
Proof.
  revert l2. induction l1 as [|x l1 IH]; intros [|y l2] E; csimpl in E; try done.
  unfold regions at 1 3 in E. injection E as E1 E2 E3 E.
  rewrite !bind_cons. f_equal; [|by apply IH].
  unfold cell_intervals. by rewrite E1, E2, E3.
Qed.

Lemma regions_is_alive s s' w :
  regions <$> Sim.cells s' = regions <$> Sim.cells s -> is_alive s w -> is_alive s' w.
Proof.
  intros E (c & Hc & Hal).
  assert (H : (regions <$> Sim.cells s') !! w = Some (regions c)).
  { by rewrite E, list_lookup_fmap, Hc. }
  rewrite list_lookup_fmap in H. apply fmap_Some in H as (c' & Hc' & H).
  exists c'. split; [done|].
  unfold regions in H. injection H as _ _ <-. done.
Qed.

Lemma partition_inv_shape s s' :
  shape s' = shape s -> partition_inv s -> partition_inv s'.
Proof.
  unfold shape. intros E [Hsz Hmin Hblocks Hcover Hq Hnd].
  injection E as E1 E2 E3 E4 E5.
  assert (Ei : intervals s' = intervals s).
  { unfold intervals. rewrite E2. f_equal. by apply regions_intervals. }
  constructor; unfold cover_count; rewrite ?E1, ?E5, ?Ei, ?E4; try done.
  intros v Hv. eapply regions_is_alive; [done|auto].
Qed.

Lemma regions_alter (f : Cell.t -> Cell.t) v (l : list Cell.t) :
  (forall c, regions (f c) = regions c) -> regions <$> alter f v l = regions <$> l.
Proof.
  intros Hf. apply list_eq. intros i. rewrite !list_lookup_fmap.
  destruct (decide (i = v)) as [->|Hne].
  - rewrite list_lookup_alter_eq. destruct (_ !! v); simpl; [|done]. by rewrite Hf.
  - by rewrite list_lookup_alter_ne.
Qed.

Lemma shape_upd_cell v f s :
  (forall c, regions (f c) = regions c) -> shape (Sim.upd_cell v f s) = shape s.
Proof.
  intros Hf. unfold shape, Sim.upd_cell. destruct s.
  cbn [Sim.soup Sim.cells Sim.set_cells Sim.config Sim.reaper_queue Sim.reaper].
  by rewrite regions_alter.
Qed.

Lemma survivors_refl s : survivors s s.
Proof. intros w c Hc _. by exists c. Qed.

Lemma survivors_trans s1 s2 s3 : survivors s1 s2 -> survivors s2 s3 -> survivors s1 s3.
Proof.
  intros H12 H23 w c3 Hc3 Hal.
  destruct (H23 w c3 Hc3 Hal) as (c2 & Hc2 & E2).
  assert (Hal2 : Cell.alive c2 = true).
  { unfold regions in E2. injection E2 as _ _ ->. done. }
  destruct (H12 w c2 Hc2 Hal2) as (c1 & Hc1 & E1).
  exists c1. split; [done|congruence].
Qed.

Lemma survivors_shape s s' : shape s' = shape s -> survivors s s'.
Proof.
  unfold shape. intros E w c' Hc' _. injection E as _ _ E _ _.
  assert (H : (regions <$> Sim.cells s) !! w = Some (regions c'))
    by (by rewrite <- E, list_lookup_fmap, Hc').
  rewrite list_lookup_fmap in H. apply fmap_Some in H as (c & Hc & H).
  by exists c.
Qed.

Lemma reap_cell_cells v s :
  exists f, Sim.cells (Reaper._reap_cell v s) = alter f v (Sim.cells s)
            /\ forall c, Cell.alive (f c) = false.
Proof.
  unfold Reaper._reap_cell.
  destruct (Soup.randomize_block _ _ _ _) as [soup' g].
  cbn zeta.
  match goal with
  | |- context [match Sim.md ?s3 v with _ => _ end] => destruct (Sim.md s3 v)
  end; simpl; destruct (Sim.genebank s); simpl;
    unfold Reaper.remove; simpl; destruct (Sim.reaper s); simpl.
  1-4: exists (Cell.set_md None ∘ Cell.set_alive false);
    by rewrite list_alter_alter_eq.
  all: by exists (Cell.set_alive false).
Qed.

Lemma reap_cell_survivors v s : survivors s (Reaper._reap_cell v s).
Proof.
  intros w c' Hc' Hal.
  destruct (reap_cell_cells v s) as (f & Hcells & Hdead).
  rewrite Hcells in Hc'. destruct (decide (w = v)) as [->|Hne].
  - rewrite list_lookup_alter_eq in Hc'. apply fmap_Some in Hc' as (c & _ & ->).
    by rewrite Hdead in Hal.
  - rewrite list_lookup_alter_ne in Hc' by done. by exists c'.
Qed.

(** *** Computations that keep the invariant *)

Lemma later_refl s : later s s.
Proof. split; [lia|auto]. Qed.

Lemma later_trans s1 s2 s3 : later s1 s2 -> later s2 s3 -> later s1 s3.
Proof.
  intros [L12 H12] [L23 H23]. split; [lia|].
  intros w Hw Hal. apply H12; [done|]. apply H23; [lia|done].
Qed.

Lemma later_shape s s' : shape s' = shape s -> later s s'.
Proof.
  intros E. assert (Er : regions <$> Sim.cells s = regions <$> Sim.cells s').
  { unfold shape in E. by injection E as _ _ -> _ _. }
  split.
  - apply (f_equal length) in Er. rewrite !length_fmap in Er. lia.
  - intros w _. by apply regions_is_alive.
Qed.

Lemma later_survivors s s' :
  length (Sim.cells s') = length (Sim.cells s) -> survivors s s' -> later s s'.
Proof.
  intros Hlen Hs. split; [lia|].
  intros w _ (c' & Hc' & Hal). destruct (Hs w c' Hc' Hal) as (c & Hc & E).
  exists c. split; [done|]. unfold regions in E. by injection E as _ _ ->.
Qed.

Lemma frames_keeps {A} (m : M A) : frames m -> keeps m.
Proof.
  intros H s. split; [by apply later_shape|]. by apply partition_inv_shape.
Qed.

Lemma keeps_keeps_for cell {A} (m : M A) : keeps m -> keeps_for cell m.
Proof. intros H s. destruct (H s) as [H1 H2]. split; auto. Qed.

Lemma state_of_bind {A B} (m : M A) (k : A -> M B) s :
  state_of (bind m k s) = match m s with
                          | Ok a s' => state_of (k a s')
                          | Raise _ s' => s'
                          end.
Proof. unfold bind. by destruct (m s). Qed.

Lemma frames_bind {A B} (m : M A) (k : A -> M B) :
  frames m -> (forall a, frames (k a)) -> frames (bind m k).
Proof.
  intros Hm Hk s. rewrite state_of_bind. specialize (Hm s).
  destruct (m s) as [a s'|e s']; simpl in Hm; [|done].
  by rewrite (Hk a s').
Qed.

Lemma keeps_bind {A B} (m : M A) (k : A -> M B) :
  keeps m -> (forall a, keeps (k a)) -> keeps (bind m k).
Proof.
  intros Hm Hk s. rewrite state_of_bind. destruct (Hm s) as [L1 I1].
  destruct (m s) as [a s'|e s']; simpl in *; [|done].
  destruct (Hk a s') as [L2 I2]. split; [by eapply later_trans|auto].
Qed.

Lemma is_alive_lt s w : is_alive s w -> (w < length (Sim.cells s))%nat.
Proof. intros (c & Hc & _). by apply lookup_lt_Some in Hc. Qed.

Lemma keeps_for_bind cell {A B} (m : M A) (k : A -> M B) :
  keeps_for cell m -> (forall a, keeps_for cell (k a)) -> keeps_for cell (bind m k).
Proof.
  intros Hm Hk s. rewrite state_of_bind. destruct (Hm s) as [L1 I1].
  destruct (m s) as [a s'|e s']; simpl in *; [|done].
  destruct (Hk a s') as [L2 I2]. split; [by eapply later_trans|].
  intros Hinv Hal Hal2.
  assert (Hal1 : is_alive s' cell).
  { apply L2; [|done]. apply is_alive_lt in Hal. destruct L1. lia. }
  auto.
Qed.

Lemma frames_ret {A} (a : A) : frames (ret a).
Proof. done. Qed.

Lemma frames_raise {A} e : frames (@raise A e).
Proof. done. Qed.

Lemma frames_get : frames get.
Proof. done. Qed.

Lemma frames_modify f : (forall s, shape (f s) = shape s) -> frames (modify f).
Proof. intros H s. apply H. Qed.

Lemma shape_set_rng g s : shape (Sim.set_rng g s) = shape s.
Proof. done. Qed.

Lemma frames_m_random : frames m_random.
Proof. intros s. unfold m_random. by destruct (Random.random _). Qed.

Lemma frames_m_randint a b : frames (m_randint a b).
Proof. intros s. unfold m_randint. by destruct (Random.randint _ _ _) as [[r|] g]. Qed.

Lemma frames_m_choice {A} (l : list A) : frames (m_choice l).
Proof. intros s. unfold m_choice. by destruct (Random.choice _ _) as [[r|] g]. Qed.

Lemma shape_upd_cpu v f s : shape (Sim.upd_cpu v f s) = shape s.
Proof. by apply shape_upd_cell. Qed.

Lemma shape_upd_d v f s : shape (Sim.upd_d v f s) = shape s.
Proof. by apply shape_upd_cell. Qed.

Lemma shape_sim_write addr value s : shape (sim_write addr value s) = shape s.
Proof. done. Qed.

Lemma shape_sim_copy dst src s : shape (sim_copy dst src s) = shape s.
Proof. done. Qed.

Lemma shape_emit e s : shape (Sim.emit e s) = shape s.
Proof. done. Qed.

Lemma shape_for_range n i body s :
  (forall j x, shape (body j x) = shape x) -> shape (for_range n i body s) = shape s.
Proof.
  intros Hb. revert i s. induction n as [|n IH]; intros i s; simpl; [done|].
  by rewrite IH, Hb.
Qed.

Lemma shape_for_range_down n i body s :
  (forall j x, shape (body j x) = shape x) -> shape (for_range_down n i body s) = shape s.
Proof.
  intros Hb. revert i s. induction n as [|n IH]; intros i s; simpl; [done|].
  by rewrite IH, Hb.
Qed.

Lemma shape_tally cell s : shape (Simulation.tally cell s) = shape s.
Proof.
  unfold Simulation.tally.
  etransitivity; [|apply (shape_upd_d cell)]. done.
Qed.

(** *** The instructions that leave the shape alone *)

Create HintDb shape.
#[export] Hint Resolve shape_upd_cpu shape_upd_d shape_sim_write shape_sim_copy shape_emit
  shape_tally shape_set_rng : shape.

Ltac frames_tac :=
  repeat first
    [ solve [auto with shape]
    | apply frames_ret | apply frames_raise | apply frames_get
    | apply frames_m_random | apply frames_m_randint | apply frames_m_choice
    | apply frames_modify; intros ?;
      first [ apply shape_for_range; intros ? ? | apply shape_for_range_down; intros ? ? | idtac ];
      solve [ auto with shape ]
    | apply frames_bind; [|intros ?]
    | match goal with
      | |- frames (if ?b then _ else _) => destruct b
      | |- frames (match ?x with _ => _ end) => destruct x
      end
    ].

Lemma frames_flaw : frames Instructions._flaw.
Proof. unfold Instructions._flaw. frames_tac. Qed.

Lemma frames_set_e cell v : frames (Instructions.set_e cell v).
Proof. unfold Instructions.set_e. frames_tac. Qed.

Lemma frames_skip_template cell : frames (Instructions._skip_template cell).
Proof.
  intros s. unfold Instructions._skip_template.
  destruct (Instructions._skip_template_loop _ _ _); simpl; auto with shape.
Qed.

#[export] Hint Resolve frames_flaw frames_set_e frames_skip_template : shape.

Lemma frames_arith cell :
  frames (Instructions.nop cell) /\ frames (Instructions.not0 cell)
  /\ frames (Instructions.shl cell) /\ frames (Instructions.zero cell)
  /\ frames (Instructions.ifz cell) /\ frames (Instructions.sub_cab cell)
  /\ frames (Instructions.sub_aac cell) /\ frames (Instructions.inc_a cell)
  /\ frames (Instructions.inc_b cell) /\ frames (Instructions.dec_c cell)
  /\ frames (Instructions.inc_c cell) /\ frames (Instructions.mov_dc cell)
  /\ frames (Instructions.mov_ba cell).
Proof.
  unfold Instructions.nop, Instructions.not0, Instructions.shl, Instructions.zero,
    Instructions.ifz, Instructions.sub_cab, Instructions.sub_aac, Instructions.inc_a,
    Instructions.inc_b, Instructions.dec_c, Instructions.inc_c, Instructions.mov_dc,
    Instructions.mov_ba.
  repeat split; frames_tac.
Qed.

Lemma frames_push_reg reg cell : frames (Instructions.push_reg reg cell).
Proof. unfold Instructions.push_reg. frames_tac. Qed.

Lemma frames_pop_reg set cell : frames (Instructions.pop_reg set cell).
Proof. unfold Instructions.pop_reg. frames_tac. Qed.

Lemma frames_jump direction cell : frames (Instructions.jump direction cell).
Proof. unfold Instructions.jump. frames_tac. Qed.

Lemma frames_call cell : frames (Instructions.call cell).
Proof. unfold Instructions.call. frames_tac. Qed.

Lemma frames_ret_ cell : frames (Instructions.ret_ cell).
Proof. unfold Instructions.ret_. frames_tac. Qed.

Lemma frames_adr direction cell : frames (Instructions.adr direction cell).
Proof. unfold Instructions.adr. frames_tac. Qed.

Lemma frames_count_mutation cell : frames (Mutations.count_mutation cell).
Proof. unfold Mutations.count_mutation. frames_tac. Qed.

#[export] Hint Resolve frames_count_mutation : shape.

Lemma frames_movii cell : frames (Instructions.movii cell).
Proof. unfold Instructions.movii. frames_tac. Qed.

Lemma frames_mutate_value value : frames (Mutations._mutate_value value).
Proof. unfold Mutations._mutate_value. frames_tac. Qed.

#[export] Hint Resolve frames_mutate_value : shape.

Lemma frames_background_mutation : frames Mutations.background_mutation.
Proof. unfold Mutations.background_mutation. frames_tac. Qed.

Lemma frames_gated gen_per body : frames body -> frames (Mutations.gated gen_per body).
Proof. intros H. unfold Mutations.gated. frames_tac. Qed.

Lemma frames_with_md cell k :
  (forall md s, frames (k md s)) -> frames (Mutations.with_md cell k).
Proof. intros H. unfold Mutations.with_md. frames_tac. Qed.

Lemma frames_find_same_size_mate cell : frames (Mutations._find_same_size_mate cell).
Proof. unfold Mutations._find_same_size_mate. frames_tac. Qed.

#[export] Hint Resolve frames_find_same_size_mate : shape.

Ltac operator_tac :=
  apply frames_bind; [apply frames_get|intros ?];
  apply frames_gated, frames_with_md; intros ? ?; frames_tac.

Lemma frames_mutation_ops cell : frames (Mutations._mutation_ops cell).
Proof. unfold Mutations._mutation_ops. operator_tac. Qed.

Lemma frames_crossover_inst_same_size cell : frames (Mutations._crossover_inst_same_size cell).
Proof. unfold Mutations._crossover_inst_same_size. operator_tac. Qed.

Lemma frames_crossover_inst cell : frames (Mutations._crossover_inst cell).
Proof. unfold Mutations._crossover_inst. operator_tac. Qed.

Lemma frames_insertion_inst cell : frames (Mutations._insertion_inst cell).
Proof. unfold Mutations._insertion_inst. operator_tac. Qed.

Lemma frames_deletion_inst cell : frames (Mutations._deletion_inst cell).
Proof. unfold Mutations._deletion_inst. operator_tac. Qed.

Lemma frames_crossover_seg cell : frames (Mutations._crossover_seg cell).
Proof. unfold Mutations._crossover_seg. operator_tac. Qed.

Lemma frames_insertion_seg cell : frames (Mutations._insertion_seg cell).
Proof. unfold Mutations._insertion_seg. operator_tac. Qed.

Lemma frames_deletion_seg cell : frames (Mutations._deletion_seg cell).
Proof. unfold Mutations._deletion_seg. operator_tac. Qed.

#[export] Hint Resolve frames_mutation_ops frames_crossover_inst_same_size
  frames_crossover_inst frames_insertion_inst frames_deletion_inst frames_crossover_seg
  frames_insertion_seg frames_deletion_seg : shape.

Lemma frames_genetic_ops cell : frames (Mutations.genetic_ops cell).
Proof. unfold Mutations.genetic_ops. frames_tac. Qed.

(** *** The reaper *)

Lemma reaps_refl s : reaps s s.
Proof. split; [done|]. split; [apply survivors_refl|auto]. Qed.

Lemma reaps_trans s1 s2 s3 : reaps s1 s2 -> reaps s2 s3 -> reaps s1 s3.
Proof.
  intros (L1 & S1 & I1) (L2 & S2 & I2). split; [congruence|].
  split; [by eapply survivors_trans|auto].
Qed.

Lemma reaps_shape s s' : shape s' = shape s -> reaps s s'.
Proof.
  intros E. split; [|split].
  - unfold shape in E. injection E as _ _ E _ _.
    apply (f_equal length) in E. by rewrite !length_fmap in E.
  - by apply survivors_shape.
  - by apply partition_inv_shape.
Qed.

Lemma reaps_later s s' : reaps s s' -> later s s'.
Proof. intros (L & S & _). by apply later_survivors. Qed.

Lemma reap_cell_reaps v s : v ∈ Sim.reaper_queue s -> reaps s (Reaper._reap_cell v s).
Proof.
  intros Hv. split; [|split].
  - apply (reap_cell_effect v s).
  - apply reap_cell_survivors.
  - intros Hinv. destruct (inv_queue_alive s Hinv v Hv) as (c & Hc & Hal).
    by eapply reap_cell_inv.
Qed.

Lemma reap_near_loop_reaps q addr max_dist current_cell s :
  (forall v, v ∈ q -> v ∈ Sim.reaper_queue s) ->
  reaps s (Reaper._reap_near_loop q addr max_dist current_cell s).2.
Proof.
  induction q as [|cell q IH]; intros Hq; simpl; [apply reaps_refl|].
  assert (Hrest : forall v, v ∈ q -> v ∈ Sim.reaper_queue s)
    by (intros v Hv; apply Hq; by right).
  destruct (Reaper.is_cell cell current_cell); [by apply IH|].
  destruct (_ <=? _); [|by apply IH].
  simpl. apply reap_cell_reaps, Hq. by left.
Qed.

Lemma reap_near_loop_none q addr max_dist current_cell s :
  (Reaper._reap_near_loop q addr max_dist current_cell s).1 = None ->
  (Reaper._reap_near_loop q addr max_dist current_cell s).2 = s.
Proof.
  induction q as [|cell q IH]; simpl; [done|].
  destruct (Reaper.is_cell cell current_cell); [done|].
  by destruct (_ <=? _).
Qed.

Lemma reap_reaps addr s : reaps s (state_of (Reaper.reap addr s)).
Proof.
  unfold Reaper.reap.
  destruct (Sim.reaper_queue s) as [|v0 q0] eqn:Hqueue; [apply reaps_refl|].
  destruct (Scheduler.current (Sim.scheduler s)) as [current_cell sched].
  set (s1 := Sim.set_scheduler sched s).
  assert (H1 : reaps s s1) by (by apply reaps_shape).
  assert (Hq1 : Sim.reaper_queue s1 = v0 :: q0) by done.
  clearbody s1. eapply reaps_trans; [done|]. clear H1 Hqueue s.
  assert (Hfar : reaps s1
    (state_of
       (let q := Sim.reaper_queue s1 in
        let len := Z.of_nat (length q) in
        let reap_range :=
          Z.max 1 (int_of_float (float_of_int len * Config.reap_rnd_prop (Sim.config s1))%Q) in
        let '(idx, s) :=
          if reap_range <? 2 then (0, s1)
          else let '(r, g) := Random.randint 0 (reap_range - 1) (Sim.rng s1) in
               (default 0 r, Sim.set_rng g s1) in
        match q !! Z.to_nat idx with
        | None => Raise IndexError s
        | Some victim =>
          if Reaper.is_cell victim current_cell && (1 <? len) then
            let idx := (idx + 1) mod Z.min reap_range len in
            match q !! Z.to_nat idx with
            | None => Raise IndexError s
            | Some victim =>
              if Reaper.is_cell victim current_cell then Ok None s
              else Ok (Some victim) (Reaper._reap_cell victim s)
            end
          else Ok (Some victim) (Reaper._reap_cell victim s)
        end))).
  { cbv zeta. set (q := Sim.reaper_queue s1). set (rr := Z.max 1 _).
    assert (Hpick : forall i v, q !! i = Some v -> forall g,
              reaps s1 (Reaper._reap_cell v (Sim.set_rng g s1))
              /\ reaps s1 (Reaper._reap_cell v s1)).
    { intros i v Hv g. apply list_elem_of_lookup_2 in Hv. split.
      - eapply reaps_trans; [apply (reaps_shape s1 (Sim.set_rng g s1)); done|].
        by apply reap_cell_reaps.
      - by apply reap_cell_reaps. }
    destruct (rr <? 2).
    - destruct (q !! Z.to_nat 0) as [v|] eqn:Hv; [|apply reaps_refl].
      destruct (_ && _).
      + match goal with
        | |- context [q !! ?i] => destruct (q !! i) as [v'|] eqn:Hv'
        end; [|apply reaps_refl].
        destruct (Reaper.is_cell v' current_cell); [apply reaps_refl|].
        apply (Hpick _ _ Hv' (Sim.rng s1)).
      + apply (Hpick _ _ Hv (Sim.rng s1)).
    - destruct (Random.randint _ _ _) as [r g].
      assert (Hg : reaps s1 (Sim.set_rng g s1)) by (by apply reaps_shape).
      destruct (q !! Z.to_nat (default 0 r)) as [v|] eqn:Hv; [|done].
      destruct (_ && _).
      + match goal with
        | |- context [q !! ?i] => destruct (q !! i) as [v'|] eqn:Hv'
        end; [|done].
        destruct (Reaper.is_cell v' current_cell); [done|].
        apply (Hpick _ _ Hv' g).
      + apply (Hpick _ _ Hv g). }
  destruct (negb _ && _); [|exact Hfar].
  unfold Reaper._reap_near_address.
  set (md := _ * _).
  pose proof (reap_near_loop_reaps (Sim.reaper_queue s1) addr md current_cell s1
                (fun v H => H)) as Hnear.
  pose proof (reap_near_loop_none (Sim.reaper_queue s1) addr md current_cell s1) as Hnone.
  destruct (Reaper._reap_near_loop _ _ _ _ _) as [[victim|] s2]; simpl in *; [done|].
  rewrite Hnone by done. exact Hfar.
Qed.

(** *** [mal] *)

Lemma take_block_none s idx size s' :
  Soup.take_block s idx size = (None, s') -> s' = s.
Proof.
  unfold Soup.take_block. destruct idx as [i|]; [|congruence].
  destruct (_ !! i) as [[p bs]|]; [|congruence].
  by destruct (bs =? size).
Qed.

Lemma allocate_none s size mode hint tol g s' g' :
  Soup.allocate s size mode hint tol g = (None, s', g') -> s' = s.
Proof.
  unfold Soup.allocate.
  assert (H : forall o g0, (Soup.take_block s o size, g0) = (None, s', g') -> s' = s).
  { intros o g0 E. injection E as E _. by apply take_block_none in E. }
  destruct (Soup.free_blocks s); [congruence|].
  destruct (mode =? 0); [apply H|].
  destruct (mode =? 1); [apply H|].
  destruct (mode =? 2).
  { destruct (Soup.adequate _ _ _); [apply H|].
    destruct (Random.choice _ _). apply H. }
  destruct (_ && _); [|apply H].
  destruct (Soup.nearest _ _ _ _ _ _ _) as [[i|] [d|]]; try apply H.
  destruct (_ && _); apply H.
Qed.

Lemma later_alive s s' :
  Cell.alive <$> Sim.cells s' = Cell.alive <$> Sim.cells s -> later s s'.
Proof.
  intros E. split.
  - apply (f_equal length) in E. rewrite !length_fmap in E. lia.
  - intros w _ (c' & Hc' & Hal).
    assert (H : (Cell.alive <$> Sim.cells s) !! w = Some true)
      by (by rewrite <- E, list_lookup_fmap, Hc', <- Hal).
    rewrite list_lookup_fmap in H. apply fmap_Some in H as (c & Hc & H).
    by exists c.
Qed.

Lemma alive_alter (f : Cell.t -> Cell.t) v (l : list Cell.t) :
  (forall c, Cell.alive (f c) = Cell.alive c) ->
  Cell.alive <$> alter f v l = Cell.alive <$> l.
Proof.
  intros Hf. apply list_eq. intros i. rewrite !list_lookup_fmap.
  destruct (decide (i = v)) as [->|Hne].
  - rewrite list_lookup_alter_eq. destruct (_ !! v); simpl; [|done]. by rewrite Hf.
  - by rewrite list_lookup_alter_ne.
Qed.

(** Giving up the daughter block: [soup.deallocate(cell.md.pos,
    cell.md.size)] and [cell.md = None]. *)
Lemma release_md_inv cell s c md :
  partition_inv s -> Sim.cells s !! cell = Some c -> Cell.alive c = true ->
  Cell.md c = Some md ->
  partition_inv
    (Sim.upd_cell cell (Cell.set_md None)
       (Sim.set_soup (Soup.deallocate (Sim.soup s) (MemRegion.pos md) (MemRegion.size md)) s)).
Proof.
  intros [Hsz Hmin Hblocks Hcover Hq Hnd] Hv Halive Hmd.
  set (ss := Soup.size (Sim.soup s)) in *.
  unfold intervals in Hblocks. apply Forall_app in Hblocks as [Hfb Hcb].
  pose proof (cells_lookup_blocks _ _ _ _ Hcb Hv) as Hc.
  unfold cell_intervals in Hc. rewrite Halive, Hmd in Hc.
  apply Forall_cons in Hc as [Hmm Hb]. apply Forall_cons in Hb as [Hb _].
  pose proof (fun a => deallocate_inv (Sim.soup s) _ _ a Hfb Hb) as D.
  set (soup1 := Soup.deallocate _ _ _) in *.
  assert (S1 : Soup.size soup1 = ss) by done.
  constructor.
  - exact Hsz.
  - exact Hmin.
  - change (Forall (block_ok ss)
      (Soup.free_blocks soup1 ++ (alter (Cell.set_md None) cell (Sim.cells s) ≫= cell_intervals))).
    apply Forall_app. split; [apply (D 0); fold ss; lia|].
    apply cells_alter_blocks; [done|]. intros c' Hc'. rewrite Hv in Hc'. injection Hc' as <-.
    unfold cell_intervals. simpl. rewrite Halive.
    constructor; [exact Hmm|constructor].
  - intros a Ha.
    change (covering ss
      (Soup.free_blocks soup1 ++ (alter (Cell.set_md None) cell (Sim.cells s) ≫= cell_intervals)) a
      = 1%nat).
    specialize (Hcover a Ha). unfold cover_count, intervals in Hcover.
    rewrite covering_app in *. unfold ss in *.
    destruct (D a Ha) as (_ & _ & E). rewrite E.
    pose proof (cells_alter_covering (Soup.size (Sim.soup s)) _ _ _ (Cell.set_md None) a Hv) as Ec.
    assert (E1 : cell_intervals c = [region_pair (Cell.mm c); region_pair md])
      by (unfold cell_intervals; by rewrite Halive, Hmd).
    assert (E2 : cell_intervals (Cell.set_md None c) = [region_pair (Cell.mm c)])
      by (unfold cell_intervals; simpl; by rewrite Halive).
    rewrite E1, E2 in Ec. unfold region_pair in Ec.
    rewrite !covering_cons, covering_nil in Ec.
    rewrite !covering_cons, covering_nil. lia.
  - intros w Hw. destruct (Hq w Hw) as (cw & Hcw & Hal).
    destruct (decide (w = cell)) as [->|Hne].
    + exists (Cell.set_md None c). split; [|done].
      change (alter (Cell.set_md None) cell (Sim.cells s) !! cell = Some (Cell.set_md None c)).
      by rewrite list_lookup_alter_eq, Hv.
    + exists cw. split; [|done].
      change (alter (Cell.set_md None) cell (Sim.cells s) !! w = Some cw).
      by rewrite list_lookup_alter_ne.
  - exact Hnd.
Qed.

(** Taking a block from the free list for the daughter of a creature that
    is alive and has none. *)
Lemma commit_md_inv cell s c size mode hint tol g0 p sz soup' g :
  partition_inv s -> Sim.cells s !! cell = Some c -> Cell.alive c = true ->
  Cell.md c = None -> 0 < size ->
  Soup.allocate (Sim.soup s) size mode hint tol g0 = (Some (p, sz), soup', g) ->
  partition_inv
    (Sim.upd_cell cell (Cell.set_md (Some (MemRegion.mk p sz)))
       (Sim.set_rng g (Sim.set_soup soup' s))).
Proof.
  intros [Hsz Hmin Hblocks Hcover Hq Hnd] Hv Halive Hmd Hsize Halloc.
  unfold intervals in Hblocks. apply Forall_app in Hblocks as [Hfb Hcb].
  pose proof (fun a Ha => allocate_inv _ _ _ _ _ _ _ _ _ _ a Hfb Hsize Ha Halloc) as A.
  cbv zeta in A.
  destruct (A 0 ltac:(lia)) as (_ & S1 & Hb & Hfb' & _).
  pose proof (cells_lookup_blocks _ _ _ _ Hcb Hv) as Hc.
  constructor.
  - change (0 < Soup.size soup'). by rewrite S1.
  - exact Hmin.
  - change (Forall (block_ok (Soup.size soup'))
      (Soup.free_blocks soup'
       ++ (alter (Cell.set_md (Some (MemRegion.mk p sz))) cell (Sim.cells s) ≫= cell_intervals))).
    rewrite S1. apply Forall_app. split; [done|].
    apply cells_alter_blocks; [done|]. intros c' Hc'. rewrite Hv in Hc'. injection Hc' as <-.
    unfold cell_intervals in *. simpl. rewrite Halive in *.
    apply Forall_cons in Hc as [Hmm _].
    constructor; [exact Hmm|]. constructor; [exact Hb|constructor].
  - change (forall a, 0 <= a < Soup.size soup' ->
      covering (Soup.size soup')
        (Soup.free_blocks soup'
         ++ (alter (Cell.set_md (Some (MemRegion.mk p sz))) cell (Sim.cells s) ≫= cell_intervals)) a
      = 1%nat).
    rewrite S1. intros a Ha.
    specialize (Hcover a Ha). unfold cover_count, intervals in Hcover.
    rewrite covering_app in *.
    destruct (A a Ha) as (_ & _ & _ & _ & E).
    pose proof (cells_alter_covering (Soup.size (Sim.soup s)) _ _ _
                  (Cell.set_md (Some (MemRegion.mk p sz))) a Hv) as Ec.
    assert (E1 : cell_intervals c = [region_pair (Cell.mm c)])
      by (unfold cell_intervals; by rewrite Halive, Hmd).
    assert (E2 : cell_intervals (Cell.set_md (Some (MemRegion.mk p sz)) c)
                 = [region_pair (Cell.mm c); (p, sz)])
      by (unfold cell_intervals; simpl; by rewrite Halive).
    rewrite E1, E2 in Ec. unfold region_pair in Ec.
    rewrite !covering_cons, covering_nil in Ec.
    rewrite !covering_cons, covering_nil in E. lia.
  - intros w Hw. destruct (Hq w Hw) as (cw & Hcw & Hal).
    destruct (decide (w = cell)) as [->|Hne].
    + exists (Cell.set_md (Some (MemRegion.mk p sz)) c). split; [|done].
      change (alter (Cell.set_md (Some (MemRegion.mk p sz))) cell (Sim.cells s) !! cell
              = Some (Cell.set_md (Some (MemRegion.mk p sz)) c)).
      by rewrite list_lookup_alter_eq, Hv.
    + exists cw. split; [|done].
      change (alter (Cell.set_md (Some (MemRegion.mk p sz))) cell (Sim.cells s) !! w = Some cw).
      by rewrite list_lookup_alter_ne.
  - exact Hnd.
Qed.

Lemma later_upd_cell v f s :
  (forall c, Cell.alive (f c) = Cell.alive c) -> later s (Sim.upd_cell v f s).
Proof. intros Hf. apply later_alive. simpl. by apply alive_alter. Qed.

Lemma mal_keeps_for cell : keeps_for cell (Instructions.mal cell).
Proof.
  intros s. remember (state_of (Instructions.mal cell s)) as s' eqn:Hs'.
  unfold Instructions.mal in Hs'. rewrite state_of_bind in Hs'.
  unfold get in Hs' at 1. cbv beta iota zeta in Hs'.
  set (size := CPU.cx (Sim.cpu s cell)) in *.
  destruct (size <? Config.min_cell_size (Sim.config s)) eqn:Hlow.
  { subst s'. apply keeps_keeps_for, frames_keeps, frames_set_e. }
  destruct (size >? MemRegion.size (Sim.mm s cell) * 2).
  { subst s'. apply keeps_keeps_for, frames_keeps, frames_set_e. }
  change (false || false) with false in Hs'. cbv iota in Hs'.
  rewrite state_of_bind in Hs'.
  set (s1 := match Sim.md s cell with
             | Some md => Sim.upd_cell cell (Cell.set_md None)
                 (Sim.set_soup (Soup.deallocate (Sim.soup s) (MemRegion.pos md) (MemRegion.size md)) s)
             | None => s
             end).
  assert (E1 : match Sim.md s cell with
               | Some md =>
                 modify (fun s => Sim.upd_cell cell (Cell.set_md None)
                   (Sim.set_soup (Soup.deallocate (Sim.soup s) (MemRegion.pos md) (MemRegion.size md)) s))
               | None => ret tt
               end s = Ok tt s1).
  { subst s1. by destruct (Sim.md s cell). }
  rewrite E1 in Hs'. clear E1.
  assert (L1 : later s s1).
  { subst s1. destruct (Sim.md s cell); [|apply later_refl].
    eapply later_trans; [|by apply later_upd_cell]. by apply later_alive. }
  assert (I1 : partition_inv s -> is_alive s cell ->
               partition_inv s1
               /\ exists c1, Sim.cells s1 !! cell = Some c1 /\ Cell.alive c1 = true
                             /\ Cell.md c1 = None).
  { intros Hinv (c & Hc & Hal). subst s1. unfold Sim.md, Sim.cell. rewrite Hc. simpl.
    destruct (Cell.md c) as [md|] eqn:Hmd.
    - split; [by eapply release_md_inv|].
      exists (Cell.set_md None c). split; [|done].
      change (alter (Cell.set_md None) cell (Sim.cells s) !! cell = Some (Cell.set_md None c)).
      by rewrite list_lookup_alter_eq, Hc.
    - split; [done|]. by exists c. }
  clearbody s1.
  match type of Hs' with
  | _ = state_of (bind _ (fun result => bind _ ?K) _) => set (K0 := K) in Hs'
  end.
  assert (KN : forall x, shape (state_of (K0 None x)) = shape x).
  { intros x. apply frames_set_e. }
  assert (KS : forall p sz x,
             shape (state_of (K0 (Some (p, sz)) x))
             = shape (Sim.upd_cell cell (Cell.set_md (Some (MemRegion.mk p sz))) x)
             /\ later x (state_of (K0 (Some (p, sz)) x))).
  { intros p sz x. subst K0. cbv beta iota.
    cbv beta iota delta [bind modify Instructions.set_e state_of].
    split.
    - rewrite !shape_upd_cpu, shape_upd_d, shape_upd_cpu. done.
    - apply (later_trans _ (Sim.upd_cell cell (Cell.set_md (Some (MemRegion.mk p sz))) x));
        [by apply later_upd_cell|].
      apply later_shape. rewrite !shape_upd_cpu, shape_upd_d, shape_upd_cpu. done. }
  clearbody K0.
  assert (AL : forall x, exists r x2,
             Instructions.m_allocate size x = Ok r x2
             /\ Sim.cells x2 = Sim.cells x
             /\ (r = None -> shape x2 = shape x)
             /\ later x (state_of (K0 r x2))
             /\ (0 < size -> partition_inv x ->
                 (exists c, Sim.cells x !! cell = Some c /\ Cell.alive c = true
                            /\ Cell.md c = None) ->
                 partition_inv (state_of (K0 r x2)))).
  { intros x. unfold Instructions.m_allocate.
    destruct (Soup.allocate _ _ _ _ _ _) as [[r soup'] g] eqn:Halloc.
    eexists _, _. split; [reflexivity|]. split; [done|].
    destruct r as [[p sz]|].
    - split; [done|]. split.
      + eapply later_trans; [|apply KS]. by apply later_alive.
      + intros Hsize Hinv (c & Hc & Hal & Hmd).
        eapply partition_inv_shape; [apply KS|]. by eapply commit_md_inv.
    - apply allocate_none in Halloc as ->.
      assert (Hsh : shape (Sim.set_rng g (Sim.set_soup (Sim.soup x) x)) = shape x) by done.
      split; [done|]. split.
      + eapply later_trans; apply later_shape; [exact Hsh|apply KN].
      + intros _ Hinv _. eapply partition_inv_shape; [apply KN|].
        by eapply partition_inv_shape. }
  rewrite state_of_bind in Hs'.
  destruct (AL s1) as (r & s2 & E2 & C2 & N2 & L2 & I2). rewrite E2 in Hs'.
  rewrite state_of_bind in Hs'.
  destruct r as [b|].
  { unfold ret in Hs'. subst s'. split; [by eapply later_trans|].
    intros Hinv Hal _. destruct (I1 Hinv Hal) as [Hinv1 Hc1].
    apply I2; [|done|done].
    destruct Hinv as [_ Hmin _ _ _ _]. apply Z.ltb_ge in Hlow. lia. }
  specialize (N2 eq_refl). clear L2 I2.
  unfold bind at 1, get in Hs'. cbv beta iota in Hs'.
  destruct (Sim.reaper s2) as [rp|] eqn:Hrp.
  2: { unfold ret in Hs'. subst s'.
       split.
       - eapply later_trans; [done|]. eapply later_trans; apply later_shape; [exact N2|apply KN].
       - intros Hinv Hal _. destruct (I1 Hinv Hal) as [Hinv1 _].
         eapply partition_inv_shape; [apply KN|]. by eapply partition_inv_shape. }
  unfold bind in Hs'.
  pose proof (reap_reaps (-1) s2) as R3.
  assert (L2 : later s s2).
  { eapply later_trans; [done|]. by apply later_shape. }
  destruct (Reaper.reap (-1) s2) as [o s3|e s3]; simpl in R3.
  2: { subst s'. split.
       - eapply later_trans; [done|]. by apply reaps_later.
       - intros Hinv Hal _. destruct (I1 Hinv Hal) as [Hinv1 _].
         apply R3. by eapply partition_inv_shape. }
  destruct (AL s3) as (r3 & s4 & E4 & C4 & N4 & L4 & I4). rewrite E4 in Hs'. subst s'.
  assert (L3 : later s s3).
  { eapply later_trans; [done|]. by apply reaps_later. }
  split; [by eapply later_trans|].
  intros Hinv Hal Hal'. destruct (I1 Hinv Hal) as (Hinv1 & c1 & Hc1 & Hal1 & Hmd1).
  apply I4.
  - destruct Hinv as [_ Hmin _ _ _ _]. apply Z.ltb_ge in Hlow. lia.
  - apply R3. by eapply partition_inv_shape.
  - assert (Hal3 : is_alive s3 cell).
    { apply L4; [|done]. apply is_alive_lt in Hal. destruct L3. lia. }
    destruct Hal3 as (c3 & Hc3 & Hal3). exists c3. split; [done|]. split; [done|].
    destruct R3 as (_ & S3 & _). destruct (S3 cell c3 Hc3 Hal3) as (c2 & Hc2 & Er).
    rewrite C2, Hc1 in Hc2. injection Hc2 as <-.
    unfold regions in Er. injection Er as _ Emd _. congruence.
Qed.

(** *** [divide] *)

Lemma register_regions gb c soup : regions (GeneBank.register gb c soup).2 = regions c.
Proof.
  unfold GeneBank.register.
  destruct (SizeClass.genotypes _ !! _); [done|].
  by destruct (SizeClass.next_name _ _).
Qed.

(** The daughter block becomes the mother block of a new creature. *)
Lemma divide_commit_inv cell x c md y f d :
  partition_inv x -> Sim.cells x !! cell = Some c -> Cell.alive c = true ->
  Cell.md c = Some md ->
  Soup.size (Sim.soup y) = Soup.size (Sim.soup x) ->
  Soup.free_blocks (Sim.soup y) = Soup.free_blocks (Sim.soup x) ->
  Config.min_cell_size (Sim.config y) = Config.min_cell_size (Sim.config x) ->
  Sim.cells y = alter f cell (Sim.cells x) ++ [d] ->
  regions (f c) = (Cell.mm c, None, true) ->
  regions d = (md, None, true) ->
  Sim.reaper_queue y = match Sim.reaper x with
                       | Some _ => Sim.reaper_queue x ++ [length (Sim.cells x)]
                       | None => Sim.reaper_queue x
                       end ->
  partition_inv y.
Proof.
  intros [Hsz Hmin Hblocks Hcover Hq Hnd] Hv Halive Hmd Es Ef Em Ec Hf Hd Eq.
  unfold intervals in Hblocks. apply Forall_app in Hblocks as [Hfb Hcb].
  pose proof (cells_lookup_blocks _ _ _ _ Hcb Hv) as Hc.
  assert (E1 : cell_intervals c = [region_pair (Cell.mm c); region_pair md])
    by (unfold cell_intervals; by rewrite Halive, Hmd).
  assert (E2 : cell_intervals (f c) = [region_pair (Cell.mm c)]).
  { unfold regions in Hf. injection Hf as F1 F2 F3.
    unfold cell_intervals. by rewrite F1, F2, F3. }
  assert (E3 : cell_intervals d = [region_pair md]).
  { unfold regions in Hd. injection Hd as F1 F2 F3.
    unfold cell_intervals. by rewrite F1, F2, F3. }
  rewrite E1 in Hc. apply Forall_cons in Hc as [Hmm Hb]. apply Forall_cons in Hb as [Hb _].
  assert (Ei : intervals y
               = Soup.free_blocks (Sim.soup x)
                 ++ (alter f cell (Sim.cells x) ≫= cell_intervals) ++ [region_pair md]).
  { unfold intervals. by rewrite Ef, Ec, bind_app, bind_cons, E3. }
  assert (Hlt : forall w, is_alive x w -> is_alive y w /\ (w < length (Sim.cells x))%nat).
  { intros w (cw & Hcw & Hal). pose proof (lookup_lt_Some _ _ _ Hcw) as Hlt.
    split; [|done]. unfold is_alive. rewrite Ec.
    rewrite lookup_app_l by (by rewrite length_alter).
    destruct (decide (w = cell)) as [->|Hne].
    - exists (f c). rewrite list_lookup_alter_eq, Hv. split; [done|].
      unfold regions in Hf. by injection Hf as _ _ ->.
    - exists cw. by rewrite list_lookup_alter_ne. }
  constructor; rewrite ?Es, ?Em; unfold cover_count; rewrite ?Es, ?Ei.
  - done.
  - done.
  - apply Forall_app. split; [done|]. apply Forall_app. split.
    + apply cells_alter_blocks; [done|]. intros c' Hc'. rewrite Hv in Hc'.
      injection Hc' as <-. rewrite E2. by constructor.
    + by constructor.
  - intros a Ha. specialize (Hcover a Ha). unfold cover_count, intervals in Hcover.
    rewrite !covering_app in *.
    pose proof (cells_alter_covering (Soup.size (Sim.soup x)) _ _ _ f a Hv) as Eca.
    rewrite E1, E2 in Eca. rewrite !covering_cons, covering_nil in *. lia.
  - rewrite Eq. intros w Hw. destruct (Sim.reaper x); [|by apply Hlt, Hq].
    apply elem_of_app in Hw as [Hw|Hw]; [by apply Hlt, Hq|].
    apply list_elem_of_singleton in Hw as ->. exists d. split.
    + rewrite Ec, lookup_app_r by (by rewrite length_alter).
      by rewrite length_alter, Nat.sub_diag.
    + unfold regions in Hd. by injection Hd as _ _ ->.
  - rewrite Eq. destruct (Sim.reaper x); [|done].
    apply NoDup_app. split; [done|]. split; [|apply NoDup_singleton].
    intros w Hw ->%list_elem_of_singleton. apply Hq, Hlt in Hw. lia.
Qed.

Lemma later_grow x y f v d :
  (forall c, Cell.alive (f c) = Cell.alive c) ->
  Sim.cells y = alter f v (Sim.cells x) ++ [d] -> later x y.
Proof.
  intros Hf Ec. split.
  - rewrite Ec, length_app, length_alter. lia.
  - intros w Hw (c' & Hc' & Hal). rewrite Ec in Hc'.
    rewrite lookup_app_l in Hc' by (by rewrite length_alter).
    destruct (decide (w = v)) as [->|Hne].
    + rewrite list_lookup_alter_eq in Hc'. apply fmap_Some in Hc' as (c & Hc & ->).
      exists c. by rewrite <- Hf.
    + rewrite list_lookup_alter_ne in Hc' by done. by exists c'.
Qed.

Lemma frames_keeps_alive cell {A} (m : M A) s :
  frames m ->
  later s (state_of (m s))
  /\ (partition_inv s -> is_alive s cell -> partition_inv (state_of (m s))).
Proof. intros H. destruct (frames_keeps m H s). split; auto. Qed.

(** [divide] keeps the invariant: the daughter block of the mother becomes
    the mother block of the daughter. *)
Lemma divide_keeps cell s :
  later s (state_of (Instructions.divide cell s))
  /\ (partition_inv s -> is_alive s cell ->
      partition_inv (state_of (Instructions.divide cell s))).
Proof.
  remember (state_of (Instructions.divide cell s)) as s' eqn:Hs'.
  unfold Instructions.divide in Hs'. rewrite state_of_bind in Hs'.
  unfold get in Hs' at 1. cbv beta iota zeta in Hs'.
  destruct (Sim.md s cell) as [md|] eqn:Hmd.
  2: { subst s'. apply frames_keeps_alive, frames_set_e. }
  destruct (MemRegion.size md <? _).
  { subst s'. apply frames_keeps_alive, frames_set_e. }
  destruct (Demographics.mov_daught _ <? _).
  { subst s'. apply frames_keeps_alive, frames_set_e. }
  destruct (negb _ && negb _).
  { subst s'. apply frames_keeps_alive, frames_set_e. }
  rewrite state_of_bind in Hs'.
  assert (G : frames (if Sim.mutations s then Mutations.genetic_ops cell else ret tt)).
  { destruct (Sim.mutations s); [apply frames_genetic_ops|apply frames_ret]. }
  specialize (G s).
  destruct ((if Sim.mutations s then Mutations.genetic_ops cell else ret tt) s)
    as [[] x|e x]; simpl in G.
  2: { subst s'. split; [by apply later_shape|]. intros Hinv _.
       by eapply partition_inv_shape. }
  rewrite state_of_bind in Hs'. unfold get in Hs' at 1. cbv beta iota zeta in Hs'.
  set (dcell := Cell.set_d _ _) in Hs'.
  assert (Hdcell : regions dcell = (md, None, true)) by (by destruct md).
  clearbody dcell.
  rewrite state_of_bind in Hs'. unfold modify in Hs' at 1. cbv beta iota in Hs'.
  rewrite state_of_bind in Hs'.
  match type of Hs' with
  | _ = match ?m ?x1 with _ => _ end =>
    assert (EG : exists x2 d', m x1 = Ok tt x2 /\ Sim.cells x2 = Sim.cells x ++ [d']
                 /\ regions d' = (md, None, true)
                 /\ Sim.soup x2 = Sim.soup x /\ Sim.config x2 = Sim.config x
                 /\ Sim.reaper x2 = Sim.reaper x)
  end.
  { destruct (Sim.genebank x) as [gb|]; [|by exists (Sim.set_cells (Sim.cells x ++ [dcell]) x), dcell].
    pose proof (register_regions gb dcell (Sim.soup x)) as Hreg.
    destruct (GeneBank.register gb dcell (Sim.soup x)) as [[gt gb'] d']. simpl in Hreg.
    assert (Ealt : alter (fun _ => d') (length (Sim.cells x)) (Sim.cells x ++ [dcell])
                   = Sim.cells x ++ [d']).
    { rewrite alter_app_r_alt by lia. by rewrite Nat.sub_diag. }
    unfold bind, modify.
    destruct (match GeneBank.arena gb' !! gt with Some g => _ | None => false end);
      eexists _, d'; (split; [reflexivity|]); simpl; rewrite Ealt;
      repeat split; congruence. }
  destruct EG as (x2 & d' & EG & Ec2 & Hd' & Es2 & Ecfg2 & Er2).
  rewrite EG in Hs'. clear EG.
  cbv beta iota delta [bind modify Instructions.set_e state_of] in Hs'.
  set (f := fun c : Cell.t =>
    Cell.set_cpu (CPU.set_flag_e false (Cell.cpu c))
      (Cell.set_d
         (Demographics.set_rep_inst 0
            (Demographics.set_mov_off_max 0
               (Demographics.set_mov_off_min 0
                  (Demographics.set_mov_daught 0
                     (Demographics.set_fecundity
                        (Demographics.fecundity (Cell.d c) + 1) (Cell.d c))))))
         (Cell.set_md None c))).
  assert (Hf : forall c, regions (f c) = (Cell.mm c, None, Cell.alive c)) by done.
  assert (Hproj : Sim.soup s' = Soup.add_owner (Sim.soup x) (length (Sim.cells x))
                                  (Sim.mm x2 (length (Sim.cells x)))
                  /\ Sim.config s' = Sim.config x
                  /\ Sim.cells s' = alter f cell (Sim.cells x2)
                  /\ Sim.reaper_queue s'
                     = match Sim.reaper x with
                       | Some _ => Sim.reaper_queue x ++ [length (Sim.cells x)]
                       | None => Sim.reaper_queue x
                       end).
  { subst s'. unfold Reaper.add, Sim.reaper_queue. simpl. rewrite ?Er2, ?Es2, ?Ecfg2.
    destruct (Sim.reaper x); simpl; rewrite ?Ecfg2, ?Er2;
      (split; [done|]); (split; [done|]); (split; [|done]).
    all: unfold f; rewrite !list_alter_alter_eq; done. }
  clear Hs'. destruct Hproj as (Esoup & Ecfg & Ecells & Equeue).
  assert (Hlt : is_alive s cell -> (cell < length (Sim.cells x))%nat).
  { intros Hal. apply is_alive_lt in Hal.
    unfold shape in G. injection G as _ _ G _ _.
    apply (f_equal length) in G. rewrite !length_fmap in G. lia. }
  assert (Ecells' : forall c, Sim.cells x !! cell = Some c ->
                      Sim.cells s' = alter f cell (Sim.cells x) ++ [d']).
  { intros c Hc. rewrite Ecells, Ec2. apply alter_app_l. by apply lookup_lt_Some in Hc. }
  split.
  - eapply later_trans; [by apply later_shape|]. split.
    + rewrite Ecells, length_alter, Ec2, length_app. lia.
    + intros w Hw (c' & Hc' & Hal). rewrite Ecells in Hc'.
      destruct (decide (w = cell)) as [->|Hne].
      * rewrite list_lookup_alter_eq, Ec2, lookup_app_l in Hc' by done.
        apply fmap_Some in Hc' as (c & Hc & ->). by exists c.
      * rewrite list_lookup_alter_ne, Ec2, lookup_app_l in Hc' by done. by exists c'.
  - intros Hinv Hal.
    assert (Hinvx : partition_inv x) by (by eapply partition_inv_shape).
    assert (Halx : is_alive x cell).
    { eapply regions_is_alive; [|done]. unfold shape in G. by injection G as _ _ -> _ _. }
    destruct Halx as (c & Hc & Halc).
    assert (Hmdc : Cell.md c = Some md).
    { destruct Hal as (c0 & Hc0 & _). unfold Sim.md, Sim.cell in Hmd. rewrite Hc0 in Hmd.
      simpl in Hmd. unfold shape in G. injection G as _ _ G _ _.
      apply (f_equal (fun l => l !! cell)) in G. rewrite !list_lookup_fmap, Hc, Hc0 in G.
      simpl in G. unfold regions in G. injection G as _ G _. congruence. }
    eapply (divide_commit_inv cell x c md s' f d'); try done.
    + by rewrite Esoup.
    + by rewrite Esoup.
    + by rewrite Ecfg.
    + by apply (Ecells' c).
    + by rewrite Hf, Halc.
Qed.

Lemma divide_keeps_for cell : keeps_for cell (Instructions.divide cell).
Proof. intros s. destruct (divide_keeps cell s). split; auto. Qed.

(** *** The dispatch table, disturbances and one executed instruction *)

Lemma frames_keeps_for cell {A} (m : M A) : frames m -> keeps_for cell m.
Proof. intros H. by apply keeps_keeps_for, frames_keeps. Qed.

Lemma INSTRUCTIONS_keeps_for opcode cell :
  keeps_for cell (Instructions.INSTRUCTIONS opcode cell).
Proof.
  destruct (frames_arith cell)
    as (F0 & F1 & F2 & F3 & F4 & F5 & F6 & F7 & F8 & F9 & F10 & F11 & F12).
  unfold Instructions.INSTRUCTIONS.
  repeat match goal with
         | |- context [match ?p with _ => _ end] => destruct p
         end;
    first [ apply mal_keeps_for | apply divide_keeps_for | apply frames_keeps_for ];
    first [ assumption | apply frames_push_reg | apply frames_pop_reg | apply frames_jump
          | apply frames_call | apply frames_ret_ | apply frames_movii | apply frames_adr ].
Qed.

Lemma frames_inv {A} (m : M A) s :
  frames m -> partition_inv s -> partition_inv (state_of (m s)).
Proof. intros H. by apply partition_inv_shape. Qed.

(** Every instruction but [mal] keeps the invariant. *)
Lemma INSTRUCTIONS_inv opcode cell s :
  opcode <> 30 -> partition_inv s -> is_alive s cell ->
  partition_inv (state_of (Instructions.INSTRUCTIONS opcode cell s)).
Proof.
  intros Hne Hinv Hal.
  destruct (frames_arith cell)
    as (F0 & F1 & F2 & F3 & F4 & F5 & F6 & F7 & F8 & F9 & F10 & F11 & F12).
  revert Hne. unfold Instructions.INSTRUCTIONS.
  repeat match goal with
         | |- context [match ?p with _ => _ end] => destruct p
         end;
    intros Hne; try (contradict Hne; reflexivity);
    first [ by apply divide_keeps | apply frames_inv; [|exact Hinv] ];
    first [ assumption | apply frames_push_reg | apply frames_pop_reg | apply frames_jump
          | apply frames_call | apply frames_ret_ | apply frames_movii | apply frames_adr ].
Qed.

Lemma disturbance_loop_reaps n current_cell killed s :
  reaps s (Reaper.disturbance_loop n current_cell killed s).2.
Proof.
  revert killed s. induction n as [|n IH]; intros killed s; simpl; [apply reaps_refl|].
  destruct (_ <=? _)%nat; [apply reaps_refl|].
  destruct (Random.randint _ _ _) as [r g].
  assert (Hg : reaps s (Sim.set_rng g s)) by (by apply reaps_shape).
  destruct (Sim.reaper_queue s !! _) as [victim|] eqn:Hv; [|done].
  destruct (Reaper.is_cell victim current_cell).
  - eapply reaps_trans; [exact Hg|apply IH].
  - eapply reaps_trans; [exact Hg|]. eapply reaps_trans; [|apply IH].
    apply reap_cell_reaps. by apply list_elem_of_lookup_2 in Hv.
Qed.

Lemma disturbance_reaps s : reaps s (Reaper.disturbance s).2.
Proof.
  unfold Reaper.disturbance. destruct (Sim.reaper_queue s); [apply reaps_refl|].
  destruct (Scheduler.current _) as [current_cell sched].
  eapply reaps_trans; [|apply disturbance_loop_reaps]. by apply reaps_shape.
Qed.

Lemma shape_schedule_next_disturbance avg_size s :
  shape (Simulation._schedule_next_disturbance avg_size s) = shape s.
Proof.
  unfold Simulation._schedule_next_disturbance.
  destruct (_ || _); [done|]. destruct (float_lt _ _); by destruct (_ <=? 0).
Qed.

Lemma do_disturbance_reaps s : reaps s (Simulation._do_disturbance s).
Proof.
  unfold Simulation._do_disturbance. destruct (Sim.reaper s); [|apply reaps_refl].
  destruct (negb _); [|apply reaps_refl].
  pose proof (disturbance_reaps s) as H.
  destruct (Reaper.disturbance s) as [killed s1]. simpl in H.
  eapply reaps_trans; [exact H|]. apply reaps_shape, shape_schedule_next_disturbance.
Qed.

Lemma reaps_keeps f : (forall s, reaps s (f s)) -> keeps (modify f).
Proof.
  intros H s. simpl. split; [apply reaps_later, H|apply H].
Qed.

(** One executed instruction keeps the invariant, unless the creature that
    executes it does not live through it. *)
Lemma step_keeps_for cell : keeps_for cell (Simulation.step cell).
Proof.
  unfold Simulation.step.
  apply keeps_for_bind; [apply frames_keeps_for, frames_get|intros s].
  destruct (negb _).
  { apply frames_keeps_for. frames_tac. }
  apply keeps_for_bind; [apply frames_keeps_for; frames_tac|intros _].
  apply keeps_for_bind; [apply INSTRUCTIONS_keeps_for|intros _].
  apply keeps_for_bind; [apply frames_keeps_for; frames_tac|intros _].
  apply keeps_for_bind; [apply frames_keeps_for; frames_tac|intros _].
  apply keeps_for_bind; [apply frames_keeps_for, frames_get|intros s1].
  apply keeps_for_bind.
  { apply frames_keeps_for. pose proof frames_background_mutation. frames_tac. }
  intros _.
  apply keeps_for_bind; [apply frames_keeps_for, frames_get|intros s2].
  destruct (_ && _); [|apply frames_keeps_for, frames_ret].
  apply keeps_keeps_for, reaps_keeps, do_disturbance_reaps.
Qed.

Lemma run_slice_loop_keeps_for n cell : keeps_for cell (Simulation.run_slice_loop n cell).
Proof.
  induction n as [|n IH]; simpl; [apply frames_keeps_for, frames_ret|].
  apply keeps_for_bind; [apply frames_keeps_for, frames_get|intros s].
  destruct (negb _); [apply frames_keeps_for, frames_ret|].
  apply keeps_for_bind; [apply step_keeps_for|intros _; apply IH].
Qed.

(** The lazy check on a creature that is alive. *)
Lemma check_lazy_inv cell s :
  partition_inv s -> is_alive s cell -> partition_inv (Reaper.check_lazy cell s).2.
Proof.
  intros Hinv (c & Hc & Hal). unfold Reaper.check_lazy.
  destruct (_ <=? 0); [done|]. destruct (_ >? 0); [|done].
  destruct (_ >? _); [|done]. simpl. by eapply reap_cell_inv.
Qed.

(** *** [boot] *)

Lemma shape_update_rates avg_size num_cells s :
  shape (Mutations.update_rates avg_size num_cells s) = shape s.
Proof. done. Qed.

(** A soup with one creature, and the rest of the soup free on its two
    sides. *)
Lemma single_creature_inv y c pos len :
  0 < Config.min_cell_size (Sim.config y) ->
  0 <= pos -> 0 < len -> pos + len <= Soup.size (Sim.soup y) ->
  Soup.free_blocks (Sim.soup y)
  = (if 0 <? pos then [(0, pos - 0)] else [])
    ++ (if 0 + Soup.size (Sim.soup y) - (pos + len) >? 0
        then [(pos + len, 0 + Soup.size (Sim.soup y) - (pos + len))] else [])
    ++ [] ->
  Sim.cells y = [c] -> regions c = (MemRegion.mk pos len, None, true) ->
  Sim.reaper_queue y = [O] ->
  partition_inv y.
Proof.
  intros Hmin Hpos Hlen Hend Ef Ec Hc Eq.
  set (ss := Soup.size (Sim.soup y)) in *.
  assert (Ei : cell_intervals c = [(pos, len)]).
  { unfold regions in Hc. injection Hc as F1 F2 F3.
    unfold cell_intervals. by rewrite F1, F2, F3. }
  assert (Hint : intervals y
                 = (if 0 <? pos then [(0, pos - 0)] else [])
                   ++ (if 0 + ss - (pos + len) >? 0
                       then [(pos + len, 0 + ss - (pos + len))] else [])
                   ++ [(pos, len)]).
  { unfold intervals. rewrite Ef, Ec. simpl. rewrite Ei. by rewrite !app_nil_r, <- app_assoc. }
  constructor; unfold cover_count; fold ss; rewrite ?Hint.
  - lia.
  - done.
  - apply Forall_app. split; [|apply Forall_app; split].
    + destruct (Z.ltb_spec 0 pos); constructor; [|done]. unfold block_ok. simpl. lia.
    + destruct (Z.gtb_spec (0 + ss - (pos + len)) 0); constructor; [|done].
      unfold block_ok. simpl. lia.
    + constructor; [|done]. unfold block_ok. simpl. lia.
  - intros a Ha. rewrite !covering_app.
    destruct (Z.ltb_spec 0 pos), (Z.gtb_spec (0 + ss - (pos + len)) 0);
      rewrite ?covering_cons, ?covering_nil;
      rewrite ?covers_linear by (done || unfold block_ok; simpl; lia); simpl;
      repeat match goal with
             | |- context [?u <=? ?v] => destruct (Z.leb_spec u v)
             | |- context [?u <? ?v] => destruct (Z.ltb_spec u v)
             end; simpl; lia.
  - rewrite Eq. intros v ->%list_elem_of_singleton. exists c. rewrite Ec. split; [done|].
    unfold regions in Hc. by injection Hc as _ _ ->.
  - rewrite Eq. apply NoDup_singleton.
Qed.

Lemma boot_inv ambient config genome :
  0 < Config.min_cell_size config ->
  0 < Z.of_nat (length genome) <= Config.soup_size config ->
  exists s, Simulation.boot genome (Simulation.init ambient config) = Ok tt s
            /\ partition_inv s.
Proof.
  intros Hmin Hlen. unfold Simulation.boot.
  set (s0 := Simulation.init ambient config).
  set (len := Z.of_nat (length genome)) in *.
  set (ss := Config.soup_size config) in *.
  change (Config.soup_size (Sim.config s0)) with ss.
  set (pos := ss / 2 - len / 2).
  assert (Hpos : 0 <= pos /\ pos + len <= ss).
  { subst pos. pose proof (Z.div_mod ss 2 ltac:(lia)). pose proof (Z.div_mod len 2 ltac:(lia)).
    pose proof (Z.mod_pos_bound ss 2 ltac:(lia)). pose proof (Z.mod_pos_bound len 2 ltac:(lia)).
    lia. }
  assert (Hmod : pos mod ss = pos) by (apply Z.mod_small; lia).
  unfold Soup.write_block. change (Soup.size (Sim.soup s0)) with ss. rewrite Hmod.
  fold len. destruct (Z.leb_spec (pos + len) ss) as [_|]; [|lia].
  set (soup1 := Soup.set_data _ _).
  assert (Ealloc : Soup.allocate_at soup1 pos len
                   = (true, Soup.set_free_blocks
                              ((if 0 <? pos then [(0, pos - 0)] else [])
                               ++ (if 0 + ss - (pos + len) >? 0
                                   then [(pos + len, 0 + ss - (pos + len))] else [])
                               ++ []) soup1)).
  { unfold Soup.allocate_at. change (Soup.size soup1) with ss. rewrite Hmod.
    change (Soup.free_blocks soup1) with [(0, ss)]. cbn [Soup.allocate_at_blocks].
    destruct (Z.leb_spec 0 pos); [|lia].
    destruct (Z.geb_spec (0 + ss) (pos + len)); [|lia]. done. }
  rewrite Ealloc. cbn [snd].
  eexists. split; [reflexivity|].
  eapply partition_inv_shape; [apply shape_schedule_next_disturbance|].
  match goal with
  | |- partition_inv (if ?b then Mutations.update_rates ?u ?v ?y else _) =>
    apply (partition_inv_shape y); [by destruct b|]
  end.
  match goal with
  | |- partition_inv (match ?g with _ => _ end) => change g with (Some GeneBank.init)
  end.
  cbv iota.
  match goal with
  | |- context [GeneBank.register ?gb ?c ?sp] =>
    pose proof (register_regions gb c sp) as Hreg;
    destruct (GeneBank.register gb c sp) as [[gt gb'] c']
  end.
  simpl in Hreg.
  apply (single_creature_inv _ c' pos len); try done; try lia.
  apply Hpos.
Qed.

(** *** The invariant and the partition *)

Lemma partition_inv_ok s : partition_inv s -> partition_ok s = true.
Proof.
  intros Hinv. unfold partition_ok. apply Is_true_true, forallb_True, Forall_forall.
  intros a Ha%elem_of_seqZ. apply Is_true_true, Nat.eqb_eq.
  apply (inv_cover s Hinv). lia.
Qed.

(** A slice of instructions keeps the partition, unless the creature that
    executes it does not live through it. *)
Lemma run_slice_loop_partition n cell s :
  partition_inv s -> is_alive s cell ->
  is_alive (state_of (Simulation.run_slice_loop n cell s)) cell ->
  partition_ok (state_of (Simulation.run_slice_loop n cell s)) = true.
Proof.
  intros Hinv Hal Hal'. apply partition_inv_ok.
  by apply (run_slice_loop_keeps_for n cell s).
Qed.

(** After [boot] the partition holds. *)
Lemma boot_partition ambient config genome :
  0 < Config.min_cell_size config ->
  0 < Z.of_nat (length genome) <= Config.soup_size config ->
  returned (Simulation.boot genome (Simulation.init ambient config)) = true
  /\ partition_ok (state_of (Simulation.boot genome (Simulation.init ambient config))) = true.
Proof.
  intros Hmin Hlen. destruct (boot_inv ambient config genome Hmin Hlen) as (s & -> & Hinv).
  split; [done|]. by apply partition_inv_ok.
Qed.

(** The bookkeeping of the run loop leaves the shape alone. *)
Lemma shape_periodic_bookkeeping s : shape (Simulation._periodic_bookkeeping s) = shape s.
Proof.
  unfold Simulation._periodic_bookkeeping, Simulation._save_genotypes_to_disk.
  destruct (_ && _); simpl.
  all: destruct (Sim.genebank s); [|done].
  all: destruct (_ =? 0); [done|]; destruct (_ <=? 0); [done|]; by destruct (_ <? _).
Qed.

Lemma shape_sample s : shape (DataCollector.sample s) = shape s.
Proof. done. Qed.

(** Every state reached in this way satisfies the invariant, and so its
    intervals partition the soup. *)
Lemma reached_inv s : reached s -> partition_inv s.
Proof.
  induction 1 as [ambient config genome s Hmin Hlen Hboot
                 |cell s _ IH Hal Hal'|cell s _ IH Hal|addr s _ IH|s _ IH|s s' _ IH E].
  - destruct (boot_inv ambient config genome Hmin Hlen) as (s1 & E1 & Hinv). congruence.
  - by apply (step_keeps_for cell s).
  - by apply check_lazy_inv.
  - by apply reap_reaps.
  - by apply disturbance_reaps.
  - by apply (partition_inv_shape s).
Qed.

Lemma reached_partition s : reached s -> partition_ok s = true.
Proof. intros H. by apply partition_inv_ok, reached_inv. Qed.

(** ** Whole runs *)

(** C1 fails on the code: a creature of 80 bytes alone in a soup of 100
    executes [mal] for 16 bytes.  No free block is large enough, the
    reaper reaps the only creature, which is the caller, and [mal] then
    gives the dead caller the block [0, 16): the block is neither free nor
    owned by a creature that is alive.  The partition holds after [boot],
    and it is [mal] alone that loses it, when the creature that executes it
    does not live through it. *)
Theorem mal_after_self_reap_leaks :
  let booted := Simulation.boot greedy_ancestor
                  (Simulation.init (Random.of_list []) (test_config 100 25 10 0 1)) in
  let final := Simulation.run 10 100 1000000 (state_of booted) in
  returned booted = true
  /\ partition_ok (state_of booted) = true
  /\ returned final = true
  /\ Sim.events (state_of final) = [CELL_DIED O "reaper"]
  /\ alive_cells (state_of final) = []
  /\ Soup.free_blocks (Sim.soup (state_of final)) = [(16, 84)]
  /\ Sim.md (state_of final) O = Some (MemRegion.mk 0 16)
  /\ cover_count (state_of final) 0 = O
  /\ partition_ok (state_of final) = false.
Proof. vm_compute. repeat split; reflexivity. Qed.




(** * Further properties of the runtime *)

(** ** The stack of a CPU *)

(** X1 (cpu.py, [CPU.push] and [CPU.pop]): on a CPU whose stack has its ten
    slots and whose stack pointer is in range, [pop] after [push] returns the
    value pushed and brings the stack pointer back; the registers, the
    instruction pointer and the flags are as before the [push]. *)
Theorem push_pop_round_trip (c : CPU.t) (value : Z) :
  length (CPU.stack c) = Z.to_nat CPU.STACK_SIZE ->
  0 <= CPU.sp c < CPU.STACK_SIZE ->
  (CPU.pop (CPU.push value c)).1 = value
  /\ CPU.sp (CPU.pop (CPU.push value c)).2 = CPU.sp c
  /\ CPU.set_stack (CPU.stack c) (CPU.pop (CPU.push value c)).2 = c.
Proof.
  intros Hlen Hsp. unfold CPU.pop, CPU.push, CPU.STACK_SIZE in *. simpl.
  assert (Hin : 0 <= (CPU.sp c + 1) mod 10 < 10) by (apply Z.mod_pos_bound; lia).
  assert (Hback : ((CPU.sp c + 1) mod 10 - 1) mod 10 = CPU.sp c).
  { destruct (Z.eq_dec (CPU.sp c) 9) as [->|Hne]; [done|].
    rewrite (Z.mod_small (CPU.sp c + 1)) by lia.
    replace (CPU.sp c + 1 - 1) with (CPU.sp c) by lia. apply Z.mod_small. lia. }
  split; [|split].
  - rewrite list_lookup_insert_eq; [done|]. rewrite Hlen. lia.
  - exact Hback.
  - destruct c. simpl in *. by rewrite Hback.
Qed.

Lemma push_pop_round_trip_witness :
  (CPU.pop (CPU.push 7 CPU.init)).1 = 7
  /\ CPU.sp (CPU.pop (CPU.push 7 CPU.init)).2 = CPU.sp CPU.init
  /\ CPU.set_stack (CPU.stack CPU.init) (CPU.pop (CPU.push 7 CPU.init)).2 = CPU.init.
Proof. apply (push_pop_round_trip CPU.init 7); [reflexivity|simpl; unfold CPU.STACK_SIZE; lia]. Defined.

(** ** The bytes of the soup *)

Lemma soup_index (s : Soup.t) (a : Z) :
  0 < Soup.size s -> length (Soup.data s) = Z.to_nat (Soup.size s) ->
  (Z.to_nat (a mod Soup.size s) < length (Soup.data s))%nat.
Proof. intros Hs Hl. pose proof (Z.mod_pos_bound a (Soup.size s) Hs). lia. Qed.

(** X2 (soup.py, [Soup.read] and [Soup.write]): in a soup whose array has
    [size] bytes, a read after a write returns the low eight bits of the
    value written when the two addresses agree modulo the size of the soup,
    and what was there before otherwise; the write changes neither the size
    nor the free list. *)
Theorem read_after_write (s : Soup.t) (addr value addr' : Z) :
  0 < Soup.size s -> length (Soup.data s) = Z.to_nat (Soup.size s) ->
  Soup.read (Soup.write s addr value) addr'
  = (if addr' mod Soup.size s =? addr mod Soup.size s
     then Z.land value 255 else Soup.read s addr')
  /\ Soup.size (Soup.write s addr value) = Soup.size s
  /\ length (Soup.data (Soup.write s addr value)) = Z.to_nat (Soup.size s)
  /\ Soup.free_blocks (Soup.write s addr value) = Soup.free_blocks s.
Proof.
  intros Hs Hl. unfold Soup.read, Soup.write. simpl.
  pose proof (Z.mod_pos_bound addr (Soup.size s) Hs).
  pose proof (Z.mod_pos_bound addr' (Soup.size s) Hs).
  split; [|by rewrite length_insert].
  destruct (Z.eqb_spec (addr' mod Soup.size s) (addr mod Soup.size s)) as [->|Hne].
  - rewrite list_lookup_insert_eq; [done|lia].
  - rewrite list_lookup_insert_ne; [done|lia].
Qed.

Lemma read_after_write_witness :
  Soup.read (Soup.write (Soup.init 8) 11 300) 3 = 44
  /\ Soup.read (Soup.write (Soup.init 8) 11 300) 4 = 0.
Proof.
  split.
  - apply (proj1 (read_after_write (Soup.init 8) 11 300 3 ltac:(simpl; lia) eq_refl)).
  - apply (proj1 (read_after_write (Soup.init 8) 11 300 4 ltac:(simpl; lia) eq_refl)).
Defined.

Lemma slice_take_drop {A} (l : list A) (a b : Z) :
  0 <= a <= b -> slice l a b = take (Z.to_nat (b - a)) (drop (Z.to_nat a) l).
Proof. intros H. unfold slice. f_equal. lia. Qed.

(** A block written is the block read. *)
Lemma write_read_block (s : Soup.t) (addr : Z) (bytes : list Z) :
  0 < Soup.size s -> length (Soup.data s) = Z.to_nat (Soup.size s) ->
  Z.of_nat (length bytes) <= Soup.size s ->
  exists s', Soup.write_block s addr bytes = Some s'
             /\ Soup.read_block s' addr (Z.of_nat (length bytes)) = bytes
             /\ Soup.size s' = Soup.size s
             /\ length (Soup.data s') = Z.to_nat (Soup.size s)
             /\ Soup.free_blocks s' = Soup.free_blocks s.
Proof.
  intros Hs Hl Hb. unfold Soup.write_block, Soup.read_block.
  set (ss := Soup.size s) in *. set (a := addr mod ss).
  set (len := Z.of_nat (length bytes)) in *.
  assert (Ha : 0 <= a < ss) by (apply Z.mod_pos_bound; lia).
  destruct (Z.leb_spec (a + len) ss) as [Hfit|Hwrap].
  - eexists. split; [reflexivity|]. simpl. fold ss a.
    destruct (Z.leb_spec (a + len) ss); [|lia].
    split; [|split; [done|split; [|done]]].
    + rewrite slice_take_drop by lia.
      rewrite drop_app_length' by (rewrite length_take; lia).
      replace (Z.to_nat (a + len - a)) with (length bytes) by lia.
      by rewrite take_app_length.
    + rewrite !length_app, length_take, length_drop. lia.
  - destruct (Z.leb_spec (len - (ss - a)) ss); [|lia].
    eexists. split; [reflexivity|]. simpl. fold ss a.
    destruct (Z.leb_spec (a + len) ss); [lia|].
    set (k := Z.to_nat (ss - a)). set (d1 := take (Z.to_nat a) (Soup.data s) ++ take k bytes).
    assert (Hk : (k <= length bytes)%nat) by lia.
    assert (Hd1 : length d1 = Z.to_nat ss).
    { unfold d1. rewrite length_app, !length_take. lia. }
    assert (Hnew : length (drop k bytes ++ drop (Z.to_nat (len - (ss - a))) d1) = Z.to_nat ss).
    { rewrite length_app, !length_drop. lia. }
    split; [|split; [done|split; [exact Hnew|done]]].
    rewrite <- (take_drop k bytes) at 3. f_equal.
    + rewrite slice_take_drop by lia.
      rewrite drop_app_ge by (rewrite length_drop; lia).
      rewrite length_drop, drop_drop.
      replace (Z.to_nat (len - (ss - a)) + (Z.to_nat a - (length bytes - k)))%nat
        with (Z.to_nat a) by lia.
      unfold d1. rewrite drop_app_length' by (rewrite length_take; lia).
      rewrite take_take. f_equal. lia.
    + rewrite slice_take_drop by lia. simpl. rewrite drop_0.
      rewrite take_app_le by (rewrite length_drop; lia).
      apply take_ge. rewrite length_drop. lia.
Qed.

(** X3 (soup.py, [Soup.write_block] and [Soup.read_block]): a block of at
    most [size] bytes written at any address, wrapping around the end of
    the soup included, is accepted and reads back as written. *)
Theorem write_block_read_block (s : Soup.t) (addr : Z) (bytes : list Z) :
  0 < Soup.size s -> length (Soup.data s) = Z.to_nat (Soup.size s) ->
  Z.of_nat (length bytes) <= Soup.size s ->
  exists s', Soup.write_block s addr bytes = Some s'
             /\ Soup.read_block s' addr (Z.of_nat (length bytes)) = bytes
             /\ Soup.size s' = Soup.size s
             /\ length (Soup.data s') = Z.to_nat (Soup.size s)
             /\ Soup.free_blocks s' = Soup.free_blocks s.
Proof. apply write_read_block. Qed.

Lemma write_block_read_block_witness :
  exists s', Soup.write_block (Soup.init 8) 6 [1; 2; 3; 4] = Some s'
             /\ Soup.read_block s' 6 4 = [1; 2; 3; 4]
             /\ Soup.size s' = 8
             /\ length (Soup.data s') = 8%nat
             /\ Soup.free_blocks s' = [(0, 8)].
Proof.
  apply (write_block_read_block (Soup.init 8) 6 [1; 2; 3; 4]);
    [simpl; lia|reflexivity|simpl; lia].
Defined.

(** ** The free list *)

Lemma gapped_join lo l1 l2 e lim :
  gapped lo l1 lim -> Forall (fun b => b.1 + b.2 <= e) l1 -> lo <= e ->
  gapped e l2 lim -> gapped lo (l1 ++ l2) lim.
Proof.
  revert lo. induction l1 as [|[p sz] l1 IH]; simpl; intros lo G F Hlo G2.
  - by apply (gapped_weaken e).
  - destruct G as (H1 & H2 & H3 & H4). apply Forall_cons in F as [Fp F]. simpl in Fp.
    repeat split; try done. apply IH; try done.
Qed.

Lemma gapped_inside lo bs lim : gapped lo bs lim -> Forall (fun b => lo < b.1 /\ 0 < b.2 /\ b.1 + b.2 <= lim) bs.
Proof.
  revert lo. induction bs as [|[p sz] r IH]; simpl; intros lo H; [constructor|].
  destruct H as (H1 & H2 & H3 & H4). constructor; [simpl; lia|].
  eapply Forall_impl; [apply (IH _ H4)|]. simpl. intros; lia.
Qed.

Lemma sizes_app (l1 l2 : list (Z * Z)) :
  foldr (fun b acc => b.2 + acc) 0 (l1 ++ l2)
  = foldr (fun b acc => b.2 + acc) 0 l1 + foldr (fun b acc => b.2 + acc) 0 l2.
Proof. induction l1 as [|b l1 IH]; simpl; [done|]. rewrite IH. lia. Qed.

Lemma is_free_existsb s a :
  Soup.is_free s a = existsb (fun b => in_block b (a mod Soup.size s)) (Soup.free_blocks s).
Proof. done. Qed.

Lemma existsb_in_block_false (l : list (Z * Z)) a :
  Forall (fun b => a < b.1 \/ b.1 + b.2 <= a) l -> existsb (fun b => in_block b a) l = false.
Proof.
  induction 1 as [|b l Hb _ IH]; simpl; [done|]. rewrite IH, orb_false_r.
  unfold in_block. destruct (Z.leb_spec b.1 a), (Z.ltb_spec a (b.1 + b.2)); simpl; lia || done.
Qed.

(** What a successful [allocate] hands out. *)
Lemma allocate_block_spec s size mode hint tol g p sz s' g' :
  free_list_wf s -> 0 < size ->
  Soup.allocate s size mode hint tol g = (Some (p, sz), s', g') ->
  sz = size
  /\ free_list_wf s'
  /\ Soup.total_free s' = Soup.total_free s - size
  /\ forall a, p <= a < p + size ->
       Soup.is_free s a = true /\ Soup.is_free s' a = false.
Proof.
  intros Hwf Hsize Halloc.
  apply allocate_fits in Halloc as (i & (k & b & Hi & Hk & Hb) & Htake).
  simpl in Hi. subst k. unfold Soup.take_block in Htake. rewrite Hk in Htake.
  destruct b as [q bs]. simpl in Hb. unfold free_list_wf in *.
  destruct s as [ssz dat fb own]. simpl in *.
  pose proof (take_drop_middle _ _ _ Hk) as E.
  assert (Hlen : length (take i fb) = i)
    by (apply length_take_le; apply lookup_lt_Some in Hk; lia).
  set (l1 := take i fb) in *. set (l2 := drop (S i) fb) in *.
  clearbody l1 l2. subst fb i. clear Hk.
  pose proof (gapped_app _ _ _ _ Hwf) as (G1 & e & He & G2 & F1).
  simpl in G2. destruct G2 as (Hq1 & Hq2 & Hq3 & G2).
  assert (Hmod : forall a, q <= a < q + size -> a mod ssz = a).
  { intros a Ha. apply Z.mod_small. lia. }
  assert (Hl1 : forall a, q <= a -> Forall (fun b : Z * Z => a < b.1 \/ b.1 + b.2 <= a) l1).
  { intros a Ha. eapply Forall_impl; [exact F1|]. simpl. intros; lia. }
  assert (Hl2 : forall a, a < q + bs -> Forall (fun b : Z * Z => a < b.1 \/ b.1 + b.2 <= a) l2).
  { intros a Ha. eapply Forall_impl; [apply (gapped_lower _ _ _ G2)|]. simpl. intros; lia. }
  assert (Hfree : forall a, q <= a < q + size ->
            existsb (fun b => in_block b a) (l1 ++ (q, bs) :: l2) = true).
  { intros a Ha. rewrite existsb_app. simpl. unfold in_block at 2. simpl.
    destruct (Z.leb_spec q a), (Z.ltb_spec a (q + bs)); try lia;
      simpl; by rewrite ?orb_true_r. }
  destruct (Z.eqb_spec bs size) as [->|Hne]; inversion Htake; subst; clear Htake.
  - split; [done|]. rewrite delete_middle. unfold Soup.set_free_blocks. simpl.
    split; [|split].
    + eapply gapped_join; [done|done|done|]. eapply gapped_weaken; [|done]. lia.
    + unfold Soup.total_free. simpl. rewrite !sizes_app. simpl. lia.
    + intros a Ha. rewrite !is_free_existsb. cbn [Soup.size Soup.free_blocks].
      rewrite !Hmod by done.
      split; [by apply Hfree|].
      rewrite existsb_app, !existsb_in_block_false; [done|apply Hl2; lia|apply Hl1; lia].
  - split; [done|]. rewrite insert_middle. unfold Soup.set_free_blocks. simpl.
    split; [|split].
    + eapply gapped_join; [done|done|done|]. simpl.
      repeat split; try lia. eapply gapped_weaken; [|done]. lia.
    + unfold Soup.total_free. simpl. rewrite !sizes_app. simpl. lia.
    + intros a Ha. rewrite !is_free_existsb. cbn [Soup.size Soup.free_blocks].
      rewrite !Hmod by done.
      split; [by apply Hfree|]. rewrite existsb_app. simpl.
      rewrite !existsb_in_block_false; [|apply Hl2; lia|apply Hl1; lia].
      unfold in_block. simpl. destruct (Z.leb_spec (p + sz) a); [lia|done].
Qed.

(** X4 (soup.py, [Soup.allocate], [Soup.is_free], [Soup.total_free]): on a
    well-formed free list, a successful allocation of a positive number of
    bytes returns a block of exactly the requested size whose addresses
    were free and are free no longer; the free list stays well formed and
    the amount of free memory drops by the size of the block. *)
Theorem allocate_takes_free_block s size mode hint tol g p sz s' g' :
  free_list_wf s -> 0 < size ->
  Soup.allocate s size mode hint tol g = (Some (p, sz), s', g') ->
  sz = size
  /\ free_list_wf s'
  /\ Soup.total_free s' = Soup.total_free s - size
  /\ forall a, p <= a < p + size ->
       Soup.is_free s a = true /\ Soup.is_free s' a = false.
Proof. apply allocate_block_spec. Qed.

Lemma allocate_takes_free_block_witness :
  let s := Soup.mk 100 (replicate 100 0) [(0, 10); (90, 10)] [] in
  exists s',
    Soup.allocate s 4 1 (-1) (-1) (Random.of_list []) = (Some (0, 4), s', Random.of_list [])
    /\ free_list_wf s'
    /\ Soup.total_free s' = 16
    /\ Soup.is_free s 3 = true /\ Soup.is_free s' 3 = false.
Proof.
  intros s. eexists. split; [reflexivity|].
  assert (Hwf : free_list_wf s) by (unfold free_list_wf; simpl; lia).
  destruct (allocate_takes_free_block s 4 1 (-1) (-1) (Random.of_list []) 0 4 _ _
              Hwf ltac:(lia) eq_refl) as (_ & Hwf' & Htot & Hfree).
  split; [exact Hwf'|]. split; [exact Htot|]. apply (Hfree 3). lia.
Defined.

Lemma merge_prev_yes l1 c a l2 :
  c.1 + c.2 = a.1 ->
  Soup.merge_prev ((l1 ++ [c]) ++ a :: l2) (length (l1 ++ [c])) = l1 ++ (c.1, c.2 + a.2) :: l2.
Proof.
  intros H. unfold Soup.merge_prev.
  destruct (Nat.ltb_spec 0 (length (l1 ++ [c]))) as [_|Hl];
    [|rewrite length_app in Hl; simpl in Hl; lia].
  rewrite lookup_snoc_prev, list_lookup_middle by done.
  rewrite H, Z.eqb_refl.
  rewrite length_app. simpl. replace (length l1 + 1 - 1)%nat with (length l1) by lia.
  rewrite <- app_assoc. simpl.
  by rewrite insert_middle, delete_middle_next.
Qed.

Lemma split_at_position (fb : list (Z * Z)) p :
  exists l1 l2, fb = l1 ++ l2 /\ Forall (fun b : Z * Z => b.1 < p) l1
                /\ match l2 with [] => True | b :: _ => p <= b.1 end.
Proof.
  induction fb as [|b fb (l1 & l2 & -> & F & H)].
  - exists [], []. by repeat split.
  - destruct (Z.lt_ge_cases b.1 p).
    + exists (b :: l1), l2. repeat split; [by constructor|done].
    + exists [], (b :: l1 ++ l2). by repeat split.
Qed.

Lemma sizes_merge_next l i :
  foldr (fun (b : Z * Z) acc => b.2 + acc) 0 (Soup.merge_next l i)
  = foldr (fun (b : Z * Z) acc => b.2 + acc) 0 l.
Proof.
  unfold Soup.merge_next.
  destruct (_ <? _)%nat; [|done].
  destruct (l !! i) as [x|] eqn:Hx; [|done].
  destruct (l !! (i + 1)%nat) as [y|] eqn:Hy; [|done].
  destruct (Z.eqb_spec (x.1 + x.2) y.1) as [Hxy|]; [|done].
  destruct (lookup_two_split l i x y Hx Hy) as [E Hlen].
  rewrite E. set (l1 := take i l) in *. set (l2 := drop (i + 2) l) in *.
  clearbody l1 l2. clear Hx Hy E. subst i.
  rewrite insert_middle, delete_middle_next, !sizes_app. simpl. lia.
Qed.

Lemma sizes_merge_prev l i :
  foldr (fun (b : Z * Z) acc => b.2 + acc) 0 (Soup.merge_prev l i)
  = foldr (fun (b : Z * Z) acc => b.2 + acc) 0 l.
Proof.
  unfold Soup.merge_prev.
  destruct (Nat.ltb_spec 0 i) as [Hi|]; [|done].
  destruct (l !! (i - 1)%nat) as [x|] eqn:Hx; [|done].
  destruct (l !! i) as [y|] eqn:Hy; [|done].
  destruct (Z.eqb_spec (x.1 + x.2) y.1) as [Hxy|]; [|done].
  replace i with ((i - 1) + 1)%nat in Hy at 1 by lia.
  destruct (lookup_two_split l (i - 1) x y Hx Hy) as [E Hlen].
  rewrite E. set (l1 := take (i - 1) l) in *. set (l2 := drop (i - 1 + 2) l) in *.
  clearbody l1 l2. clear Hx Hy E.
  replace i with (length l1 + 1)%nat by lia.
  replace (length l1 + 1 - 1)%nat with (length l1) by lia.
  rewrite insert_middle, delete_middle_next, !sizes_app. simpl. lia.
Qed.

Lemma sizes_insert_at i b (l : list (Z * Z)) :
  foldr (fun (b : Z * Z) acc => b.2 + acc) 0 (list_insert_at i b l)
  = b.2 + foldr (fun (b : Z * Z) acc => b.2 + acc) 0 l.
Proof.
  unfold list_insert_at. rewrite <- (take_drop i l) at 3. rewrite !sizes_app. simpl. lia.
Qed.

Lemma gapped_block_ok lo bs lim : -1 <= lo -> gapped lo bs lim -> Forall (block_ok lim) bs.
Proof.
  intros Hlo G. eapply Forall_impl; [apply (gapped_inside _ _ _ G)|].
  intros b (? & ? & ?). unfold block_ok. lia.
Qed.

Lemma is_free_covering s a :
  Forall (block_ok (Soup.size s)) (Soup.free_blocks s) -> 0 <= a < Soup.size s ->
  Soup.is_free s a = negb (Nat.eqb (covering (Soup.size s) (Soup.free_blocks s) a) 0).
Proof.
  intros Hok Ha. rewrite is_free_existsb, Z.mod_small by lia.
  induction Hok as [|b l Hb _ IH]; simpl; [done|].
  rewrite covering_cons, covers_linear by done. fold (in_block b a). rewrite IH.
  by destruct (in_block b a).
Qed.

Lemma deallocate_blocks_wf fb p sz lim :
  gapped (-1) fb lim -> 0 <= p -> 0 < sz -> p + sz <= lim ->
  Forall (fun b : Z * Z => b.1 + b.2 <= p \/ p + sz <= b.1) fb ->
  gapped (-1) (Soup.deallocate_blocks fb p sz) lim.
Proof.
  intros G Hp Hsz Hlim Hdis.
  destruct (split_at_position fb p) as (l1 & l2 & -> & F & Hhead).
  unfold Soup.deallocate_blocks.
  assert (Hidx : bisect_left ((l1 ++ l2).*1) p = length l1).
  { destruct l2 as [|b l2]; [rewrite app_nil_r; by apply bisect_left_end|].
    by apply bisect_left_app. }
  rewrite Hidx, list_insert_at_length. clear Hidx.
  apply gapped_app in G as (G1 & e & He & G2 & F1).
  apply Forall_app in Hdis as [D1 D2].
  (* the new block and what follows it, after the merge with the next block *)
  assert (Hnext : exists x rest,
            Soup.merge_next (l1 ++ (p, sz) :: l2) (length l1) = l1 ++ x :: rest
            /\ x.1 = p /\ 0 < x.2 /\ x.1 + x.2 <= lim /\ gapped (x.1 + x.2) rest lim).
  { destruct l2 as [|[q sq] l2].
    - exists (p, sz), []. rewrite merge_next_no by done. simpl. repeat split; lia.
    - simpl in G2. destruct G2 as (Q1 & Q2 & Q3 & G2).
      apply Forall_cons in D2 as [D2 _]. simpl in *.
      destruct (Z.eq_dec (p + sz) q) as [Heq|Hne].
      + exists (p, sz + sq), l2. rewrite merge_next_yes by done. simpl.
        repeat split; try lia. by replace (p + (sz + sq)) with (q + sq) by lia.
      + exists (p, sz), ((q, sq) :: l2). rewrite merge_next_no by done. simpl.
        repeat split; try lia. done. }
  destruct Hnext as (x & rest & -> & Hx1 & Hx2 & Hx3 & Grest).
  destruct l1 as [|c l1 _] using rev_ind.
  - simpl. unfold Soup.merge_prev. simpl. destruct x as [xp xs]. simpl in *.
    repeat split; try lia. done.
  - apply Forall_app in F as [_ Fc]. apply Forall_cons in Fc as [Fc _].
    apply Forall_app in D1 as [_ Dc]. apply Forall_cons in Dc as [Dc _].
    apply Forall_app in F1 as [F1 Fe]. apply Forall_cons in Fe as [Fe _].
    pose proof (gapped_app _ _ _ _ G1) as (G1' & e' & He' & Gc & F1').
    destruct c as [cp cs]. simpl in Gc. destruct Gc as (C1 & C2 & C3 & _). simpl in *.
    destruct (Z.eq_dec (cp + cs) p) as [Heq|Hne].
    + rewrite merge_prev_yes by (simpl; lia). simpl.
      eapply gapped_join; [exact G1'|exact F1'|done|]. simpl.
      destruct x as [xp xs]. simpl in *. repeat split; try lia.
      by replace (cp + (cs + xs)) with (xp + xs) by lia.
    + rewrite merge_prev_no by (rewrite reverse_snoc; simpl; lia).
      rewrite <- app_assoc. simpl.
      eapply gapped_join; [exact G1'|exact F1'|done|]. simpl.
      destruct x as [xp xs]. simpl in *. repeat split; try lia. done.
Qed.

(** X5 (soup.py, [Soup.deallocate]): returning a block that lies inside the
    soup and holds no free address to a well-formed free list keeps the free
    list well formed (sorted, with neighbouring blocks merged), adds the size
    of the block to the amount of free memory, and makes free exactly the
    addresses of the block besides those that were free. *)
Theorem deallocate_returns_block s p sz :
  free_list_wf s -> 0 <= p -> 0 < sz -> p + sz <= Soup.size s ->
  (forall a, p <= a < p + sz -> Soup.is_free s a = false) ->
  free_list_wf (Soup.deallocate s p sz)
  /\ Soup.total_free (Soup.deallocate s p sz) = Soup.total_free s + sz
  /\ forall a, 0 <= a < Soup.size s ->
       Soup.is_free (Soup.deallocate s p sz) a = Soup.is_free s a || in_block (p, sz) a.
Proof.
  intros Hwf Hp Hsz Hlim Hbusy. unfold free_list_wf in *.
  assert (Hmod : p mod Soup.size s = p) by (apply Z.mod_small; lia).
  assert (Hok : Forall (block_ok (Soup.size s)) (Soup.free_blocks s))
    by (by apply (gapped_block_ok (-1))).
  assert (Hdis : Forall (fun b : Z * Z => b.1 + b.2 <= p \/ p + sz <= b.1) (Soup.free_blocks s)).
  { apply Forall_forall. intros b Hb.
    destruct (Z.le_gt_cases (b.1 + b.2) p) as [|H1]; [by left|].
    destruct (Z.le_gt_cases (p + sz) b.1) as [|H2]; [by right|]. exfalso.
    pose proof (proj1 (Forall_forall _ _) Hok b Hb) as (B1 & B2 & B3).
    assert (Ha : p <= Z.max p b.1 < p + sz) by lia.
    specialize (Hbusy _ Ha). rewrite is_free_existsb, Z.mod_small in Hbusy by lia.
    assert (Htrue : existsb (fun b0 => in_block b0 (Z.max p b.1)) (Soup.free_blocks s) = true).
    { apply existsb_exists. exists b. split; [by apply list_elem_of_In|].
      unfold in_block. apply andb_true_iff. split; [apply Z.leb_le|apply Z.ltb_lt]; lia. }
    congruence. }
  unfold Soup.deallocate. rewrite Hmod.
  set (fb' := Soup.deallocate_blocks (Soup.free_blocks s) p sz).
  split; [by apply deallocate_blocks_wf|]. split.
  - unfold Soup.total_free. cbn [Soup.free_blocks Soup.set_free_blocks].
    unfold fb', Soup.deallocate_blocks.
    rewrite sizes_merge_prev, sizes_merge_next, sizes_insert_at. simpl. lia.
  - intros a Ha.
    assert (Hb : block_ok (Soup.size s) (p, sz)) by (unfold block_ok; simpl; lia).
    destruct (deallocate_blocks_inv _ _ p sz a Hok Hb Ha) as [Hok' Hcov]. fold fb' in Hok', Hcov.
    rewrite (is_free_covering s) by done.
    rewrite (is_free_covering (Soup.set_free_blocks fb' s)) by done.
    cbn [Soup.size Soup.free_blocks Soup.set_free_blocks].
    rewrite Hcov, covering_cons, covering_nil, covers_linear by done.
    fold (in_block (p, sz) a).
    destruct (covering (Soup.size s) (Soup.free_blocks s) a), (in_block (p, sz) a); done.
Qed.

Lemma deallocate_returns_block_witness :
  let s := Soup.mk 100 (replicate 100 0) [(0, 10); (90, 10)] [] in
  free_list_wf (Soup.deallocate s 10 80)
  /\ Soup.total_free (Soup.deallocate s 10 80) = 20 + 80
  /\ forall a, 0 <= a < 100 ->
       Soup.is_free (Soup.deallocate s 10 80) a = Soup.is_free s a || in_block (10, 80) a.
Proof.
  intros s.
  assert (Hwf : free_list_wf s) by (unfold free_list_wf; simpl; lia).
  assert (Hbusy : forall a, 10 <= a < 10 + 80 -> Soup.is_free s a = false).
  { intros a Ha. rewrite is_free_existsb. simpl. rewrite Z.mod_small by lia.
    unfold in_block. simpl.
    destruct (Z.ltb_spec a 10), (Z.leb_spec 90 a); try lia;
      by rewrite ?andb_false_r. }
  apply (deallocate_returns_block s 10 80 Hwf); [lia|lia|simpl; lia|exact Hbusy].
Defined.

Lemma first_fit_none blocks i0 size :
  Soup.first_fit blocks i0 size = None -> Forall (fun b : Z * Z => b.2 < size) blocks.
Proof.
  revert i0. induction blocks as [|[p sz] rest IH]; simpl; intros i0 H; [constructor|].
  destruct (Z.geb_spec sz size); [done|]. constructor; [simpl; lia|by eapply IH].
Qed.

Lemma better_fit_none blocks i0 size best_idx best_size :
  Soup.better_fit blocks i0 size best_idx best_size = None ->
  best_idx = None /\ (best_size = None -> Forall (fun b : Z * Z => b.2 < size) blocks).
Proof.
  revert i0 best_idx best_size.
  induction blocks as [|[p sz] rest IH]; simpl; intros i0 best_idx best_size H.
  - split; [done|]. constructor.
  - destruct (Z.geb_spec sz size); simpl in H.
    + destruct best_size as [b|].
      * destruct (sz <? b); apply IH in H as [H _]; [done|]. split; [done|]. done.
      * by apply IH in H as [H _].
    + apply IH in H as [H1 H2]. split; [done|]. intros Hn.
      constructor; [simpl; lia|auto].
Qed.

Lemma adequate_none blocks i0 size :
  Soup.adequate blocks i0 size = [] -> Forall (fun b : Z * Z => b.2 < size) blocks.
Proof.
  revert i0. induction blocks as [|[p sz] rest IH]; simpl; intros i0 H; [constructor|].
  destruct (Z.geb_spec sz size); [done|]. constructor; [simpl; lia|by eapply IH].
Qed.

Lemma take_block_fits s size i :
  fits (Soup.free_blocks s) O size i -> exists r, (Soup.take_block s (Some i) size).1 = Some r.
Proof.
  intros (k & [p bs] & Hi & Hk & _). simpl in Hi. subst k.
  unfold Soup.take_block. rewrite Hk. destruct (bs =? size); by eexists.
Qed.

(** When [allocate], called without a hint, comes back empty-handed. *)
Lemma allocate_none_iff s size mode hint tol g :
  hint < 0 ->
  ((Soup.allocate s size mode hint tol g).1.1 = None
   <-> Forall (fun b : Z * Z => b.2 < size) (Soup.free_blocks s))
  /\ ((Soup.allocate s size mode hint tol g).1.1 = None ->
      (Soup.allocate s size mode hint tol g).1.2 = s).
Proof.
  intros Hhint. split; [split|].
  - unfold Soup.allocate.
    assert (Htb : forall o (g0 : Random.t),
              (forall i, o = Some i -> fits (Soup.free_blocks s) O size i) ->
              (Soup.take_block s o size, g0).1.1 = None -> o = None).
    { intros [i|] g0 Hf H; [|done]. destruct (take_block_fits s size i (Hf i eq_refl)) as [r Hr].
      cbn [fst] in H. by rewrite Hr in H. }
    destruct (Soup.free_blocks s) as [|b0 fb0] eqn:Hfb; [constructor|].
    rewrite <- Hfb in *. clear b0 fb0 Hfb.
    assert (Hbetter : (Soup.take_block s
                         (Soup.better_fit (Soup.free_blocks s) O size None None) size, g).1.1
                      = None -> Forall (fun b : Z * Z => b.2 < size) (Soup.free_blocks s)).
    { intros H. apply Htb in H.
      - by apply better_fit_none in H as [_ H]; auto.
      - intros i Hi. by apply better_fit_fits in Hi as [|]. }
    destruct (mode =? 0).
    { intros H. apply Htb in H; [by eapply first_fit_none|]. apply first_fit_fits. }
    destruct (mode =? 1); [exact Hbetter|].
    destruct (mode =? 2).
    { destruct (Soup.adequate _ _ _) as [|i0 adq] eqn:Hadq; [intros _; by eapply adequate_none|].
      pose proof (fun x g' => choice_elem (i0 :: adq) g x g') as Hch.
      unfold Random.choice in *. destruct (Random.next g) as [r g1].
      assert (Hlt : (N.to_nat r mod length (i0 :: adq) < length (i0 :: adq))%nat)
        by (apply Nat.mod_upper_bound; simpl; lia).
      destruct (lookup_lt_is_Some_2 _ _ Hlt) as [i Hi]. rewrite Hi in *.
      intros H. apply Htb in H; [done|]. intros j [= <-].
      apply adequate_fits with (i0 := O). rewrite Hadq. by apply (Hch i g1). }
    destruct (Z.geb_spec hint 0); [lia|]. rewrite andb_false_r. exact Hbetter.
  - intros Hsmall.
    destruct (Soup.allocate s size mode hint tol g) as [[[r|] s'] g'] eqn:Halloc; [|done].
    exfalso. apply allocate_fits in Halloc as (i & (k & b & _ & Hk & Hb) & _).
    apply (proj1 (Forall_lookup _ _) Hsmall) in Hk. simpl in Hk. lia.
  - destruct (Soup.allocate s size mode hint tol g) as [[r s'] g'] eqn:Halloc. simpl.
    intros ->. by apply allocate_none in Halloc.
Qed.

(** X6 (soup.py, [Soup.allocate]): called without a hint address, as [mal]
    calls it, [allocate] fails in every mode exactly when no block of the
    free list is large enough; a failed call changes nothing. *)
Theorem allocate_fails_iff s size mode hint tol g :
  hint < 0 ->
  ((Soup.allocate s size mode hint tol g).1.1 = None
   <-> Forall (fun b : Z * Z => b.2 < size) (Soup.free_blocks s))
  /\ ((Soup.allocate s size mode hint tol g).1.1 = None ->
      (Soup.allocate s size mode hint tol g).1.2 = s).
Proof. apply allocate_none_iff. Qed.

Lemma allocate_fails_iff_witness :
  let s := Soup.mk 100 (replicate 100 0) [(0, 10); (90, 10)] [] in
  (Soup.allocate s 16 1 (-1) (-1) (Random.of_list [])).1.1 = None
  /\ (Soup.allocate s 16 1 (-1) (-1) (Random.of_list [])).1.2 = s.
Proof.
  intros s.
  destruct (allocate_fails_iff s 16 1 (-1) (-1) (Random.of_list []) ltac:(lia)) as [Hiff Hsame].
  assert (Hnone : (Soup.allocate s 16 1 (-1) (-1) (Random.of_list [])).1.1 = None).
  { apply Hiff. repeat constructor; simpl; lia. }
  split; [exact Hnone|exact (Hsame Hnone)].
Defined.

Lemma first_fit_first blocks i0 size i :
  Soup.first_fit blocks i0 size = Some i ->
  exists k b, i = (i0 + k)%nat /\ blocks !! k = Some b /\ size <= b.2
              /\ forall j b', (j < k)%nat -> blocks !! j = Some b' -> b'.2 < size.
Proof.
  revert i0. induction blocks as [|[p sz] rest IH]; simpl; intros i0 H; [done|].
  destruct (Z.geb_spec sz size).
  - injection H as <-. exists O, (p, sz). repeat split; [lia|simpl; lia|]. intros; lia.
  - destruct (IH _ H) as (k & b & -> & Hk & Hb & Hsmall).
    exists (S k), b. repeat split; [lia|done|done|].
    intros [|j] b' Hj Hb'; [injection Hb' as <-; simpl; lia|].
    apply (Hsmall j); [lia|done].
Qed.

(** X7 (soup.py, [Soup.allocate], mode 0): first fit hands out the start of
    the first block of the free list that is large enough; every block
    before it is too small. *)
Theorem allocate_first_fit s size hint tol g p sz s' g' :
  Soup.allocate s size 0 hint tol g = (Some (p, sz), s', g') ->
  exists i bs, Soup.free_blocks s !! i = Some (p, bs) /\ size <= bs /\ sz = size
               /\ forall j b', (j < i)%nat -> Soup.free_blocks s !! j = Some b' -> b'.2 < size.
Proof.
  unfold Soup.allocate. destruct (Soup.free_blocks s) as [|b0 fb0] eqn:Hfb; [done|].
  rewrite <- Hfb. clear b0 fb0 Hfb. simpl.
  destruct (Soup.first_fit _ _ _) as [i|] eqn:Hff; [|done].
  apply first_fit_first in Hff as (k & [q bs] & Hi & Hk & Hb & Hsmall). simpl in Hi. subst k.
  unfold Soup.take_block. rewrite Hk. intros H. exists i, bs.
  destruct (bs =? size); injection H as <- <- _ _; auto.
Qed.

Lemma allocate_first_fit_witness :
  let s := Soup.mk 100 (replicate 100 0) [(0, 3); (10, 30); (50, 8)] [] in
  exists i bs, Soup.free_blocks s !! i = Some (10, bs) /\ 8 <= bs /\ 8 = 8
               /\ forall j b', (j < i)%nat -> Soup.free_blocks s !! j = Some b' -> b'.2 < 8.
Proof.
  intros s. apply (allocate_first_fit s 8 (-1) (-1) (Random.of_list []) 10 8 _ _ eq_refl).
Defined.

Lemma better_fit_best blocks i0 size best_idx best_size i :
  Soup.better_fit blocks i0 size best_idx best_size = Some i ->
  (best_idx = Some i
   /\ forall b, b ∈ blocks -> size <= b.2 -> exists v, best_size = Some v /\ v <= b.2)
  \/ exists k b, i = (i0 + k)%nat /\ blocks !! k = Some b /\ size <= b.2
                 /\ (forall v, best_size = Some v -> b.2 < v)
                 /\ forall j b', blocks !! j = Some b' -> size <= b'.2 ->
                      b.2 <= b'.2 /\ ((j < k)%nat -> b.2 < b'.2).
Proof.
  revert i0 best_idx best_size.
  induction blocks as [|[p sz] rest IH]; simpl; intros i0 best_idx best_size H.
  - left. split; [done|]. by intros b ?%elem_of_nil.
  - destruct ((sz >=? size) && match best_size with Some b => sz <? b | None => true end)
      eqn:Hbetter.
    + apply andb_true_iff in Hbetter as [Had Himp]. apply Z.geb_le in Had.
      assert (Hv : forall v, best_size = Some v -> sz < v).
      { intros v ->. by apply Z.ltb_lt in Himp. }
      right. destruct (IH _ _ _ H) as [[[= <-] Hrest]|(k & b & -> & Hk & Hb & Hlt & Hmin)].
      * exists O, (p, sz). split; [lia|]. split; [done|]. split; [done|]. split; [done|].
        intros [|j] b' Hj Hb'; [injection Hj as <-; simpl; lia|]. simpl in Hj.
        destruct (Hrest b' (list_elem_of_lookup_2 _ _ _ Hj) Hb') as (v & [= <-] & ?).
        simpl. lia.
      * specialize (Hlt sz eq_refl).
        exists (S k), b. split; [lia|]. split; [done|]. split; [done|]. split.
        -- intros v Hbs. specialize (Hv v Hbs). lia.
        -- intros [|j] b' Hj Hb'; [injection Hj as <-; simpl; lia|]. simpl in Hj.
           destruct (Hmin j b' Hj Hb') as [H1 H2]. split; [done|]. intros ?. apply H2. lia.
    + assert (Hhead : size <= sz -> exists v, best_size = Some v /\ v <= sz).
      { intros Had. apply andb_false_iff in Hbetter as [Hb|Hb].
        - destruct (Z.geb_spec sz size); [done|lia].
        - destruct best_size as [v|]; [|done]. apply Z.ltb_ge in Hb. by exists v. }
      destruct (IH _ _ _ H) as [[-> Hrest]|(k & b & -> & Hk & Hb & Hlt & Hmin)].
      * left. split; [done|]. intros b [->|Hin]%elem_of_cons Hb; [by apply Hhead|by apply Hrest].
      * right. exists (S k), b. split; [lia|]. split; [done|]. split; [done|]. split; [done|].
        intros [|j] b' Hj Hb'.
        -- injection Hj as <-. destruct (Hhead Hb') as (v & Hv & ?). specialize (Hlt v Hv).
           simpl. lia.
        -- simpl in Hj. destruct (Hmin j b' Hj Hb') as [H1 H2].
           split; [done|]. intros ?. apply H2. lia.
Qed.

(** X8 (soup.py, [Soup.allocate], mode 1): better fit hands out the start of
    a smallest block among those that are large enough, and of the first
    such block when several have that size. *)
Theorem allocate_better_fit s size hint tol g p sz s' g' :
  Soup.allocate s size 1 hint tol g = (Some (p, sz), s', g') ->
  exists i bs, Soup.free_blocks s !! i = Some (p, bs) /\ size <= bs /\ sz = size
               /\ forall j b', Soup.free_blocks s !! j = Some b' -> size <= b'.2 ->
                    bs <= b'.2 /\ ((j < i)%nat -> bs < b'.2).
Proof.
  unfold Soup.allocate. destruct (Soup.free_blocks s) as [|b0 fb0] eqn:Hfb; [done|].
  rewrite <- Hfb. clear b0 fb0 Hfb. simpl.
  destruct (Soup.better_fit _ _ _ _ _) as [i|] eqn:Hbf; [|done].
  apply better_fit_best in Hbf as [[[=] _]|(k & [q bs] & Hi & Hk & Hb & _ & Hmin)].
  simpl in Hi. subst k.
  unfold Soup.take_block. rewrite Hk. intros H. exists i, bs.
  destruct (bs =? size); injection H as <- <- _ _; auto.
Qed.

Lemma allocate_better_fit_witness :
  let s := Soup.mk 100 (replicate 100 0) [(0, 3); (10, 30); (50, 8); (70, 8)] [] in
  exists i bs, Soup.free_blocks s !! i = Some (50, bs) /\ 5 <= bs /\ 5 = 5
               /\ forall j b', Soup.free_blocks s !! j = Some b' -> 5 <= b'.2 ->
                    bs <= b'.2 /\ ((j < i)%nat -> bs < b'.2).
Proof.
  intros s. apply (allocate_better_fit s 5 (-1) (-1) (Random.of_list []) 50 5 _ _ eq_refl).
Defined.

(** ** The scheduler *)

Lemma index_of_spec (l : list CellId) cell i0 idx :
  Scheduler.index_of l cell i0 = Some idx ->
  exists k, idx = (i0 + k)%nat /\ l !! k = Some cell
            /\ forall j, (j < k)%nat -> l !! j <> Some cell.
Proof.
  revert i0. induction l as [|c l IH]; simpl; intros i0 H; [done|].
  destruct (Nat.eqb_spec c cell) as [->|Hne].
  - injection H as <-. exists O. repeat split; [lia|]. intros; lia.
  - destruct (IH _ H) as (k & -> & Hk & Hfirst). exists (S k). repeat split; [lia|done|].
    intros [|j] Hj; simpl; [congruence|]. apply Hfirst. lia.
Qed.

Lemma index_of_none (l : list CellId) cell i0 :
  Scheduler.index_of l cell i0 = None -> cell ∉ l.
Proof.
  revert i0. induction l as [|c l IH]; simpl; intros i0 H; [by intros ?%elem_of_nil|].
  destruct (Nat.eqb_spec c cell) as [->|Hne]; [done|].
  intros [->|Hin]%elem_of_cons; [done|]. by eapply IH.
Qed.

(** X9 (scheduler.py, [Scheduler.remove] and [Scheduler.current]): removing
    a creature other than the current one does not change whose turn it is,
    whether the creature removed stands before or after the current one in
    the queue or is not in the queue at all. *)
Theorem remove_keeps_current (s : Scheduler.t) (cell c : CellId) :
  (Scheduler.current_idx s < length (Scheduler.queue s))%nat ->
  (Scheduler.current s).1 = Some c -> cell <> c ->
  (Scheduler.current (Scheduler.remove s cell)).1 = Some c.
Proof.
  intros Hin Hcur Hne.
  assert (Hc : Scheduler.queue s !! Scheduler.current_idx s = Some c).
  { unfold Scheduler.current in Hcur. destruct (Scheduler.queue s) as [|x q] eqn:Hq; [done|].
    rewrite <- Hq in *. destruct (Nat.leb_spec (length (Scheduler.queue s)) (Scheduler.current_idx s));
      [lia|done]. }
  unfold Scheduler.remove.
  destruct (Scheduler.index_of _ _ _) as [idx|] eqn:Hidx; [|done].
  apply index_of_spec in Hidx as (k & -> & Hk & _). simpl.
  assert (Hkc : k <> Scheduler.current_idx s) by congruence.
  pose proof (lookup_lt_Some _ _ _ Hk) as Hklt.
  assert (Hcurrent : forall q i, q !! i = Some c -> (i < length q)%nat ->
            (Scheduler.current (Scheduler.mk q i)).1 = Some c).
  { intros q i Hi Hlt. unfold Scheduler.current. simpl. destruct q as [|x q]; [done|].
    destruct (Nat.leb_spec (length (x :: q)) i); [lia|done]. }
  destruct (Nat.ltb_spec k (Scheduler.current_idx s)) as [Hlt|Hge].
  - apply Hcurrent; [|rewrite length_delete by done; lia].
    rewrite list_lookup_delete_ge by lia.
    by replace (S (Scheduler.current_idx s - 1)) with (Scheduler.current_idx s) by lia.
  - destruct (Nat.eqb_spec k (Scheduler.current_idx s)) as [|_]; [done|]. simpl.
    apply Hcurrent; [|rewrite length_delete by done; lia].
    rewrite list_lookup_delete_lt by lia. done.
Qed.

Lemma remove_keeps_current_witness :
  (Scheduler.current (Scheduler.remove (Scheduler.mk [4; 7; 9]%nat 1) 4%nat)).1 = Some 7%nat
  /\ (Scheduler.current (Scheduler.remove (Scheduler.mk [4; 7; 9]%nat 1) 9%nat)).1 = Some 7%nat.
Proof.
  split.
  - apply (remove_keeps_current (Scheduler.mk [4; 7; 9]%nat 1) 4%nat 7%nat);
      [simpl; lia|reflexivity|lia].
  - apply (remove_keeps_current (Scheduler.mk [4; 7; 9]%nat 1) 9%nat 7%nat);
      [simpl; lia|reflexivity|lia].
Defined.

Lemma index_of_NoDup (l : list CellId) cell i0 k :
  NoDup l -> l !! k = Some cell -> Scheduler.index_of l cell i0 = Some (i0 + k)%nat.
Proof.
  intros Hnd Hk. destruct (Scheduler.index_of l cell i0) as [idx|] eqn:Hidx.
  - apply index_of_spec in Hidx as (k' & -> & Hk' & _).
    by rewrite (NoDup_lookup _ _ _ _ Hnd Hk Hk').
  - apply index_of_none in Hidx. by apply list_elem_of_lookup_2 in Hk.
Qed.

(** X10 (scheduler.py, [Scheduler.remove] and [Scheduler.current]): when the
    creature whose turn it is is removed from a queue without repetitions,
    the turn passes to the creature that followed it, and to the first of
    the queue when it was the last; nobody is current once the queue is
    empty. *)
Theorem remove_current_passes_turn (s : Scheduler.t) (c : CellId) :
  NoDup (Scheduler.queue s) ->
  Scheduler.queue s !! Scheduler.current_idx s = Some c ->
  (Scheduler.current (Scheduler.remove s c)).1
  = if (1 <? length (Scheduler.queue s))%nat
    then Scheduler.queue s !! ((Scheduler.current_idx s + 1) mod length (Scheduler.queue s))%nat
    else None.
Proof.
  intros Hnd Hc. destruct s as [q i]. simpl in *.
  pose proof (lookup_lt_Some _ _ _ Hc) as Hlt.
  unfold Scheduler.remove. simpl. rewrite (index_of_NoDup q c O i Hnd Hc). simpl.
  rewrite Nat.ltb_irrefl, Nat.eqb_refl. simpl.
  assert (Hlen : length (delete i q) = (length q - 1)%nat) by (by apply length_delete).
  unfold Scheduler.current.
  destruct (Nat.leb_spec (length (delete i q)) i) as [Hlast|Hmid]; simpl.
  - assert (i = length q - 1)%nat by lia.
    destruct (delete i q) as [|x q'] eqn:Hdel; simpl in *.
    + destruct (Nat.ltb_spec 1 (length q)); [lia|done].
    + destruct (Nat.ltb_spec 1 (length q)); [|lia].
      replace ((i + 1) mod length q)%nat with O
        by (replace (i + 1)%nat with (length q) by lia; by rewrite Nat.Div0.mod_same).
      assert (Hx : delete i q !! O = Some x) by (by rewrite Hdel).
      rewrite list_lookup_delete_lt in Hx by lia. by rewrite Hx.
  - destruct (delete i q) as [|x q'] eqn:Hdel; [simpl in *; lia|]. rewrite <- Hdel in *.
    destruct (Nat.leb_spec (length (delete i q)) i); [lia|]. simpl.
    destruct (Nat.ltb_spec 1 (length q)); [|lia].
    rewrite Nat.mod_small by lia. rewrite list_lookup_delete_ge by lia.
    by replace (i + 1)%nat with (S i) by lia.
Qed.

Lemma remove_current_passes_turn_witness :
  (Scheduler.current (Scheduler.remove (Scheduler.mk [4; 7; 9]%nat 2) 9%nat)).1 = Some 4%nat.
Proof.
  apply (remove_current_passes_turn (Scheduler.mk [4; 7; 9]%nat 2) 9%nat);
    [by apply (bool_decide_unpack _)|reflexivity].
Defined.

(** X11 (scheduler.py, [Scheduler.advance] and [Scheduler.current]): the
    queue is served round robin: after [k] calls of [advance] the current
    creature is the one [k] places further in the queue, counted cyclically,
    so that a lap of as many calls as there are creatures gives every
    creature one turn and comes back to the first. *)
Theorem advance_round_robin (s : Scheduler.t) (k : nat) :
  (Scheduler.current_idx s < length (Scheduler.queue s))%nat ->
  (Scheduler.current (Nat.iter k Scheduler.advance s)).1
  = Scheduler.queue s !! ((Scheduler.current_idx s + k) mod length (Scheduler.queue s))%nat
  /\ Nat.iter (length (Scheduler.queue s)) Scheduler.advance s = s.
Proof.
  intros Hin. destruct s as [q i]. simpl in *.
  assert (Hiter : forall n, Nat.iter n Scheduler.advance (Scheduler.mk q i)
                            = Scheduler.mk q ((i + n) mod length q)%nat).
  { induction n as [|n IH]; simpl.
    - rewrite Nat.add_0_r, Nat.mod_small by done. done.
    - rewrite IH. unfold Scheduler.advance. simpl. destruct q as [|x q]; [simpl in Hin; lia|].
      f_equal. rewrite Nat.Div0.add_mod_idemp_l. f_equal. lia. }
  split.
  - rewrite Hiter. unfold Scheduler.current. simpl. destruct q as [|x q]; [simpl in Hin; lia|].
    assert (Hlt : ((i + k) mod length (x :: q) < length (x :: q))%nat)
      by (apply Nat.mod_upper_bound; simpl; lia).
    destruct (Nat.leb_spec (length (x :: q)) ((i + k) mod length (x :: q))); [lia|done].
  - rewrite Hiter. f_equal.
    rewrite <- Nat.Div0.add_mod_idemp_r, Nat.Div0.mod_same, Nat.add_0_r.
    by apply Nat.mod_small.
Qed.

Lemma advance_round_robin_witness :
  (Scheduler.current (Nat.iter 2 Scheduler.advance (Scheduler.mk [4; 7; 9]%nat 2))).1
  = Some 7%nat
  /\ Nat.iter 3 Scheduler.advance (Scheduler.mk [4; 7; 9]%nat 2) = Scheduler.mk [4; 7; 9]%nat 2.
Proof.
  apply (advance_round_robin (Scheduler.mk [4; 7; 9]%nat 2) 2). simpl. lia.
Defined.

(** ** The reaper *)

Lemma is_cell_false v o : Reaper.is_cell v o = false <-> o <> Some v.
Proof.
  destruct o as [c|]; simpl; [|done]. destruct (Nat.eqb_spec v c) as [->|]; split; congruence.
Qed.

Lemma reap_near_loop_victim q addr max_dist current_cell s v s' :
  Reaper._reap_near_loop q addr max_dist current_cell s = (Some v, s') ->
  v ∈ q /\ Reaper.is_cell v current_cell = false /\ s' = Reaper._reap_cell v s.
Proof.
  induction q as [|cell q IH]; simpl; [done|].
  destruct (Reaper.is_cell cell current_cell) eqn:Hc.
  - intros H. destruct (IH H) as (? & ? & ?). split; [by right|done].
  - destruct (_ <=? _).
    + intros [= <- <-]. split; [by left|done].
    + intros H. destruct (IH H) as (? & ? & ?). split; [by right|done].
Qed.

(** X12 (reaper.py, [Reaper.reap] and [Reaper._reap_near_address]): while
    the reaper's queue holds more than one creature, the creature that
    [reap] returns is never the one the scheduler is executing; it is taken
    from the queue, which loses exactly that entry. *)
Theorem reap_spares_current (addr : Z) (s : Sim.t) (v : CellId) (s' : Sim.t) :
  (1 < length (Sim.reaper_queue s))%nat ->
  Reaper.reap addr s = Ok (Some v) s' ->
  (Scheduler.current (Sim.scheduler s)).1 <> Some v
  /\ v ∈ Sim.reaper_queue s
  /\ Sim.reaper_queue s' = Reaper.remove_first (Sim.reaper_queue s) v.
Proof.
  intros Hlen. unfold Reaper.reap.
  destruct (Sim.reaper_queue s) as [|v0 q0] eqn:Hqueue; [done|]. rewrite <- Hqueue in *.
  clear v0 q0 Hqueue.
  destruct (Scheduler.current (Sim.scheduler s)) as [current_cell sched]. simpl.
  set (s1 := Sim.set_scheduler sched s).
  assert (Hq1 : Sim.reaper_queue s1 = Sim.reaper_queue s) by done.
  assert (Hreap : forall w x, Sim.reaper_queue x = Sim.reaper_queue s ->
            Sim.reaper_queue (Reaper._reap_cell w x)
            = Reaper.remove_first (Sim.reaper_queue s) w).
  { intros w x Hx. rewrite <- Hx. apply (reap_cell_effect w x). }
  assert (Hfar :
    (let q := Sim.reaper_queue s1 in
     let len := Z.of_nat (length q) in
     let reap_range :=
       Z.max 1 (int_of_float (float_of_int len * Config.reap_rnd_prop (Sim.config s1))%Q) in
     let '(idx, s) :=
       if reap_range <? 2 then (0, s1)
       else let '(r, g) := Random.randint 0 (reap_range - 1) (Sim.rng s1) in
            (default 0 r, Sim.set_rng g s1) in
     match q !! Z.to_nat idx with
     | None => Raise IndexError s
     | Some victim =>
       if Reaper.is_cell victim current_cell && (1 <? len) then
         let idx := (idx + 1) mod Z.min reap_range len in
         match q !! Z.to_nat idx with
         | None => Raise IndexError s
         | Some victim =>
           if Reaper.is_cell victim current_cell then Ok None s
           else Ok (Some victim) (Reaper._reap_cell victim s)
         end
       else Ok (Some victim) (Reaper._reap_cell victim s)
     end) = Ok (Some v) s' ->
    current_cell <> Some v /\ v ∈ Sim.reaper_queue s
    /\ Sim.reaper_queue s' = Reaper.remove_first (Sim.reaper_queue s) v).
  { cbv zeta. rewrite Hq1. set (q := Sim.reaper_queue s) in *. set (rr := Z.max 1 _).
    assert (Hone : (1 <? Z.of_nat (length q)) = true) by (apply Z.ltb_lt; lia).
    rewrite Hone.
    assert (Hpick : forall x i w, Sim.reaper_queue x = q -> q !! i = Some w ->
              Reaper.is_cell w current_cell = false ->
              Ok (Some w) (Reaper._reap_cell w x) = Ok (Some v) s' ->
              current_cell <> Some v /\ v ∈ q
              /\ Sim.reaper_queue s' = Reaper.remove_first q v).
    { intros x i w Hx Hi Hw [= <- <-]. split; [by apply is_cell_false|].
      split; [by eapply list_elem_of_lookup_2|by apply Hreap]. }
    assert (Hboth : forall x i, Sim.reaper_queue x = q ->
      match q !! Z.to_nat i with
      | Some victim =>
        if Reaper.is_cell victim current_cell && true
        then match q !! Z.to_nat ((i + 1) mod Z.min rr (Z.of_nat (length q))) with
             | Some victim0 =>
               if Reaper.is_cell victim0 current_cell then Ok None x
               else Ok (Some victim0) (Reaper._reap_cell victim0 x)
             | None => Raise IndexError x
             end
        else Ok (Some victim) (Reaper._reap_cell victim x)
      | None => Raise IndexError x
      end = Ok (Some v) s' ->
      current_cell <> Some v /\ v ∈ q /\ Sim.reaper_queue s' = Reaper.remove_first q v).
    { intros x i Hx. destruct (q !! Z.to_nat i) as [w|] eqn:Hw; [|done].
      destruct (Reaper.is_cell w current_cell) eqn:Hcw; simpl.
      - match goal with
        | |- context [q !! ?j] => destruct (q !! j) as [w'|] eqn:Hw'
        end; [|done].
        destruct (Reaper.is_cell w' current_cell) eqn:Hcw'; [done|].
        by eapply (Hpick x _ w').
      - by eapply (Hpick x _ w). }
    destruct (rr <? 2); [by apply Hboth|].
    destruct (Random.randint _ _ _) as [r g]. by apply Hboth. }
  destruct (negb _ && _); [|exact Hfar].
  unfold Reaper._reap_near_address. set (md := _ * _).
  pose proof (reap_near_loop_none (Sim.reaper_queue s1) addr md current_cell s1) as Hnone.
  destruct (Reaper._reap_near_loop _ _ _ _ _) as [[victim|] s2] eqn:Hloop; simpl in *.
  - intros [= <- <-]. apply reap_near_loop_victim in Hloop as (Hin & Hc & ->).
    split; [by apply is_cell_false|]. split; [done|by apply Hreap].
  - rewrite Hnone by done. exact Hfar.
Qed.

Lemma reap_spares_current_witness :
  let s := population10 10 [] in
  (Scheduler.current (Sim.scheduler s)).1 <> Some 1%nat
  /\ 1%nat ∈ Sim.reaper_queue s
  /\ Sim.reaper_queue (state_of (Reaper.reap (-1) s))
     = Reaper.remove_first (Sim.reaper_queue s) 1%nat.
Proof.
  intros s.
  apply (reap_spares_current (-1) s 1%nat (state_of (Reaper.reap (-1) s)));
    [vm_compute; lia|vm_compute; reflexivity].
Defined.

Lemma cells_covering_ge ss (cells : list Cell.t) v c a :
  cells !! v = Some c ->
  (covering ss (cell_intervals c) a <= covering ss (cells ≫= cell_intervals) a)%nat.
Proof.
  intros Hv. rewrite <- (take_drop_middle _ _ _ Hv).
  rewrite bind_app, bind_cons, !covering_app. lia.
Qed.

(** X13 (reaper.py, [Reaper._reap_cell]): in a state whose intervals
    partition the soup, reaping a creature that is alive frees its memory:
    every address of its mother block and of its daughter block is free
    afterwards; the creature is dead and gone from the reaper's queue, and
    the partition still holds. *)
Theorem reap_cell_frees_memory (v : CellId) (s : Sim.t) (c : Cell.t) :
  partition_inv s -> Sim.cells s !! v = Some c -> Cell.alive c = true ->
  let s' := Reaper._reap_cell v s in
  (forall r a, r ∈ cell_intervals c -> in_block r a = true ->
     Soup.is_free (Sim.soup s') a = true)
  /\ (~ is_alive s' v)
  /\ (v ∉ Sim.reaper_queue s')
  /\ partition_ok s' = true.
Proof.
  intros Hinv Hv Hal s'.
  pose proof (reap_cell_inv v s c Hinv Hv Hal) as Hinv'. fold s' in Hinv'.
  destruct (reap_cell_cells v s) as (f & Hcells & Hdead). fold s' in Hcells.
  destruct (reap_cell_soup v s c Hv) as (Hsize & _). fold s' in Hsize.
  destruct (reap_cell_effect v s) as (_ & Hqueue & _). fold s' in Hqueue.
  split; [|split; [|split]].
  - intros r a Hr Ha.
    pose proof (inv_blocks s Hinv) as Hblocks. unfold intervals in Hblocks.
    apply Forall_app in Hblocks as [_ Hcb].
    pose proof (cells_lookup_blocks _ _ _ _ Hcb Hv) as Hc.
    pose proof (proj1 (Forall_forall _ _) Hc r Hr) as Hrok.
    assert (Hrange : 0 <= a < Soup.size (Sim.soup s)).
    { destruct Hrok as (? & ? & ?). unfold in_block in Ha.
      apply andb_true_iff in Ha as [?%Z.leb_le ?%Z.ltb_lt]. lia. }
    assert (Hcr : (1 <= covering (Soup.size (Sim.soup s)) (cell_intervals c) a)%nat).
    { apply list_elem_of_split in Hr as (l1 & l2 & ->).
      rewrite covering_app, covering_cons, covers_linear by done.
      fold (in_block r a). rewrite Ha. lia. }
    pose proof (inv_cover s Hinv a Hrange) as Hone. unfold cover_count, intervals in Hone.
    rewrite covering_app in Hone.
    pose proof (cells_covering_ge (Soup.size (Sim.soup s)) _ _ _ a Hv) as Hge.
    pose proof (cells_alter_covering (Soup.size (Sim.soup s)) _ _ _ f a Hv) as Halt.
    rewrite (cell_intervals_dead (f c)), covering_nil in Halt by apply Hdead.
    pose proof (inv_cover s' Hinv') as Hone'. rewrite Hsize in Hone'.
    specialize (Hone' a Hrange). unfold cover_count, intervals in Hone'.
    rewrite Hsize, covering_app, Hcells in Hone'.
    pose proof (inv_blocks s' Hinv') as Hblocks'. unfold intervals in Hblocks'.
    apply Forall_app in Hblocks' as [Hfb' _].
    rewrite is_free_covering by (done || by rewrite Hsize). rewrite Hsize.
    destruct (covering (Soup.size (Sim.soup s)) (Soup.free_blocks (Sim.soup s')) a) eqn:E;
      [lia|done].
  - intros (c' & Hc' & Hal'). rewrite Hcells, list_lookup_alter_eq, Hv in Hc'.
    injection Hc' as <-. by rewrite Hdead in Hal'.
  - rewrite Hqueue. by apply remove_first_NoDup, (inv_queue_nodup s).
  - by apply partition_inv_ok.
Qed.

Lemma reap_cell_frees_memory_witness :
  let s := state_of (Simulation.boot idle_ancestor
                       (Simulation.init (Random.of_list []) (test_config 100 25 10 0 1))) in
  let s' := Reaper._reap_cell O s in
  (forall r a, r ∈ cell_intervals (Sim.cell s O) -> in_block r a = true ->
     Soup.is_free (Sim.soup s') a = true)
  /\ (~ is_alive s' O)
  /\ (O ∉ Sim.reaper_queue s')
  /\ partition_ok s' = true.
Proof.
  intros s.
  assert (Hinv : partition_inv s).
  { destruct (boot_inv (Random.of_list []) (test_config 100 25 10 0 1) idle_ancestor)
      as (s1 & E & H); [simpl; lia|simpl; lia|]. subst s. by rewrite E. }
  apply (reap_cell_frees_memory O s (Sim.cell s O) Hinv); vm_compute; reflexivity.
Defined.

(** ** The partition along a run *)

(** X14 (simulation.py, [boot] and [run_slice]; instructions.py, [mal] and
    [divide]; reaper.py; soup.py, [allocate] and [deallocate]): in every
    state reached from [boot] by instructions that the executing creature
    lives through, by lazy checks on creatures that are alive, by calls of
    the reaper and by disturbances, the free blocks and the mother and
    daughter blocks of the creatures that are alive are non-empty blocks
    inside the soup, and every address of the soup lies in exactly one of
    them; the reaper's queue lists creatures that are alive, each once. *)
Theorem partition_along_run (s : Sim.t) :
  reached s ->
  Forall (block_ok (Soup.size (Sim.soup s))) (intervals s)
  /\ (forall a, 0 <= a < Soup.size (Sim.soup s) -> cover_count s a = 1%nat)
  /\ (forall v, v ∈ Sim.reaper_queue s -> is_alive s v)
  /\ NoDup (Sim.reaper_queue s).
Proof.
  intros H. destruct (reached_inv s H) as [_ _ Hb Hc Hq Hn]. auto.
Qed.

Lemma partition_along_run_witness :
  let s0 := state_of (Simulation.boot idle_ancestor
                        (Simulation.init (Random.of_list []) (test_config 100 25 10 0 1))) in
  let s := (Reaper.disturbance (state_of (Simulation.step O s0))).2 in
  Forall (block_ok (Soup.size (Sim.soup s))) (intervals s)
  /\ (forall a, 0 <= a < Soup.size (Sim.soup s) -> cover_count s a = 1%nat)
  /\ (forall v, v ∈ Sim.reaper_queue s -> is_alive s v)
  /\ NoDup (Sim.reaper_queue s).
Proof.
  intros s0 s. apply (partition_along_run s).
  apply reached_disturbance, reached_step.
  - apply (reached_boot (Random.of_list []) (test_config 100 25 10 0 1) idle_ancestor);
      [simpl; lia|simpl; lia|vm_compute; reflexivity].
  - eexists. split; vm_compute; reflexivity.
  - eexists. split; vm_compute; reflexivity.
Defined.

(** ** Template search *)

(** X15 (instructions.py, [_find_template], direction [backward], used by
    [jmpb] and [adrb]): when a template of length [L >= 1] follows [IP], the
    backward search examines the addresses [IP-1], [IP-2], ... up to the
    search limit and returns the first address at which the complement of
    the template stands, moved past the complement, together with [L]. *)
Theorem find_template_backward_nearest (s : Sim.t) (ip : Z) (template : list Z) (d : Z) :
  Instructions.template_after s ip = template ->
  template <> [] ->
  let ss := Config.soup_size (Sim.config s) in
  let L := Z.of_nat (length template) in
  1 <= d <= Instructions.max_dist s ->
  complement_at s template ((ip - d) mod ss) ->
  (forall d', 1 <= d' < d -> ~ complement_at s template ((ip - d') mod ss)) ->
  Instructions._find_template s ip Instructions.Backward
  = (((ip - d) mod ss + L) mod ss, L).
Proof.
  intros Ht Hne ss L Hd Hmatch Hnear.
  unfold Instructions._find_template. rewrite Ht. subst L.
  destruct template as [|b t]; [done|]. set (T := b :: t) in *.
  fold ss. unfold Instructions.checks. fold ss.
  rewrite (seqZ_split d) by done. rewrite fmap_app, fmap_cons.
  rewrite find_first_match; [done| |exact (proj2 (match_at_spec _ _ _) Hmatch)].
  apply Forall_fmap, Forall_forall. intros d' Hd'. cbv beta.
  apply elem_of_seqZ in Hd'.
  apply not_true_is_false. intros E.
  apply match_at_spec in E. apply (Hnear d'); [lia|done].
Qed.

Lemma find_template_backward_nearest_witness :
  let s := Sim.set_soup (Soup.set_data ([7; 7; 1; 7; 7; 21; 0; 5] ++ replicate 12 7)
                           (Sim.soup template_soup)) template_soup in
  Instructions._find_template s 5 Instructions.Backward = (3, 1).
Proof.
  intros s. apply (find_template_backward_nearest s 5 [0] 3).
  - reflexivity.
  - discriminate.
  - vm_compute. split; discriminate.
  - intros [|[|j]] bit Hj; try discriminate Hj. injection Hj as <-. reflexivity.
  - intros d' Hd' Hc. specialize (Hc O 0 eq_refl).
    assert (d' = 1 \/ d' = 2) as [-> | ->] by lia; vm_compute in Hc; discriminate.
Defined.

Lemma find_none_match {A} (f : A -> bool) (l : list A) :
  Forall (fun y => f y = false) l -> List.find f l = None.
Proof. induction 1 as [|y l Hy _ IH]; simpl; [done|]. by rewrite Hy. Qed.

Lemma find_some_match {A} (f : A -> bool) (l : list A) x :
  List.find f l = Some x -> x ∈ l /\ f x = true.
Proof.
  induction l as [|y l IH]; simpl; [done|].
  destruct (f y) eqn:E.
  - intros [= ->]. split; [left|done].
  - intros H. destruct (IH H). split; [by right|done].
Qed.

Lemma find_none_elem {A} (f : A -> bool) (l : list A) x :
  List.find f l = None -> x ∈ l -> f x = false.
Proof.
  induction l as [|y l IH]; simpl; [by intros _ ?%elem_of_nil|].
  destruct (f y) eqn:E; [done|]. intros H [-> | Hin]%elem_of_cons; [done|by apply IH].
Qed.

(** X16 (instructions.py, [_find_template], direction [outward], used by
    [jmpo], [call] and [adro]): the outward search alternates, distance by
    distance, between the address [dist] past the end of the template and
    the address [dist] before [IP].  With no complement nearer than [d] on
    either side, a complement [d] ahead wins, also when one stands [d]
    behind; the one behind is returned only when there is none ahead. *)
Theorem find_template_outward_nearest (s : Sim.t) (ip : Z) (template : list Z) (d : Z) :
  Instructions.template_after s ip = template ->
  template <> [] ->
  let ss := Config.soup_size (Sim.config s) in
  let L := Z.of_nat (length template) in
  let ahead := fun dist => ((ip + 1 + L) mod ss + dist) mod ss in
  let behind := fun dist => (ip - dist) mod ss in
  1 <= d <= Instructions.max_dist s ->
  (forall d', 1 <= d' < d ->
     ~ complement_at s template (ahead d') /\ ~ complement_at s template (behind d')) ->
  (complement_at s template (ahead d) ->
     Instructions._find_template s ip Instructions.Outward = ((ahead d + L) mod ss, L)) /\
  (~ complement_at s template (ahead d) -> complement_at s template (behind d) ->
     Instructions._find_template s ip Instructions.Outward = ((behind d + L) mod ss, L)).
Proof.
  intros Ht Hne ss L ahead behind Hd Hnear.
  unfold Instructions._find_template. rewrite Ht. subst L.
  destruct template as [|b t]; [done|]. set (T := b :: t) in *.
  fold ss. unfold Instructions.checks. fold ss.
  rewrite (seqZ_split d) by done. rewrite bind_app, bind_cons.
  fold (ahead d) (behind d).
  assert (Hbefore : Forall (fun y => Instructions._match_at s ((fun bit => 1 - bit) <$> T) y = false)
            (seqZ 1 (d - 1) ≫=
               (fun dist => [((ip + 1 + Z.of_nat (length T)) mod ss + dist) mod ss;
                             (ip - dist) mod ss]))).
  { apply Forall_forall. intros y Hy.
    apply list_elem_of_bind in Hy as (d' & Hy & Hd').
    apply elem_of_seqZ in Hd'. destruct (Hnear d') as [Ha Hb]; [lia|].
    apply not_true_is_false. intros E. apply match_at_spec in E.
    apply elem_of_cons in Hy as [-> | Hy]; [by apply Ha|].
    apply list_elem_of_singleton in Hy as ->. by apply Hb. }
  split.
  - intros Hm. cbn [app].
    rewrite find_first_match; [done|exact Hbefore|exact (proj2 (match_at_spec _ _ _) Hm)].
  - intros Hno Hm. cbn [app].
    change (ahead d :: behind d :: ?l) with ([ahead d] ++ behind d :: l).
    rewrite app_assoc.
    rewrite find_first_match; [done| |exact (proj2 (match_at_spec _ _ _) Hm)].
    apply Forall_app. split; [exact Hbefore|]. constructor; [|constructor].
    apply not_true_is_false. intros E. by apply match_at_spec in E.
Qed.

Lemma find_template_outward_nearest_witness :
  let s := Sim.set_soup (Soup.set_data ([7; 7; 1; 7; 7; 20; 0; 5; 7; 7; 1] ++ replicate 9 7)
                           (Sim.soup template_soup)) template_soup in
  Instructions._find_template s 5 Instructions.Outward = (11, 1).
Proof.
  intros s. apply (find_template_outward_nearest s 5 [0] 3).
  - reflexivity.
  - discriminate.
  - vm_compute. split; discriminate.
  - intros d' Hd'.
    assert (d' = 1 \/ d' = 2) as [-> | ->] by lia;
      (split; intros Hc; specialize (Hc O 0 eq_refl); vm_compute in Hc; discriminate).
  - intros [|[|j]] bit Hj; try discriminate Hj. injection Hj as <-. reflexivity.
Defined.

(** X17 (instructions.py, [_find_template]): in a soup of positive size the
    search answers [-1] exactly when no template follows [IP] or none of the
    addresses it examines holds the complement; any other answer is an
    address of the soup that lies just past a complement it examined. *)
Theorem find_template_fails_iff (s : Sim.t) (ip : Z) (direction : Instructions.Direction) :
  0 < Config.soup_size (Sim.config s) ->
  let ss := Config.soup_size (Sim.config s) in
  let template := Instructions.template_after s ip in
  let L := Z.of_nat (length template) in
  let r := Instructions._find_template s ip direction in
  r.2 = L /\
  (r.1 = -1 <->
     template = [] \/
     forall check, check ∈ Instructions.checks s ip L direction ->
                   ~ complement_at s template check) /\
  (r.1 <> -1 ->
     0 <= r.1 < ss /\
     exists check, check ∈ Instructions.checks s ip L direction /\
                   complement_at s template check /\ r.1 = (check + L) mod ss).
Proof.
  intros Hss ss template L r. subst r L.
  unfold Instructions._find_template. fold template. fold ss.
  destruct template as [|b t] eqn:ET; [simpl; split; [done|split; [tauto|done]]|].
  rewrite <- ET. set (L := Z.of_nat (length template)).
  assert (Hne : template <> []) by (rewrite ET; done).
  destruct (List.find _ _) as [check|] eqn:EF.
  - apply find_some_match in EF as [Hin Hm]. apply match_at_spec in Hm.
    pose proof (Z.mod_pos_bound (check + L) ss Hss) as Hb.
    cbn [fst snd]. split; [done|]. split.
    + split; [lia|]. intros [? | Hall]; [done|]. by destruct (Hall check Hin).
    + intros _. split; [lia|]. by exists check.
  - cbn [fst snd]. split; [done|]. split; [|done].
    split; [|done]. intros _. right. intros check Hin Hm.
    apply (proj2 (match_at_spec _ _ _)) in Hm.
    pose proof (find_none_elem _ _ _ EF Hin) as Hf. by rewrite Hm in Hf.
Qed.

Lemma find_template_fails_iff_witness :
  let s := Sim.set_soup (Soup.set_data ([7; 7; 1; 7; 7; 20; 0; 5; 7; 7; 1] ++ replicate 9 7)
                           (Sim.soup template_soup)) template_soup in
  (Instructions._find_template s 5 Instructions.Forward).1 <> -1.
Proof.
  intros s.
  pose proof (find_template_fails_iff s 5 Instructions.Forward ltac:(reflexivity)) as (_ & H & _).
  intros E. destruct (proj1 H E) as [E' | E']; [discriminate E'|].
  apply (E' 10); [vm_compute; set_solver|].
  intros [|[|j]] bit Hj; try discriminate Hj. injection Hj as <-. reflexivity.
Defined.

(** ** The memory a creature owns *)

Lemma in_region_covers (r : MemRegion.t) (addr ss : Z) :
  0 < ss -> 0 < MemRegion.size r <= ss ->
  Cell.in_region r addr ss = covers ss (region_pair r) addr.
Proof.
  intros Hss Hsz. unfold Cell.in_region, covers, region_pair. cbn [fst snd].
  destruct r as [p sz]. cbn [MemRegion.pos MemRegion.size] in *.
  rewrite (Zminus_mod addr p ss).
  rewrite <- (Zplus_mod_idemp_l p sz ss).
  pose proof (Z.mod_pos_bound addr ss Hss) as Ha.
  pose proof (Z.mod_pos_bound p ss Hss) as Hp.
  set (a' := addr mod ss) in *. set (p' := p mod ss) in *.
  assert (Hd : (a' - p') mod ss = if a' >=? p' then a' - p' else a' - p' + ss).
  { destruct (Z.geb_spec a' p').
    - apply Z.mod_small. lia.
    - symmetry. apply (Z.mod_unique _ _ (-1)); lia. }
  assert (He : (p' + sz) mod ss = if p' + sz <? ss then p' + sz else p' + sz - ss).
  { destruct (Z.ltb_spec (p' + sz) ss).
    - apply Z.mod_small. lia.
    - symmetry. apply (Z.mod_unique _ _ 1); lia. }
  rewrite Hd, He.
  destruct (Z.ltb_spec (p' + sz) ss), (Z.geb_spec a' p');
    repeat match goal with
           | |- context [?x <? ?y] => destruct (Z.ltb_spec x y)
           | |- context [?x <=? ?y] => destruct (Z.leb_spec x y)
           | |- context [?x >=? ?y] => destruct (Z.geb_spec x y)
           end; cbn; try reflexivity; lia.
Qed.

(** X18 (cell.py, [owns_mother] and [owns_daughter]): for a soup of
    positive size and a block of at least one and at most [soup_size]
    bytes, wherever it starts, a creature owns exactly the addresses that
    lie less than the block's size past its start, counted around the end
    of the soup.  An empty block is different: the test then accepts every
    address.  A creature with no daughter block owns no daughter address. *)
Theorem owns_wrapped_interval (c : Cell.t) (addr soup_size : Z) :
  0 < soup_size ->
  (0 < MemRegion.size (Cell.mm c) <= soup_size ->
     Cell.owns_mother c addr soup_size = true <->
     (addr - MemRegion.pos (Cell.mm c)) mod soup_size < MemRegion.size (Cell.mm c)) /\
  (forall md, Cell.md c = Some md -> 0 < MemRegion.size md <= soup_size ->
     Cell.owns_daughter c addr soup_size = true <->
     (addr - MemRegion.pos md) mod soup_size < MemRegion.size md) /\
  (MemRegion.size (Cell.mm c) = 0 -> Cell.owns_mother c addr soup_size = true) /\
  (forall md, Cell.md c = Some md -> MemRegion.size md = 0 ->
     Cell.owns_daughter c addr soup_size = true) /\
  (Cell.md c = None -> Cell.owns_daughter c addr soup_size = false).
Proof.
  intros Hss.
  assert (Hempty : forall r, MemRegion.size r = 0 -> Cell.in_region r addr soup_size = true).
  { intros r Hr. unfold Cell.in_region. rewrite Hr, Z.add_0_r, Z.ltb_irrefl.
    pose proof (Z.mod_pos_bound addr soup_size Hss).
    destruct (Z.geb_spec (addr mod soup_size) (MemRegion.pos r mod soup_size)); [done|].
    cbn [orb]. apply Z.ltb_lt. lia. }
  split; [|split; [|split; [|split]]].
  - intros Hsz. unfold Cell.owns_mother. rewrite in_region_covers by done.
    unfold covers, region_pair. cbn [fst snd]. apply Z.ltb_lt.
  - intros md Hmd Hsz. unfold Cell.owns_daughter. rewrite Hmd.
    rewrite in_region_covers by done.
    unfold covers, region_pair. cbn [fst snd]. apply Z.ltb_lt.
  - intros Hz. by apply Hempty.
  - intros md Hmd Hz. unfold Cell.owns_daughter. rewrite Hmd. by apply Hempty.
  - intros Hmd. unfold Cell.owns_daughter. by rewrite Hmd.
Qed.

Lemma owns_wrapped_interval_witness :
  Cell.owns_mother (Cell.init 95 10) 102 100 = true /\
  Cell.owns_mother (Cell.init 95 10) 5 100 = false.
Proof.
  pose proof (owns_wrapped_interval (Cell.init 95 10) 102 100 ltac:(lia)) as (H1 & _).
  pose proof (owns_wrapped_interval (Cell.init 95 10) 5 100 ltac:(lia)) as (H2 & _).
  split.
  - apply H1; [simpl; lia|]. reflexivity.
  - apply not_true_is_false. intros E. apply H2 in E; [|simpl; lia].
    vm_compute in E. discriminate E.
Defined.

Lemma in_region_mod (r : MemRegion.t) (a b ss : Z) :
  a mod ss = b mod ss -> Cell.in_region r a ss = Cell.in_region r b ss.
Proof. intros E. unfold Cell.in_region. by rewrite E. Qed.

Lemma read_write_other (soup : Soup.t) (dst value a : Z) :
  0 < Soup.size soup ->
  a mod Soup.size soup <> dst mod Soup.size soup ->
  Soup.read (Soup.write soup dst value) a = Soup.read soup a.
Proof.
  intros Hs Hne. unfold Soup.read, Soup.write. cbn [Soup.data Soup.size Soup.set_data].
  pose proof (Z.mod_pos_bound a (Soup.size soup) Hs).
  pose proof (Z.mod_pos_bound dst (Soup.size soup) Hs).
  rewrite list_lookup_insert_ne; [done|lia].
Qed.

(** What [movii] does once the two checks have passed, for the value it
    ends up writing. *)
Lemma movii_outcome (cell : CellId) (s : Sim.t) :
  exists s',
    Instructions.movii cell s = Ok tt s' /\
    ((Sim.soup s' = Sim.soup s /\
      (Cell.owns_daughter (Sim.cell s cell) (CPU.ax (Sim.cpu s cell))
         (Config.soup_size (Sim.config s)) = false \/
       Soup.check_write (Sim.soup s) (CPU.ax (Sim.cpu s cell)) cell (Sim.config s) = false)) \/
     (Cell.owns_daughter (Sim.cell s cell) (CPU.ax (Sim.cpu s cell))
        (Config.soup_size (Sim.config s)) = true /\
      Soup.check_write (Sim.soup s) (CPU.ax (Sim.cpu s cell)) cell (Sim.config s) = true /\
      exists value,
        Sim.soup s' = Soup.write (Sim.soup s) (CPU.ax (Sim.cpu s cell)) value /\
        (Qle_bool (Config.rate_mov_mut (Sim.config s)) 0 = true ->
         value = Soup.read (Sim.soup s) (CPU.bx (Sim.cpu s cell))))).
Proof.
  unfold Instructions.movii, bind at 1, get.
  destruct (Cell.owns_daughter _ _ _) eqn:Eo; cbn [negb].
  2:{ eexists. split; [reflexivity|]. left. split; [done|by left]. }
  destruct (Soup.check_write _ _ _ _) eqn:Ew; cbn [negb].
  2:{ eexists. split; [reflexivity|]. left. split; [done|by right]. }
  destruct (Qle_bool (Config.rate_mov_mut (Sim.config s)) 0) eqn:Er; cbn [negb].
  { eexists. split; [reflexivity|]. right. split; [done|]. split; [done|].
    eexists. split; [reflexivity|done]. }
  unfold bind at 1. unfold bind at 1. unfold m_random at 1.
  destruct (Random.random (Sim.rng s)) as [r g] eqn:Eg.
  destruct (float_lt r _).
  2:{ eexists. split; [reflexivity|]. right. split; [done|]. split; [done|].
      eexists. split; [reflexivity|done]. }
  unfold bind at 1. unfold m_random at 1. cbn [Sim.rng Sim.set_rng].
  destruct (Random.random g) as [r2 g2] eqn:Eg2.
  unfold bind at 1.
  destruct (float_lt r2 _).
  - unfold bind at 1. unfold m_randint at 1. cbn [Sim.rng Sim.set_rng].
    destruct (Random.randint 0 4 g2) as [[b|] g3] eqn:Eg3.
    + eexists. split; [reflexivity|]. right. split; [done|]. split; [done|].
      eexists. split; [reflexivity|done].
    + exfalso. unfold Random.randint in Eg3. simpl in Eg3.
      destruct (Random.next g2). discriminate Eg3.
  - unfold m_randint at 1. cbn [Sim.rng Sim.set_rng].
    destruct (Random.randint 0 31 g2) as [[b|] g3] eqn:Eg3.
    + eexists. split; [reflexivity|]. right. split; [done|]. split; [done|].
      eexists. split; [reflexivity|done].
    + exfalso. unfold Random.randint in Eg3. simpl in Eg3.
      destruct (Random.next g2). discriminate Eg3.
Qed.

(** X19 (instructions.py, [movii]): whatever the registers hold and
    whatever the copy mutation draws, [movii] returns and changes at most
    one byte of the soup, the one at [ax] modulo the soup size, and only
    when that address lies in the daughter block of the creature that runs
    it; every address the creature's daughter test rejects reads as before,
    and a creature without a daughter block leaves the whole soup as it
    was. *)
Theorem movii_writes_daughter_only (cell : CellId) (s : Sim.t) :
  0 < Config.soup_size (Sim.config s) ->
  Soup.size (Sim.soup s) = Config.soup_size (Sim.config s) ->
  let ss := Config.soup_size (Sim.config s) in
  exists s',
    Instructions.movii cell s = Ok tt s' /\
    Soup.free_blocks (Sim.soup s') = Soup.free_blocks (Sim.soup s) /\
    length (Soup.data (Sim.soup s')) = length (Soup.data (Sim.soup s)) /\
    (forall a, a mod ss <> CPU.ax (Sim.cpu s cell) mod ss ->
               Soup.read (Sim.soup s') a = Soup.read (Sim.soup s) a) /\
    (forall a, Cell.owns_daughter (Sim.cell s cell) a ss = false ->
               Soup.read (Sim.soup s') a = Soup.read (Sim.soup s) a) /\
    (Sim.md s cell = None -> Sim.soup s' = Sim.soup s).
Proof.
  intros Hss Hsize ss.
  destruct (movii_outcome cell s) as (s' & Hrun & Hcase).
  exists s'. split; [exact Hrun|].
  destruct Hcase as [[Esoup _] | (Eo & _ & value & Esoup & _)].
  - rewrite Esoup. repeat split; done.
  - rewrite Esoup. fold ss in Eo.
    assert (Hother : forall a, a mod ss <> CPU.ax (Sim.cpu s cell) mod ss ->
              Soup.read (Soup.write (Sim.soup s) (CPU.ax (Sim.cpu s cell)) value) a
              = Soup.read (Sim.soup s) a).
    { intros a Ha. apply read_write_other; rewrite Hsize; done. }
    split; [done|]. split; [unfold Soup.write; cbn; by rewrite length_insert|].
    split; [exact Hother|]. split.
    + intros a Ha. apply Hother. intros E.
      unfold Cell.owns_daughter in *. destruct (Cell.md (Sim.cell s cell)); [|done].
      rewrite (in_region_mod _ _ _ _ E) in Ha. congruence.
    + intros Hmd. unfold Cell.owns_daughter, Sim.md in *. by rewrite Hmd in Eo.
Qed.

Lemma movii_writes_daughter_only_witness :
  exists s', Instructions.movii 0%nat (mother_with_daughter 0) = Ok tt s' /\
             Soup.free_blocks (Sim.soup s') = Soup.free_blocks (Sim.soup (mother_with_daughter 0)).
Proof.
  destruct (movii_writes_daughter_only 0%nat (mother_with_daughter 0))
    as (s' & H1 & H2 & _); [reflexivity|reflexivity|].
  exists s'. split; assumption.
Defined.

(** X20 (instructions.py, [movii]): with the copy mutation switched off
    ([rate_mov_mut <= 0]), a [movii] whose target [ax] lies in the daughter
    block and may be written copies the byte at [bx] to [ax]: afterwards
    the soup reads at [ax] the low eight bits of what it read at [bx]. *)
Theorem movii_copies_byte (cell : CellId) (s : Sim.t) :
  0 < Config.soup_size (Sim.config s) ->
  Soup.size (Sim.soup s) = Config.soup_size (Sim.config s) ->
  length (Soup.data (Sim.soup s)) = Z.to_nat (Soup.size (Sim.soup s)) ->
  Qle_bool (Config.rate_mov_mut (Sim.config s)) 0 = true ->
  Cell.owns_daughter (Sim.cell s cell) (CPU.ax (Sim.cpu s cell))
    (Config.soup_size (Sim.config s)) = true ->
  Soup.check_write (Sim.soup s) (CPU.ax (Sim.cpu s cell)) cell (Sim.config s) = true ->
  exists s',
    Instructions.movii cell s = Ok tt s' /\
    Soup.read (Sim.soup s') (CPU.ax (Sim.cpu s cell))
    = Z.land (Soup.read (Sim.soup s) (CPU.bx (Sim.cpu s cell))) 255.
Proof.
  intros Hss Hsize Hlen Hrate Ho Hw.
  destruct (movii_outcome cell s) as (s' & Hrun & Hcase).
  exists s'. split; [exact Hrun|].
  destruct Hcase as [[_ [E | E]] | (_ & _ & value & Esoup & Hval)]; [congruence..|].
  rewrite Esoup, (Hval Hrate).
  unfold Soup.read at 1, Soup.write. cbn [Soup.data Soup.size Soup.set_data].
  pose proof (Z.mod_pos_bound (CPU.ax (Sim.cpu s cell)) (Soup.size (Sim.soup s))) as Hb.
  rewrite list_lookup_insert_eq; [done|]. rewrite Hlen. lia.
Qed.

Lemma movii_copies_byte_witness :
  let s := Sim.upd_cpu O (fun c => CPU.set_bx 100 (CPU.set_ax 503 c))
             (sim_write 100 26 (mother_with_daughter 0)) in
  exists s', Instructions.movii O s = Ok tt s' /\ Soup.read (Sim.soup s') 503 = 26.
Proof.
  intros s.
  destruct (movii_copies_byte O s) as (s' & H1 & H2);
    [reflexivity|reflexivity|reflexivity|reflexivity|reflexivity|reflexivity|].
  exists s'. split; [exact H1|exact H2].
Defined.

(** ** Calls and returns *)

Lemma cpu_upd_cpu (cell : CellId) (f : CPU.t -> CPU.t) (s : Sim.t) :
  (cell < length (Sim.cells s))%nat ->
  Sim.cpu (Sim.upd_cpu cell f s) cell = f (Sim.cpu s cell).
Proof.
  intros Hc. unfold Sim.cpu, Sim.cell, Sim.upd_cpu, Sim.upd_cell. cbn [Sim.cells Sim.set_cells].
  destruct (lookup_lt_is_Some_2 _ _ Hc) as [c Ec].
  rewrite list_lookup_alter_eq, Ec. reflexivity.
Qed.

Lemma upd_cpu_length (cell : CellId) (f : CPU.t -> CPU.t) (s : Sim.t) :
  length (Sim.cells (Sim.upd_cpu cell f s)) = length (Sim.cells s).
Proof. unfold Sim.upd_cpu, Sim.upd_cell. cbn [Sim.cells Sim.set_cells]. apply length_alter. Qed.

Lemma flaw_off (s : Sim.t) :
  Qle_bool (Config.rate_flaw (Sim.config s)) 0 = true -> Instructions._flaw s = Ok 0 s.
Proof. intros H. unfold Instructions._flaw, bind, get. by rewrite H. Qed.

(** X21 (instructions.py, [call] and [ret]; cpu.py, [push] and [pop]):
    with flaws switched off, a [call] whose template search succeeds jumps
    to the address found, and a [ret] executed by the same creature right
    after it brings the instruction pointer to the first address past the
    template of the [call], [(IP + 1 + L) mod soup_size], and the stack
    pointer back to where it stood before the [call]. *)
Theorem call_ret_round_trip (cell : CellId) (s : Sim.t) (addr tlen : Z) :
  (cell < length (Sim.cells s))%nat ->
  0 < Config.soup_size (Sim.config s) ->
  length (CPU.stack (Sim.cpu s cell)) = Z.to_nat CPU.STACK_SIZE ->
  0 <= CPU.sp (Sim.cpu s cell) < CPU.STACK_SIZE ->
  Qle_bool (Config.rate_flaw (Sim.config s)) 0 = true ->
  Instructions._find_template s (CPU.ip (Sim.cpu s cell)) Instructions.Outward = (addr, tlen) ->
  0 <= addr ->
  let ss := Config.soup_size (Sim.config s) in
  exists s1 s2,
    Instructions.call cell s = Ok tt s1 /\
    Instructions.ret_ cell s1 = Ok tt s2 /\
    CPU.ip (Sim.cpu s1 cell) = addr mod ss /\
    CPU.flag_e (Sim.cpu s1 cell) = false /\
    CPU.ip (Sim.cpu s2 cell) = (CPU.ip (Sim.cpu s cell) + 1 + tlen) mod ss /\
    CPU.sp (Sim.cpu s2 cell) = CPU.sp (Sim.cpu s cell) /\
    Sim.soup s2 = Sim.soup s.
Proof.
  intros Hc Hss Hlen Hsp Hflaw Hfind Haddr ss.
  set (s1 := Sim.upd_cpu cell (fun c =>
      CPU.set_flag_e false (CPU.set_ip_modified true
        (CPU.set_ip (addr mod ss)
           (CPU.push ((CPU.ip (Sim.cpu s cell) + 1 + tlen) mod ss) c)))) s).
  assert (Hcall : Instructions.call cell s = Ok tt s1).
  { unfold Instructions.call, bind at 1, get. rewrite Hfind.
    destruct (Z.geb_spec addr 0) as [_|]; [reflexivity|lia]. }
  assert (Hcpu1 : Sim.cpu s1 cell
            = CPU.set_flag_e false (CPU.set_ip_modified true
                (CPU.set_ip (addr mod ss)
                   (CPU.push ((CPU.ip (Sim.cpu s cell) + 1 + tlen) mod ss) (Sim.cpu s cell))))).
  { unfold s1. by rewrite cpu_upd_cpu. }
  assert (Hc1 : (cell < length (Sim.cells s1))%nat) by (unfold s1; by rewrite upd_cpu_length).
  destruct (CPU.pop (Sim.cpu s1 cell)) as [value cpu'] eqn:Epop.
  set (s2 := Sim.upd_cpu cell (fun c =>
      CPU.set_ip_modified true (CPU.set_ip ((value + 0) mod ss) c))
      (Sim.upd_cpu cell (fun _ => cpu') s1)).
  assert (Hret : Instructions.ret_ cell s1 = Ok tt s2).
  { unfold Instructions.ret_, bind at 1, get. rewrite Epop.
    unfold bind at 1. unfold modify at 1. unfold bind at 1.
    rewrite flaw_off by exact Hflaw. reflexivity. }
  exists s1, s2. split; [exact Hcall|]. split; [exact Hret|]. unfold s2.
  rewrite !cpu_upd_cpu by (rewrite ?upd_cpu_length; done).
  rewrite Hcpu1 in Epop |- *.
  pose proof (Z.mod_pos_bound (CPU.sp (Sim.cpu s cell) + 1) CPU.STACK_SIZE ltac:(done)) as Hb.
  unfold CPU.pop, CPU.push in Epop. cbn in Epop.
  rewrite list_lookup_insert_eq in Epop by (rewrite Hlen; unfold CPU.STACK_SIZE in *; lia).
  injection Epop as <- <-. cbn.
  split; [done|]. split; [done|]. split; [by rewrite Z.add_0_r, Z.mod_mod by (unfold ss; lia)|].
  split; [|done].
  unfold CPU.STACK_SIZE in *.
  destruct (Z.eq_dec (CPU.sp (Sim.cpu s cell)) 9) as [->|]; [reflexivity|].
  rewrite (Z.mod_small (_ + 1)) by lia. rewrite Z.mod_small; lia.
Qed.

Lemma call_ret_round_trip_witness :
  let s0 := make_cell 0 12 (Simulation.init (Random.of_list []) (test_config 20 25 10 0 0)) in
  let s := Sim.set_soup (Soup.set_data ([22; 0; 5; 7; 7; 1] ++ replicate 14 7) (Sim.soup s0)) s0 in
  exists s1 s2,
    Instructions.call O s = Ok tt s1 /\ Instructions.ret_ O s1 = Ok tt s2 /\
    CPU.ip (Sim.cpu s1 O) = 6 /\ CPU.ip (Sim.cpu s2 O) = 2.
Proof.
  intros s0 s.
  destruct (call_ret_round_trip O s 6 1) as (s1 & s2 & H1 & H2 & H3 & _ & H4 & _).
  - simpl. lia.
  - reflexivity.
  - reflexivity.
  - vm_compute. split; [discriminate|reflexivity].
  - reflexivity.
  - vm_compute. reflexivity.
  - lia.
  - exists s1, s2. split; [exact H1|]. split; [exact H2|]. split; [exact H3|exact H4].
Defined.

(** ** Allocating a daughter block *)

Lemma cell_upd_cell (cell : CellId) (f : Cell.t -> Cell.t) (s : Sim.t) :
  (cell < length (Sim.cells s))%nat ->
  Sim.cell (Sim.upd_cell cell f s) cell = f (Sim.cell s cell).
Proof.
  intros Hc. unfold Sim.cell, Sim.upd_cell. cbn [Sim.cells Sim.set_cells].
  destruct (lookup_lt_is_Some_2 _ _ Hc) as [c Ec].
  rewrite list_lookup_alter_eq, Ec. reflexivity.
Qed.

Lemma upd_cell_length (cell : CellId) (f : Cell.t -> Cell.t) (s : Sim.t) :
  length (Sim.cells (Sim.upd_cell cell f s)) = length (Sim.cells s).
Proof. unfold Sim.upd_cell. cbn [Sim.cells Sim.set_cells]. apply length_alter. Qed.

(** X22 (instructions.py, [mal]; soup.py, [Soup.allocate]): a creature
    without a daughter block that asks for [cx] bytes, [cx] being positive,
    at least [min_cell_size] and at most twice the size of its mother
    block, gets them whenever some block of the well-formed free list is
    large enough: [mal] returns with the flag E cleared, the daughter block
    is [cx] bytes at the address left in [ax], these bytes were free and
    are free no longer, the free memory shrinks by [cx], the copy counter
    starts at zero and no creature is reaped. *)
Theorem mal_allocates_daughter (cell : CellId) (s : Sim.t) :
  (cell < length (Sim.cells s))%nat ->
  let size := CPU.cx (Sim.cpu s cell) in
  Config.min_cell_size (Sim.config s) <= size <= 2 * MemRegion.size (Sim.mm s cell) ->
  0 < size ->
  Sim.md s cell = None ->
  free_list_wf (Sim.soup s) ->
  Exists (fun b : Z * Z => size <= b.2) (Soup.free_blocks (Sim.soup s)) ->
  exists s' p,
    Instructions.mal cell s = Ok tt s' /\
    Sim.md s' cell = Some (MemRegion.mk p size) /\
    CPU.ax (Sim.cpu s' cell) = p /\
    CPU.flag_e (Sim.cpu s' cell) = false /\
    Demographics.mov_daught (Sim.d s' cell) = 0 /\
    Demographics.mov_off_min (Sim.d s' cell) = size /\
    (forall a, p <= a < p + size ->
       Soup.is_free (Sim.soup s) a = true /\ Soup.is_free (Sim.soup s') a = false) /\
    Soup.total_free (Sim.soup s') = Soup.total_free (Sim.soup s) - size /\
    free_list_wf (Sim.soup s') /\
    Sim.reaper_queue s' = Sim.reaper_queue s.
Proof.
  intros Hc size Hrange Hpos Hmd Hwf Hfit.
  destruct (Soup.allocate (Sim.soup s) size (Config.mal_mode (Sim.config s)) (-1) (-1)
              (Sim.rng s)) as [[r soup'] g'] eqn:Halloc.
  destruct r as [[p sz]|].
  2:{ exfalso.
      pose proof (allocate_none_iff (Sim.soup s) size (Config.mal_mode (Sim.config s))
                    (-1) (-1) (Sim.rng s) ltac:(lia)) as [[Hnone _] _].
      rewrite Halloc in Hnone. specialize (Hnone eq_refl).
      apply Exists_exists in Hfit as (b & Hb & Hle).
      apply (proj1 (Forall_forall _ _) Hnone) in Hb. lia. }
  destruct (allocate_block_spec _ _ _ _ _ _ _ _ _ _ Hwf Hpos Halloc)
    as (-> & Hwf' & Htot & Hfree).
  set (s1 := Sim.set_rng g' (Sim.set_soup soup' s)).
  set (s' := Sim.upd_cpu cell (CPU.set_flag_e false)
      (Sim.upd_d cell (fun d =>
         Demographics.set_mov_daught 0
           (Demographics.set_mov_off_max 0 (Demographics.set_mov_off_min size d)))
        (Sim.upd_cpu cell (CPU.set_ax p)
           (Sim.upd_cell cell (Cell.set_md (Some (MemRegion.mk p size))) s1)))).
  exists s', p. split.
  { unfold Instructions.mal, bind at 1, get. fold size.
    destruct (Z.ltb_spec size (Config.min_cell_size (Sim.config s))); [lia|].
    destruct (Z.gtb_spec size (MemRegion.size (Sim.mm s cell) * 2)); [lia|].
    cbn [orb]. rewrite Hmd. unfold bind at 1, ret at 1. unfold bind at 1.
    unfold Instructions.m_allocate at 1. rewrite Halloc. reflexivity. }
  assert (Hcell : Sim.cell s' cell
            = Cell.set_cpu (CPU.set_flag_e false (CPU.set_ax p (Sim.cpu s cell)))
                (Cell.set_d (Demographics.set_mov_daught 0
                               (Demographics.set_mov_off_max 0
                                  (Demographics.set_mov_off_min size (Sim.d s cell))))
                   (Cell.set_md (Some (MemRegion.mk p size)) (Sim.cell s cell)))).
  { unfold s', Sim.upd_cpu, Sim.upd_d.
    rewrite !cell_upd_cell by (rewrite ?upd_cell_length; exact Hc). reflexivity. }
  unfold Sim.md, Sim.cpu, Sim.d. rewrite Hcell.
  repeat (split; [reflexivity|]).
  split; [exact Hfree|]. split; [exact Htot|]. split; [exact Hwf'|reflexivity].
Qed.

Lemma mal_allocates_daughter_witness :
  let s := Sim.upd_cpu O (CPU.set_cx 80)
             (make_cell 100 80 (Simulation.init (Random.of_list []) (test_config 1000 25 10 0 0))) in
  exists s', Instructions.mal O s = Ok tt s' /\ Sim.md s' O = Some (MemRegion.mk 0 80).
Proof.
  intros s.
  destruct (mal_allocates_daughter O s) as (s' & p & H1 & H2 & _).
  - simpl. lia.
  - vm_compute. split; discriminate.
  - reflexivity.
  - reflexivity.
  - unfold free_list_wf. vm_compute. repeat split; try discriminate; exact I.
  - apply Exists_cons_hd. vm_compute. discriminate.
  - exists s'. split; [exact H1|].
    vm_compute in H1. injection H1 as <-. vm_compute. reflexivity.
Defined.

(** ** Division *)






(** ** The owner table *)

Lemma owners_sorted_weaken lb lb' os :
  lb' <= lb -> owners_sorted lb os -> owners_sorted lb' os.
Proof. destruct os as [|[[p sz] c] rest]; simpl; [done|]. intros ? (? & ? & ?). repeat split; [lia|done|done]. Qed.

Lemma owners_sorted_lower lb os i e :
  owners_sorted lb os -> os !! i = Some e -> lb <= e.1.1 /\ 0 <= e.1.2.
Proof.
  revert lb i. induction os as [|[[p sz] c] rest IH]; intros lb i Hs Hi; [done|].
  simpl in Hs. destruct Hs as (H1 & H2 & H3).
  destruct i as [|i]; simpl in Hi.
  - injection Hi as <-. simpl. lia.
  - destruct (IH _ _ H3 Hi). lia.
Qed.

Lemma owners_sorted_pair lb os i j e e' :
  owners_sorted lb os -> (i < j)%nat -> os !! i = Some e -> os !! j = Some e' ->
  e.1.1 + e.1.2 <= e'.1.1.
Proof.
  revert lb i j. induction os as [|[[p sz] c] rest IH]; intros lb i j Hs Hij Hi Hj; [done|].
  simpl in Hs. destruct Hs as (H1 & H2 & H3).
  destruct j as [|j]; [lia|]. simpl in Hj.
  destruct i as [|i]; simpl in Hi.
  - injection Hi as <-. simpl. by destruct (owners_sorted_lower _ _ _ _ H3 Hj).
  - eapply (IH _ i j); [done|lia|done|done].
Qed.

Lemma owner_at_loop_spec lb os addr fuel lo hi :
  owners_sorted lb os ->
  (hi <= length os)%nat -> (hi - lo < fuel)%nat ->
  (forall i e, (i < lo)%nat -> os !! i = Some e -> e.1.1 + e.1.2 <= addr) ->
  (forall i e, (hi <= i)%nat -> os !! i = Some e -> addr < e.1.1) ->
  match Soup.owner_at_loop fuel os addr lo hi with
  | Some c => exists e, e ∈ os /\ e.2 = c /\ holds e addr
  | None => forall e, e ∈ os -> ~ holds e addr
  end.
Proof.
  intros Hs. revert lo hi. induction fuel as [|fuel IH]; intros lo hi Hhi Hfuel Hlo Hup; [lia|].
  cbn [Soup.owner_at_loop]. destruct (Nat.ltb_spec lo hi) as [Hlt|Hge].
  - assert (Hmid : (lo <= (lo + hi) / 2 < hi)%nat).
    { pose proof (Nat.div_mod_eq (lo + hi) 2).
      pose proof (Nat.mod_upper_bound (lo + hi) 2). lia. }
    set (mid := ((lo + hi) / 2)%nat) in *.
    destruct (lookup_lt_is_Some_2 os mid ltac:(lia)) as [[[p sz] c] Hm].
    rewrite Hm.
    destruct (Z.ltb_spec addr p) as [Hap|Hap].
    + apply IH; [lia|lia|done|].
      intros i e Hi He. destruct (decide (i = mid)) as [->|Hne].
      * rewrite Hm in He. injection He as <-. simpl. lia.
      * pose proof (owners_sorted_pair _ _ mid i _ _ Hs ltac:(lia) Hm He) as Hp.
        destruct (owners_sorted_lower _ _ _ _ Hs Hm) as [_ Hsz]. simpl in *. lia.
    + destruct (Z.geb_spec addr (p + sz)) as [Hae|Hae].
      * apply IH; [lia|lia| |done].
        intros i e Hi He. destruct (decide (i = mid)) as [->|Hne].
        -- rewrite Hm in He. injection He as <-. simpl. lia.
        -- pose proof (owners_sorted_pair _ _ i mid _ _ Hs ltac:(lia) He Hm) as Hp.
           simpl in *. lia.
      * exists (p, sz, c). split; [by eapply list_elem_of_lookup_2|].
        split; [done|]. unfold holds. simpl. lia.
  - intros e He [H1 H2]. apply list_elem_of_lookup_1 in He as [i Hi].
    destruct (Nat.lt_ge_cases i lo) as [Hil|Hil].
    + specialize (Hlo i e Hil Hi). lia.
    + specialize (Hup i e ltac:(lia) Hi). lia.
Qed.

(** What the binary search answers on a sorted table. *)
Lemma owner_at_spec (s : Soup.t) (lb addr : Z) :
  owners_sorted lb (Soup.owners s) ->
  (forall c, Soup.owner_at s addr = Some c <->
             exists e, e ∈ Soup.owners s /\ e.2 = c /\ holds e (addr mod Soup.size s)) /\
  (Soup.owner_at s addr = None <->
   forall e, e ∈ Soup.owners s -> ~ holds e (addr mod Soup.size s)).
Proof.
  intros Hs. unfold Soup.owner_at.
  pose proof (owner_at_loop_spec lb (Soup.owners s) (addr mod Soup.size s)
                (S (length (Soup.owners s))) O (length (Soup.owners s)) Hs
                ltac:(lia) ltac:(lia)) as H.
  assert (Huniq : forall e e', e ∈ Soup.owners s -> e' ∈ Soup.owners s ->
            holds e (addr mod Soup.size s) -> holds e' (addr mod Soup.size s) -> e = e').
  { intros e e' He He' [H1 H2] [H1' H2'].
    apply list_elem_of_lookup_1 in He as [i Hi]. apply list_elem_of_lookup_1 in He' as [j Hj].
    destruct (Nat.lt_trichotomy i j) as [Hij|[->|Hij]].
    - pose proof (owners_sorted_pair _ _ i j _ _ Hs Hij Hi Hj). lia.
    - congruence.
    - pose proof (owners_sorted_pair _ _ j i _ _ Hs Hij Hj Hi). lia. }
  destruct (Soup.owner_at_loop _ _ _ _ _) as [c|].
  - destruct H as (e & He & Hc & Hh); [intros; lia|intros i e' Hi He'; apply lookup_lt_Some in He'; lia|].
    split.
    + intros c'. split.
      * intros [= <-]. by exists e.
      * intros (e' & He' & Hc' & Hh'). rewrite <- Hc, <- Hc'. by rewrite (Huniq e e' He He' Hh Hh').
    + split; [done|]. intros Hnone. by destruct (Hnone e He).
  - split.
    + intros c. split; [done|]. intros (e & He & _ & Hh). exfalso. eapply H; try done.
      * intros; lia.
      * intros i e' Hi He'. apply lookup_lt_Some in He'. lia.
    + split; [|done]. intros _. apply H.
      * intros; lia.
      * intros i e' Hi He'. apply lookup_lt_Some in He'. lia.
Qed.

(** X24 (soup.py, [Soup.owner_at]): on an owner table that is sorted by
    position and whose regions do not overlap, the binary search finds the
    owner of an address exactly when some region of the table holds the
    address reduced modulo the soup size, and answers [None] exactly when
    none does.  A region is taken as it is written, from [pos] up to
    [pos + size]: the part of a region that runs past the end of the soup
    is not found at the addresses it wraps onto. *)
Theorem owner_at_finds_owner (s : Soup.t) (lb addr : Z) :
  owners_sorted lb (Soup.owners s) ->
  (forall c, Soup.owner_at s addr = Some c <->
             exists e, e ∈ Soup.owners s /\ e.2 = c /\ holds e (addr mod Soup.size s)) /\
  (Soup.owner_at s addr = None <->
   forall e, e ∈ Soup.owners s -> ~ holds e (addr mod Soup.size s)).
Proof. apply owner_at_spec. Qed.

Lemma owner_at_finds_owner_witness :
  let s := Soup.mk 100 (replicate 100 0) [(10, 70)] [(0, 10, O); (80, 20, 1%nat)] in
  Soup.owner_at s 185 = Some 1%nat /\ Soup.owner_at s 15 = None.
Proof.
  intros s.
  assert (Hs : owners_sorted 0 (Soup.owners s)) by (simpl; lia).
  split.
  - apply (proj1 (owner_at_finds_owner s 0 185 Hs)).
    exists (80, 20, 1%nat).
    split; [apply elem_of_cons; right; apply elem_of_cons; by left|].
    split; [reflexivity|]. vm_compute. split; [discriminate|reflexivity].
  - apply (proj2 (owner_at_finds_owner s 0 15 Hs)).
    intros e He. unfold holds.
    change (15 mod Soup.size s) with 15.
    apply elem_of_cons in He as [-> | He]; [simpl; lia|].
    apply list_elem_of_singleton in He as ->. simpl. lia.
Defined.

(** ** Booting the ancestor *)

Lemma read_block_data (s s' : Soup.t) addr sz :
  Soup.size s' = Soup.size s -> Soup.data s' = Soup.data s ->
  Soup.read_block s' addr sz = Soup.read_block s addr sz.
Proof. intros E1 E2. unfold Soup.read_block. by rewrite E1, E2. Qed.

Lemma register_init (c : Cell.t) (soup : Soup.t) :
  (GeneBank.register GeneBank.init c soup).2
  = Cell.set_d (Demographics.set_genotype
                  (SizeClass.fmt_04d (MemRegion.size (Cell.mm c)) +:+ "aaa") (Cell.d c)) c.
Proof.
  unfold GeneBank.register.
  cbn [GeneBank.size_classes GeneBank.genotypes GeneBank.arena GeneBank.init].
  rewrite lookup_empty. cbn [default SizeClass.init SizeClass.genotypes].
  rewrite lookup_empty. reflexivity.
Qed.

(** X25 (simulation.py, [boot]; soup.py, [write_block], [allocate_at],
    [add_owner]; genebank.py, [register]): booting a fresh simulation with
    a genome of at least one and at most [soup_size] bytes returns and
    leaves exactly one creature.  Its mother block is the genome's length
    at [soup_size // 2 - len // 2], inside the soup, and reads back as the
    genome; the creature is alive, has no daughter block, starts executing
    at the first byte of its block and is named after its size with the
    label [aaa].  It is the one entry of the scheduler's queue, of the
    reaper's queue and of the owner table, and exactly the addresses of its
    block have left the free list. *)
Theorem boot_places_ancestor (ambient : Random.t) (config : Config.t) (genome : list Z) :
  0 < Z.of_nat (length genome) <= Config.soup_size config ->
  let ss := Config.soup_size config in
  let len := Z.of_nat (length genome) in
  let pos := ss / 2 - len / 2 in
  exists s,
    Simulation.boot genome (Simulation.init ambient config) = Ok tt s /\
    (0 <= pos /\ pos + len <= ss) /\
    Soup.read_block (Sim.soup s) pos len = genome /\
    length (Sim.cells s) = 1%nat /\
    (Sim.mm s O = MemRegion.mk pos len /\ Sim.md s O = None /\
     Cell.alive (Sim.cell s O) = true /\ CPU.ip (Sim.cpu s O) = pos /\
     Demographics.genotype (Sim.d s O) = SizeClass.fmt_04d len +:+ "aaa") /\
    Scheduler.queue (Sim.scheduler s) = [O] /\
    Sim.reaper_queue s = [O] /\
    Soup.owners (Sim.soup s) = [(pos, len, O)] /\
    Soup.total_free (Sim.soup s) = ss - len /\
    (forall a, 0 <= a < ss ->
       Soup.is_free (Sim.soup s) a = negb ((pos <=? a) && (a <? pos + len))).
Proof.
  intros Hlen ss len pos. unfold Simulation.boot.
  set (s0 := Simulation.init ambient config).
  change (Config.soup_size (Sim.config s0)) with ss. fold len. fold pos.
  assert (Hpos : 0 <= pos /\ pos + len <= ss).
  { subst pos. pose proof (Z.div_mod ss 2 ltac:(lia)). pose proof (Z.div_mod len 2 ltac:(lia)).
    pose proof (Z.mod_pos_bound ss 2 ltac:(lia)). pose proof (Z.mod_pos_bound len 2 ltac:(lia)).
    lia. }
  assert (Hmod : pos mod ss = pos) by (apply Z.mod_small; lia).
  destruct (write_read_block (Sim.soup s0) pos genome) as (soup1 & Ew & Er & Es1 & _ & Ef1).
  { simpl. lia. }
  { simpl. rewrite length_replicate. reflexivity. }
  { simpl. lia. }
  rewrite Ew. fold len in Er.
  change (Soup.size (Sim.soup s0)) with ss in Es1.
  change (Soup.free_blocks (Sim.soup s0)) with [(0, ss)] in Ef1.
  assert (Eo1 : Soup.owners soup1 = []).
  { unfold Soup.write_block in Ew. destruct (_ <=? _); [by injection Ew as <-|].
    destruct (_ <=? _); [by injection Ew as <-|done]. }
  set (fb := (if 0 <? pos then [(0, pos - 0)] else [])
             ++ (if 0 + ss - (pos + len) >? 0
                 then [(pos + len, 0 + ss - (pos + len))] else []) ++ []).
  assert (Ealloc : Soup.allocate_at soup1 pos len = (true, Soup.set_free_blocks fb soup1)).
  { unfold Soup.allocate_at. rewrite Es1, Hmod, Ef1. cbn [Soup.allocate_at_blocks].
    destruct (Z.leb_spec 0 pos); [|lia].
    destruct (Z.geb_spec (0 + ss) (pos + len)); [|lia]. done. }
  rewrite Ealloc. cbn [snd].
  eexists. split; [reflexivity|]. split; [exact Hpos|].
  unfold Reaper.add, Sim.mm, Sim.md, Sim.cpu, Sim.d, Sim.reaper_queue, Sim.cell,
    Sim.upd_cell, s0, Simulation.init.
  cbn [Sim.cells Sim.set_cells Sim.soup Sim.set_soup Sim.scheduler Sim.set_scheduler
       Sim.reaper Sim.set_reaper Sim.genebank Sim.set_genebank Sim.config Sim.mutations
       Sim.events Sim.inst_executed Sim.rng
       length app lookup list_lookup default ReaperState.queue].
  unfold id.
  set (dc := Cell.set_d _ _).
  set (soup3 := Soup.add_owner _ _ _).
  pose proof (register_init dc soup3) as Hreg.
  destruct (GeneBank.register GeneBank.init dc soup3) as [[gt gb'] c']. cbn [snd] in Hreg.
  subst c'.
  set (s1 := Sim.set_cells _ (Sim.set_genebank _ _)).
  assert (Hshape : forall y,
            y = Simulation._schedule_next_disturbance len
                  (if Sim.mutations s1 then Mutations.update_rates len 1 s1 else s1) ->
            Sim.soup y = Sim.soup s1 /\ Sim.cells y = Sim.cells s1 /\
            Sim.scheduler y = Sim.scheduler s1 /\ Sim.reaper y = Sim.reaper s1).
  { intros y ->. unfold Simulation._schedule_next_disturbance, Mutations.update_rates.
    destruct (Sim.mutations s1); repeat (match goal with |- context [if ?b then _ else _] =>
      destruct b end); done. }
  destruct (Hshape _ eq_refl) as (Esoup & Ecells & Esched & Ereap).
  rewrite Esoup, Ecells, Esched, Ereap. clear Hshape Esoup Ecells Esched Ereap.
  subst s1 soup3 dc. unfold Soup.add_owner.
  cbn [Sim.cells Sim.set_cells Sim.soup Sim.set_soup Sim.scheduler Sim.set_scheduler
       Sim.reaper Sim.set_reaper Sim.set_genebank
       Soup.owners Soup.set_owners Soup.set_free_blocks Soup.free_blocks Soup.data Soup.size
       app length alter list_alter lookup list_lookup default ReaperState.queue
       Scheduler.add Scheduler.queue Scheduler.init].
  rewrite Eo1.
  split.
  { erewrite read_block_data; [exact Er|done|done]. }
  split; [done|]. split; [done|]. split; [done|]. split; [done|].
  split; [done|].
  split.
  { unfold Soup.total_free.
    cbn [Soup.free_blocks Soup.set_owners Soup.set_free_blocks]. subst fb.
    destruct (Z.ltb_spec 0 pos), (Z.gtb_spec (0 + ss - (pos + len)) 0); simpl; lia. }
  intros a Ha. unfold Soup.is_free.
  cbn [Soup.free_blocks Soup.size Soup.set_owners Soup.set_free_blocks]. rewrite Es1.
  rewrite (Z.mod_small a ss) by lia. subst fb.
  destruct (Z.ltb_spec 0 pos), (Z.gtb_spec (0 + ss - (pos + len)) 0); simpl;
    repeat match goal with
           | |- context [?u <=? ?v] => destruct (Z.leb_spec u v)
           | |- context [?u <? ?v] => destruct (Z.ltb_spec u v)
           end; simpl; try reflexivity; lia.
Qed.

Lemma boot_places_ancestor_witness :
  exists s,
    Simulation.boot idle_ancestor
      (Simulation.init (Random.of_list []) (test_config 100 25 10 0 0)) = Ok tt s /\
    Sim.mm s O = MemRegion.mk 44 12 /\
    Soup.total_free (Sim.soup s) = 88.
Proof.
  destruct (boot_places_ancestor (Random.of_list []) (test_config 100 25 10 0 0) idle_ancestor)
    as (s & H1 & _ & _ & _ & (H2 & _) & _ & _ & _ & H3 & _).
  - simpl. lia.
  - exists s. split; [exact H1|]. split; [exact H2|exact H3].
Defined.

(** ** Genotype names *)

Lemma letter_inj (n m : Z) :
  SizeClass.letter n = SizeClass.letter m -> n mod 26 = m mod 26.
Proof.
  unfold SizeClass.letter. intros [= E].
  pose proof (Z.mod_pos_bound n 26 ltac:(lia)). pose proof (Z.mod_pos_bound m 26 ltac:(lia)).
  apply (f_equal nat_of_ascii) in E.
  rewrite !nat_ascii_embedding in E by lia. lia.
Qed.

Lemma append_inj_r (p a b : string) : p +:+ a = p +:+ b -> a = b.
Proof. induction p as [|c p IH]; simpl; [done|]. intros [= E]. by apply IH. Qed.

Lemma int_to_label_inj (n m : Z) :
  0 <= n < 17576 -> 0 <= m < 17576 ->
  SizeClass._int_to_label n = SizeClass._int_to_label m -> n = m.
Proof.
  intros Hn Hm. unfold SizeClass._int_to_label.
  intros E.
  assert (E3 : SizeClass.letter (n / 26 / 26) = SizeClass.letter (m / 26 / 26)
               /\ SizeClass.letter (n / 26) = SizeClass.letter (m / 26)
               /\ SizeClass.letter n = SizeClass.letter m).
  { unfold SizeClass.letter in *. simpl in E. injection E as E1 E2 E3.
    repeat split; f_equal; assumption. }
  destruct E3 as (E1%letter_inj & E2%letter_inj & E3%letter_inj).
  pose proof (Z.div_mod n 26 ltac:(lia)). pose proof (Z.div_mod m 26 ltac:(lia)).
  pose proof (Z.div_mod (n / 26) 26 ltac:(lia)). pose proof (Z.div_mod (m / 26) 26 ltac:(lia)).
  assert (0 <= n / 26 / 26 < 26).
  { split; [apply Z.div_pos; [apply Z.div_pos|]; lia|].
    apply Z.div_lt_upper_bound; [lia|]. apply Z.div_lt_upper_bound; lia. }
  assert (0 <= m / 26 / 26 < 26).
  { split; [apply Z.div_pos; [apply Z.div_pos|]; lia|].
    apply Z.div_lt_upper_bound; [lia|]. apply Z.div_lt_upper_bound; lia. }
  rewrite (Z.mod_small (n / 26 / 26)), (Z.mod_small (m / 26 / 26)) in E1 by lia.
  lia.
Qed.

Lemma int_to_label_period (n : Z) :
  SizeClass._int_to_label (n + 17576) = SizeClass._int_to_label n.
Proof.
  unfold SizeClass._int_to_label, SizeClass.letter.
  replace (n + 17576) with (n + 676 * 26) by lia.
  rewrite Z.div_add by lia. rewrite Z.mod_add by lia.
  replace (n / 26 + 676) with (n / 26 + 26 * 26) by lia.
  rewrite Z.div_add by lia. rewrite Z.mod_add by lia.
  replace (n / 26 / 26 + 26) with (n / 26 / 26 + 1 * 26) by lia.
  rewrite Z.mod_add by lia. reflexivity.
Qed.

(** X26 (genebank.py, [SizeClass.next_name] and [_int_to_label]): within
    one size class the names handed out are pairwise different for the
    first 26^3 = 17576 labels, and then they start over: the counter
    advances by one at each call, and the name minted at label [n + 17576]
    is the name minted at label [n]. *)
Theorem next_name_distinct_then_repeats (genotypes : gmap Z GtId) (size : Z) :
  (forall n, SizeClass.next_label (SizeClass.next_name (SizeClass.mk genotypes n) size).2
             = n + 1) /\
  (forall n m, 0 <= n < 17576 -> 0 <= m < 17576 ->
     (SizeClass.next_name (SizeClass.mk genotypes n) size).1
     = (SizeClass.next_name (SizeClass.mk genotypes m) size).1 -> n = m) /\
  (forall n, (SizeClass.next_name (SizeClass.mk genotypes (n + 17576)) size).1
             = (SizeClass.next_name (SizeClass.mk genotypes n) size).1).
Proof.
  unfold SizeClass.next_name. cbn [fst snd SizeClass.next_label].
  split; [done|]. split.
  - intros n m Hn Hm E. apply append_inj_r in E. by apply int_to_label_inj.
  - intros n. by rewrite int_to_label_period.
Qed.

(** ** Registering a genome twice *)

Lemma register_name gb cell soup :
  Demographics.genotype (Cell.d (GeneBank.register gb cell soup).2)
  = match GeneBank.arena (GeneBank.register gb cell soup).1.2
          !! (GeneBank.register gb cell soup).1.1 with
    | Some g => Genotype.name g
    | None => EmptyString
    end.
Proof.
  unfold GeneBank.register.
  destruct (SizeClass.genotypes _ !! _); [done|].
  destruct (SizeClass.next_name _ _). done.
Qed.

Lemma register_files gb cell soup :
  SizeClass.genotypes (size_class_of (GeneBank.register gb cell soup).1.2 cell)
    !! GeneBank._genome_hash (mother_bytes cell soup)
  = Some (GeneBank.register gb cell soup).1.1.
Proof.
  destruct (SizeClass.genotypes (size_class_of gb cell)
              !! GeneBank._genome_hash (mother_bytes cell soup)) as [gt|] eqn:E.
  - rewrite (register_reuse _ _ _ _ E). unfold size_class_of at 1.
    cbn [fst snd GeneBank.size_classes]. by rewrite lookup_insert_eq.
  - rewrite (register_mint _ _ _ E). unfold size_class_of.
    cbn [fst snd GeneBank.size_classes].
    rewrite (lookup_insert_eq (GeneBank.size_classes gb)).
    cbn [default from_option id SizeClass.genotypes]. by rewrite lookup_insert_eq.
Qed.

(** X27 (genebank.py, [GeneBank.register]): a creature registered right
    after another one of the same size whose mother block holds the same
    bytes joins that creature's genotype: [register] returns the same
    genotype, gives the creature the same name, mints no new name, and the
    one change to the genotypes is that this one counts one more member,
    its maximum raised to the new count if that is larger. *)
Theorem register_same_genome (gb : GeneBank.t) (c1 c2 : Cell.t) (soup1 soup2 : Soup.t) :
  MemRegion.size (Cell.mm c1) = MemRegion.size (Cell.mm c2) ->
  mother_bytes c1 soup1 = mother_bytes c2 soup2 ->
  let r1 := GeneBank.register gb c1 soup1 in
  let r2 := GeneBank.register r1.1.2 c2 soup2 in
  r2.1.1 = r1.1.1 /\
  Demographics.genotype (Cell.d r2.2) = Demographics.genotype (Cell.d r1.2) /\
  GeneBank.genotypes r2.1.2 = GeneBank.genotypes r1.1.2 /\
  GeneBank.arena r2.1.2 = alter GeneBank.bump r1.1.1 (GeneBank.arena r1.1.2) /\
  (forall g, GeneBank.arena r1.1.2 !! r1.1.1 = Some g ->
     exists g', GeneBank.arena r2.1.2 !! r1.1.1 = Some g' /\
                Genotype.population g' = Genotype.population g + 1 /\
                Genotype.max_pop g' = Z.max (Genotype.max_pop g) (Genotype.population g + 1) /\
                Genotype.name g' = Genotype.name g /\
                Genotype.genome g' = Genotype.genome g).
Proof.
  intros Hsize Hbytes r1 r2.
  pose proof (register_files gb c1 soup1) as Hfile. fold r1 in Hfile.
  assert (Hfile2 : SizeClass.genotypes (size_class_of r1.1.2 c2)
                     !! GeneBank._genome_hash (mother_bytes c2 soup2) = Some r1.1.1).
  { rewrite <- Hbytes. unfold size_class_of in *. by rewrite <- Hsize. }
  pose proof (register_reuse _ _ _ _ Hfile2) as E. fold r2 in E.
  pose proof (register_name gb c1 soup1) as N1. fold r1 in N1.
  pose proof (register_name r1.1.2 c2 soup2) as N2. fold r2 in N2.
  rewrite E in N2 |- *. cbn [fst snd GeneBank.arena GeneBank.genotypes] in N2 |- *.
  split; [done|]. split; [|split; [done|split; [done|]]].
  - rewrite N1, N2. destruct (GeneBank.arena r1.1.2 !! r1.1.1) as [g|] eqn:Eg.
    + by rewrite list_lookup_alter_eq, Eg.
    + by rewrite list_lookup_alter_eq, Eg.
  - intros g Eg. rewrite list_lookup_alter_eq, Eg. eexists. split; [reflexivity|]. done.
Qed.

Lemma register_same_genome_witness :
  let c1 := Cell.init 0 2 in
  let c2 := Cell.init 4 2 in
  let soup := Soup.set_data ([2; 0; 0; 1; 2; 0] ++ replicate 94 0) (Soup.init 100) in
  let r1 := GeneBank.register GeneBank.init c1 soup in
  let r2 := GeneBank.register r1.1.2 c2 soup in
  r2.1.1 = r1.1.1 /\ Genotype.population <$> GeneBank.arena r2.1.2 !! O = Some 2.
Proof.
  intros c1 c2 soup r1 r2.
  destruct (register_same_genome GeneBank.init c1 c2 soup soup eq_refl eq_refl)
    as (H1 & _ & _ & _ & H5).
  split; [exact H1|].
  destruct (H5 (Genotype.mk "0002aaa" [2; 0] 1 0 1 EmptyString) eq_refl) as (g' & Hg' & Hp & _).
  change (GeneBank.arena r2.1.2 !! O) with
    (GeneBank.arena (GeneBank.register (GeneBank.register GeneBank.init c1 soup).1.2 c2 soup).1.2
       !! (GeneBank.register GeneBank.init c1 soup).1.1).
  rewrite Hg'. simpl. f_equal. exact Hp.
Defined.

(** ** Allocating a given range *)

Lemma allocate_at_blocks_spec lo blocks lim a size :
  gapped lo blocks lim -> 0 < size ->
  match Soup.allocate_at_blocks blocks a size with
  | Some blocks' =>
    (exists b, b ∈ blocks /\ b.1 <= a /\ a + size <= b.1 + b.2)
    /\ gapped lo blocks' lim
    /\ foldr (fun (b : Z * Z) acc => b.2 + acc) 0 blocks'
       = foldr (fun (b : Z * Z) acc => b.2 + acc) 0 blocks - size
    /\ forall x, existsb (fun b => in_block b x) blocks'
                 = existsb (fun b => in_block b x) blocks && negb (in_block (a, size) x)
  | None => forall b, b ∈ blocks -> ~ (b.1 <= a /\ a + size <= b.1 + b.2)
  end.
Proof.
  intros G Hsize. revert lo G.
  induction blocks as [|[pos bs] rest IH]; intros lo G; cbn [Soup.allocate_at_blocks].
  - intros b Hb. by apply elem_of_nil in Hb.
  - simpl in G. destruct G as (G1 & G2 & G3 & G4).
    destruct (Z.leb_spec pos a) as [Hpa|Hpa]; cbn [andb].
    2:{ specialize (IH _ G4).
        destruct (Soup.allocate_at_blocks rest a size) as [rest'|].
        - destruct IH as ((b & Hb & Hb1 & Hb2) & _).
          apply gapped_lower in G4.
          apply (proj1 (Forall_forall _ _) G4) in Hb. lia.
        - intros b [-> | Hb]%elem_of_cons; [simpl; lia|by apply IH]. }
    destruct (Z.geb_spec (pos + bs) (a + size)) as [Hend|Hend].
    + split; [exists (pos, bs); split; [by left|simpl; lia]|].
      assert (Hrest : forall x, x < pos + bs -> existsb (fun b => in_block b x) rest = false).
      { intros x Hx. apply existsb_in_block_false.
        eapply Forall_impl; [apply (gapped_lower _ _ _ G4)|]. simpl. intros; lia. }
      split; [|split].
      * destruct (Z.ltb_spec pos a), (Z.gtb_spec (pos + bs - (a + size)) 0); simpl;
          repeat split; try lia; (eapply gapped_weaken; [|exact G4]); lia.
      * destruct (Z.ltb_spec pos a), (Z.gtb_spec (pos + bs - (a + size)) 0); simpl; lia.
      * intros x. rewrite !existsb_app. cbn [existsb].
        destruct (Z.lt_ge_cases x (pos + bs)) as [Hx|Hx].
        -- rewrite (Hrest x Hx), !orb_false_r.
           destruct (Z.ltb_spec pos a), (Z.gtb_spec (pos + bs - (a + size)) 0);
             unfold in_block; cbn [existsb fst snd orb];
             repeat match goal with
                    | |- context [?u <=? ?v] => destruct (Z.leb_spec u v)
                    | |- context [?u <? ?v] => destruct (Z.ltb_spec u v)
                    end; cbn; try reflexivity; lia.
        -- assert (Hout : in_block (a, size) x = false).
           { unfold in_block. cbn [fst snd].
             destruct (Z.ltb_spec x (a + size)); [lia|by rewrite andb_false_r]. }
           rewrite Hout. cbn [negb]. rewrite andb_true_r.
           generalize (existsb (fun b => in_block b x) rest). intros e.
           destruct (Z.ltb_spec pos a), (Z.gtb_spec (pos + bs - (a + size)) 0);
             unfold in_block; cbn [existsb fst snd orb];
             repeat match goal with
                    | |- context [?u <=? ?v] => destruct (Z.leb_spec u v)
                    | |- context [?u <? ?v] => destruct (Z.ltb_spec u v)
                    end; cbn; try reflexivity; lia.
    + specialize (IH _ G4).
      destruct (Soup.allocate_at_blocks rest a size) as [rest'|].
      * destruct IH as ((b & Hb & Hb1 & Hb2) & Gr & Hs & He).
        split; [exists b; split; [by right|done]|].
        split; [simpl; done|]. split; [simpl; lia|].
        intros x. cbn [existsb]. rewrite He.
        destruct (in_block (pos, bs) x) eqn:Ein; [|done].
        cbn [orb].
        assert (Hout : in_block (a, size) x = false).
        { unfold in_block in *. cbn [fst snd] in *.
          apply gapped_lower in G4. apply (proj1 (Forall_forall _ _) G4) in Hb.
          destruct (Z.leb_spec a x); [|done].
          apply andb_true_iff in Ein as [_ Ein%Z.ltb_lt]. lia. }
        by rewrite Hout, andb_true_r.
      * intros b [-> | Hb]%elem_of_cons; [simpl; lia|by apply IH].
Qed.

(** X28 (soup.py, [Soup.allocate_at]): on a well-formed free list,
    reserving a given range of positive length succeeds exactly when one
    block of the free list holds the whole range, starting from the address
    reduced modulo the soup size.  A refusal changes nothing.  On success
    exactly the addresses of the range leave the free list, which stays
    well formed and holds so many bytes less. *)
Theorem allocate_at_takes_range (s : Soup.t) (addr size : Z) :
  free_list_wf s -> 0 < size ->
  let a := addr mod Soup.size s in
  let r := Soup.allocate_at s addr size in
  (r.1 = true <->
   exists b, b ∈ Soup.free_blocks s /\ b.1 <= a /\ a + size <= b.1 + b.2) /\
  (r.1 = false -> r.2 = s) /\
  (r.1 = true ->
   free_list_wf r.2 /\
   Soup.total_free r.2 = Soup.total_free s - size /\
   Soup.data r.2 = Soup.data s /\
   forall x, Soup.is_free r.2 x
             = Soup.is_free s x && negb (in_block (a, size) (x mod Soup.size s))).
Proof.
  intros Hwf Hsize a r. subst r. unfold Soup.allocate_at. fold a.
  pose proof (allocate_at_blocks_spec (-1) (Soup.free_blocks s) (Soup.size s) a size
                Hwf Hsize) as H.
  destruct (Soup.allocate_at_blocks (Soup.free_blocks s) a size) as [blocks'|]; cbn [fst snd].
  - destruct H as (Hex & G & Hs & He).
    split; [done|]. split; [done|]. intros _.
    split; [exact G|]. split; [exact Hs|]. split; [done|].
    intros x. rewrite !is_free_existsb. cbn [Soup.size Soup.free_blocks Soup.set_free_blocks].
    apply He.
  - split; [|done]. split; [done|]. intros (b & Hb & Hb1 & Hb2). exfalso. by apply (H b).
Qed.

Lemma allocate_at_takes_range_witness :
  (Soup.allocate_at three_gaps 1910 50).1 = true /\
  Soup.total_free (Soup.allocate_at three_gaps 1910 50).2 = 170 /\
  (Soup.allocate_at three_gaps 150 10).1 = false.
Proof.
  assert (Hwf : free_list_wf three_gaps) by (unfold free_list_wf; simpl; lia).
  destruct (allocate_at_takes_range three_gaps 1910 50 Hwf ltac:(lia)) as (H1 & _ & H3).
  assert (Hok : (Soup.allocate_at three_gaps 1910 50).1 = true).
  { apply H1. exists (900, 100). split; [|vm_compute; split; discriminate].
    apply elem_of_cons; right; apply elem_of_cons; right; apply elem_of_cons; by left. }
  split; [exact Hok|]. split; [exact (proj1 (proj2 (H3 Hok)))|].
  apply not_true_is_false. intros E.
  apply (proj1 (allocate_at_takes_range three_gaps 150 10 Hwf ltac:(lia))) in E
    as (b & Hb & Hb1 & Hb2).
  change (150 mod Soup.size three_gaps) with 150 in *.
  apply elem_of_cons in Hb as [-> | Hb]; [simpl in *; lia|].
  apply elem_of_cons in Hb as [-> | Hb]; [simpl in *; lia|].
  apply list_elem_of_singleton in Hb as ->. simpl in *. lia.
Defined.

(** ** The time series of the data collector *)




(** ** Entering and removing an owner *)

Lemma insert_at_cons {A} (i : nat) (x h : A) (l : list A) :
  list_insert_at (S i) x (h :: l) = h :: list_insert_at i x l.
Proof. reflexivity. Qed.

Lemma add_owner_sorted lb (os : list (Z * Z * CellId)) p sz cell :
  owners_sorted lb os -> (forall e, e ∈ os -> 0 < e.1.2) -> 0 < sz -> lb <= p ->
  (forall e, e ∈ os -> e.1.1 + e.1.2 <= p \/ p + sz <= e.1.1) ->
  owners_sorted lb (list_insert_at (bisect_left os.*1.*1 p) (p, sz, cell) os).
Proof.
  revert lb. induction os as [|[[q sq] c] rest IH]; intros lb Hs Hpos Hsz Hlb Hdis.
  - simpl. lia.
  - simpl in Hs. destruct Hs as (H1 & H2 & H3).
    pose proof (Hpos (q, sq, c) ltac:(by left)) as Hq. simpl in Hq.
    pose proof (Hdis (q, sq, c) ltac:(by left)) as Hd. simpl in Hd.
    cbn [fmap list_fmap fst bisect_left].
    destruct (Z.ltb_spec q p) as [Hqp|Hqp].
    + rewrite insert_at_cons. cbn [owners_sorted]. split; [done|]. split; [done|].
      apply IH; [done| |done|lia|].
      * intros e He. apply Hpos. by right.
      * intros e He. apply Hdis. by right.
    + unfold list_insert_at. cbn [take drop app owners_sorted].
      split; [done|]. split; [lia|]. split; [lia|]. split; [done|done].
Qed.

Lemma elem_of_insert_at {A} (i : nat) (x y : A) (l : list A) :
  y ∈ list_insert_at i x l <-> y = x \/ y ∈ l.
Proof.
  unfold list_insert_at. rewrite elem_of_app, elem_of_cons.
  assert (H : y ∈ l <-> y ∈ take i l \/ y ∈ drop i l).
  { rewrite <- (take_drop i l) at 1. apply elem_of_app. }
  tauto.
Qed.

Lemma remove_first_owner_insert (os : list (Z * Z * CellId)) i p sz cell :
  (forall e, e ∈ os -> e.2 <> cell) ->
  Soup.remove_first_owner (list_insert_at i (p, sz, cell) os) cell = os.
Proof.
  revert i. induction os as [|[[q sq] c] rest IH]; intros i Hne.
  - unfold list_insert_at. rewrite take_nil, drop_nil. simpl. by rewrite Nat.eqb_refl.
  - destruct i as [|i].
    + unfold list_insert_at. simpl. by rewrite Nat.eqb_refl.
    + rewrite insert_at_cons. cbn [Soup.remove_first_owner].
      pose proof (Hne (q, sq, c) ltac:(by left)) as Hc. simpl in Hc.
      destruct (Nat.eqb_spec c cell); [done|]. f_equal. apply IH.
      intros e He. apply Hne. by right.
Qed.

(** X30 (soup.py, [Soup.add_owner], [Soup.owner_at], [Soup.remove_owner]):
    entering a creature whose block is not empty and overlaps no block of a
    sorted owner table, itself free of empty blocks, keeps the table sorted;
    afterwards [owner_at] answers the new creature at the addresses of its
    block and what it answered before everywhere else.  If the creature was
    not in the table, removing it again gives the table back. *)
Theorem add_owner_then_owner_at (s : Soup.t) (cell : CellId) (mm : MemRegion.t) (lb : Z) :
  owners_sorted lb (Soup.owners s) ->
  (forall e, e ∈ Soup.owners s -> 0 < e.1.2) ->
  0 < MemRegion.size mm -> lb <= MemRegion.pos mm ->
  (forall e, e ∈ Soup.owners s ->
     e.1.1 + e.1.2 <= MemRegion.pos mm \/ MemRegion.pos mm + MemRegion.size mm <= e.1.1) ->
  let s' := Soup.add_owner s cell mm in
  owners_sorted lb (Soup.owners s') /\
  (forall a, Soup.owner_at s' a
             = if in_block (MemRegion.pos mm, MemRegion.size mm) (a mod Soup.size s)
               then Some cell else Soup.owner_at s a) /\
  ((forall e, e ∈ Soup.owners s -> e.2 <> cell) -> Soup.remove_owner s' cell = s).
Proof.
  intros Hs Hpos Hsz Hlb Hdis s'.
  assert (Hs' : owners_sorted lb (Soup.owners s')) by (by apply add_owner_sorted).
  split; [exact Hs'|]. split.
  - intros a.
    destruct (owner_at_spec s lb a Hs) as [Hsome Hnone].
    destruct (owner_at_spec s' lb a Hs') as [Hsome' Hnone'].
    change (Soup.size s') with (Soup.size s) in *.
    set (x := a mod Soup.size s) in *.
    assert (Hin : forall e, e ∈ Soup.owners s'
                            <-> e = (MemRegion.pos mm, MemRegion.size mm, cell)
                                \/ e ∈ Soup.owners s).
    { intros e. apply elem_of_insert_at. }
    destruct (in_block _ x) eqn:Eb.
    + apply Hsome'. exists (MemRegion.pos mm, MemRegion.size mm, cell).
      split; [apply Hin; by left|]. split; [done|].
      unfold in_block, holds in *. cbn [fst snd] in *.
      apply andb_true_iff in Eb as [?%Z.leb_le ?%Z.ltb_lt]. lia.
    + assert (Hnew : ~ holds (MemRegion.pos mm, MemRegion.size mm, cell) x).
      { unfold in_block, holds in *. cbn [fst snd] in *. intros [? ?].
        apply andb_false_iff in Eb as [?%Z.leb_gt | ?%Z.ltb_ge]; lia. }
      destruct (Soup.owner_at s a) as [c|] eqn:Eo.
      * apply Hsome'. destruct (proj1 (Hsome c) eq_refl) as (e & He & Hc & Hh).
        exists e. split; [apply Hin; by right|done].
      * apply Hnone'. intros e [-> | He]%Hin; [done|]. by apply (proj1 Hnone).
  - intros Hne. unfold s', Soup.remove_owner, Soup.add_owner.
    cbn [Soup.owners Soup.set_owners]. rewrite remove_first_owner_insert by done.
    by destruct s.
Qed.

Lemma add_owner_then_owner_at_witness :
  let s := Soup.set_owners [(0, 10, O); (80, 20, 1%nat)] (Soup.init 100) in
  let s' := Soup.add_owner s 2%nat (MemRegion.mk 40 12) in
  Soup.owner_at s' 45 = Some 2%nat /\ Soup.owner_at s' 85 = Some 1%nat /\
  Soup.remove_owner s' 2%nat = s.
Proof.
  intros s s'.
  assert (Hin : forall e, e ∈ Soup.owners s -> e = (0, 10, O) \/ e = (80, 20, 1%nat)).
  { intros e [-> | He]%elem_of_cons; [by left|].
    apply list_elem_of_singleton in He as ->. by right. }
  destruct (add_owner_then_owner_at s 2%nat (MemRegion.mk 40 12) 0) as (_ & H2 & H3).
  - simpl. lia.
  - intros e [-> | ->]%Hin; simpl; lia.
  - simpl. lia.
  - simpl. lia.
  - intros e [-> | ->]%Hin; simpl; lia.
  - split; [exact (H2 45)|]. split; [exact (H2 85)|].
    apply H3. intros e [-> | ->]%Hin; simpl; lia.
Defined.
